(** * renku-python: dataset provenance and transactional commit core

    A shallow embedding of the parts of

      - [renku/core/models/provenance/agents.py]  (Person),
      - [renku/core/commands/dataset.py]          (dataset commands),
      - [renku/core/management/git.py]            (GitCore),
      - [renku/core/commands/providers/dataverse.py] (the deposition),
      - [renku/cli/init.py]                       (validate_name),

    together with the properties the specification states about them
    and further properties of the same code.

    Conventions.  A Python [str] that the code inspects character by
    character is a list of Unicode code points ([list N]); [lit] turns
    an ASCII literal into such a list.  Names that are only compared or
    used as keys (paths, branch names, configuration keys) are [string].
    A call that can raise returns a [result]: the value, or the
    exception as a value of an error type. *)

From Stdlib Require Import Sorted DecimalString.
From stdpp Require Import gmap strings list fin_maps.

Open Scope N_scope.

(** ** Python text *)

Module Text.

Abbreviation pystr := (list N).

(** An ASCII literal as a list of code points. *)
Definition lit (s : string) : pystr :=
  Ascii.N_of_ascii <$> String.list_ascii_of_string s.

(** Truth value of a [str]: the empty string is falsy. *)
Definition str_truthy (s : pystr) : bool :=
  match s with [] => false | _ :: _ => true end.

(** Truth value of an optional [str] ([None] or a string). *)
Definition opt_truthy (o : option pystr) : bool :=
  match o with None => false | Some s => str_truthy s end.

Definition in_range (lo hi c : N) : bool := (lo <=? c) && (c <=? hi).

(** [x in s] for a one-character [x]. *)
Definition char_in (c : N) (s : pystr) : bool := bool_decide (c ∈ s).

(** The constants of Python's [string] module. *)
Definition digits : pystr := lit "0123456789".
Definition ascii_lowercase : pystr := lit "abcdefghijklmnopqrstuvwxyz".
Definition ascii_uppercase : pystr := lit "ABCDEFGHIJKLMNOPQRSTUVWXYZ".
Definition ascii_letters : pystr := ascii_lowercase ++ ascii_uppercase.
(* string.punctuation: the 32 ASCII punctuation marks in code order;
   code point 34 is the double quote *)
Definition punctuation : pystr :=
  lit "!" ++ [34] ++ lit "#$%&'()*+,-./:;<=>?@[\]^_`{|}~".
(* string.whitespace: space, tab, newline, return, vertical tab, form feed *)
Definition whitespace : pystr := [32; 9; 10; 13; 11; 12].
Definition printable : pystr :=
  digits ++ ascii_letters ++ punctuation ++ whitespace.

(** [s.translate(str.maketrans('', '', deleted))]: drop the characters
    listed in [deleted]. *)
Definition translate_delete (deleted : pystr) (s : pystr) : pystr :=
  List.filter (fun c => negb (char_in c deleted)) s.

(** [str.lower], on the ASCII range; the code applies it to strings
    that hold printable ASCII only. *)
Definition lower_char (c : N) : N :=
  if in_range 65 90 c then c + 32 else c.
Definition lower (s : pystr) : pystr := lower_char <$> s.

(** The characters [str.split()] treats as separators ([str.isspace]). *)
Definition isspace (c : N) : bool :=
  in_range 9 13 c || in_range 28 32 c || (c =? 133) || (c =? 160)
  || (c =? 5760) || in_range 8192 8202 c || (c =? 8232) || (c =? 8233)
  || (c =? 8239) || (c =? 8287) || (c =? 12288).

(** [s.split()]: the maximal runs of non-space characters, in order.
    [cur] is the run being read, reversed. *)
Fixpoint split_ws_aux (cur : pystr) (s : pystr) : list pystr :=
  match s with
  | [] => match cur with [] => [] | _ :: _ => [rev cur] end
  | c :: s' =>
      if isspace c then
        match cur with
        | [] => split_ws_aux [] s'
        | _ :: _ => rev cur :: split_ws_aux [] s'
        end
      else split_ws_aux (c :: cur) s'
  end.
Definition split_ws (s : pystr) : list pystr := split_ws_aux [] s.

(** [sep.join(parts)]. *)
Fixpoint join (sep : pystr) (parts : list pystr) : pystr :=
  match parts with
  | [] => []
  | [p] => p
  | p :: ps => p ++ sep ++ join sep ps
  end.

(** [s.split(sep)] for a one-character separator: always at least one
    field, empty fields are kept. *)
Fixpoint split_on_aux (sep : N) (cur : pystr) (s : pystr) : list pystr :=
  match s with
  | [] => [rev cur]
  | c :: s' =>
      if c =? sep then rev cur :: split_on_aux sep [] s'
      else split_on_aux sep (c :: cur) s'
  end.
Definition split_on (sep : N) (s : pystr) : list pystr :=
  split_on_aux sep [] s.

(** [needle in s] for strings: [needle] occurs as a contiguous block. *)
Fixpoint starts_with (needle s : pystr) : bool :=
  match needle, s with
  | [], _ => true
  | _ :: _, [] => false
  | a :: n', b :: s' => (a =? b) && starts_with n' s'
  end.
Fixpoint contains (needle s : pystr) : bool :=
  starts_with needle s ||
  match s with
  | [] => false
  | _ :: s' => contains needle s'
  end.

End Text.

Import Text.

(** ** Results of fallible operations *)

(** A Python call either returns a value or raises. *)
Inductive result (E A : Type) : Type :=
| Ok (a : A)
| Raise (e : E).
Arguments Ok {E A} a.
Arguments Raise {E A} e.

Definition bind {E A B} (r : result E A) (k : A -> result E B) : result E B :=
  match r with
  | Ok a => k a
  | Raise e => Raise e
  end.

Declare Scope result_scope.
Delimit Scope result_scope with result.
Notation "'try' x ':=' r 'in' k" := (bind r (fun x => k))
  (at level 10, x name, r at level 100, k at level 200,
   only parsing) : result_scope.
Notation "'check' r 'in' k" := (bind r (fun _ => k))
  (at level 10, r at level 100, k at level 200,
   only parsing) : result_scope.

(** ** renku/core/models/provenance/agents.py *)

Module Agents.

Inductive exn : Type :=
| ValueError (msg : string).

(** The attributes of [Person], in declaration order. *)
Record Person : Type := mkPerson {
  name : pystr;
  email : option pystr;
  label : pystr;
  affiliation : option pystr;
  alternate_name : option pystr;
  _id : pystr;
}.

(** [Person.default_id]. *)
Definition default_id (self_email : option pystr) (self_name : pystr) : pystr :=
  if opt_truthy self_email then
    lit "mailto:" ++ default [] self_email
  else
    (* prep name to be a valid ntuple string *)
    let name := translate_delete punctuation self_name in
    let name := List.filter (fun x => char_in x printable) name in
    lit "_:" ++ join [] (split_ws (lower name)).

(** [Person.default_label]. *)
Definition default_label (self_name : pystr) : pystr := self_name.

(** [re.match(r'[^@]+@[^@]+\.[^@]+', value)]: a prefix of [value] is a
    non-empty run without [@], an [@], and a run without [@] that has a
    dot with at least one character on either side. *)
Definition not_at (c : N) : bool := negb (c =? 64).

Fixpoint take_while (p : N -> bool) (s : pystr) : pystr :=
  match s with
  | [] => []
  | c :: s' => if p c then c :: take_while p s' else []
  end.

Fixpoint drop_while (p : N -> bool) (s : pystr) : pystr :=
  match s with
  | [] => []
  | c :: s' => if p c then drop_while p s' else s
  end.

(** A dot that is neither the first nor the last character. *)
Fixpoint inner_dot (s : pystr) : bool :=
  match s with
  | _ :: s1 =>
      match s1 with
      | c :: _ :: _ => (c =? 46) || inner_dot s1
      | _ => false
      end
  | [] => false
  end.

Definition email_re_match (value : pystr) : bool :=
  match take_while not_at value, drop_while not_at value with
  | _ :: _, _ :: rest => inner_dot (take_while not_at rest)
  | _, _ => false
  end.

(** [Person.check_email], the validator of [email]. *)
Definition check_email (self_email value : option pystr) : result exn unit :=
  if opt_truthy self_email &&
     negb (match value with
           | Some v => email_re_match v
           | None => false
           end)
  then Raise (ValueError "Email address is invalid.")
  else Ok tt.

(** [Person.__attrs_post_init__]: repair an identifier that was built
    from a missing email. *)
Definition attrs_post_init (self : Person) : Person :=
  if bool_decide (_id self = lit "mailto:None") then
    mkPerson (name self) (email self) (label self) (affiliation self)
      (alternate_name self) (default_id (email self) (name self))
  else self.

(** [Person(name=..., email=..., label=..., affiliation=...,
    alternate_name=..., id=...)].  [label] and [id] are [None] when the
    caller leaves them out; the defaults are then computed in attribute
    order, the validators run, and the post-init hook runs last. *)
Definition Person_init (name : pystr) (email : option pystr)
    (label : option pystr) (affiliation alternate_name : option pystr)
    (id : option pystr) : result exn Person :=
  let label := default (default_label name) label in
  let id := default (default_id email name) id in
  let self := mkPerson name email label affiliation alternate_name id in
  (check check_email (Agents.email self) (Agents.email self) in
   Ok (attrs_post_init self))%result.

(** The name-based token in the words of the specification: punctuation
    and non-printable characters removed, lower-cased, whitespace
    removed. *)
Definition spec_name_token (name : pystr) : pystr :=
  lower (List.filter (fun c => char_in c printable
                                   && negb (char_in c punctuation)
                                   && negb (isspace c)) name).

End Agents.

(** ** renku/core/commands/dataset.py *)

Module Dataset.

Inductive exn : Type :=
| UsageError (msg : pystr)
| ParameterError (msg : pystr)
| DatasetNotFound (msg : pystr)
| InvalidAccessToken
| ValueError (msg : pystr)
| HTTPError (msg : pystr)
| FileNotFoundError
| NoSuchPathError
| OtherError (msg : pystr).

(** [str(e)] for the exceptions that carry a message. *)
Definition exn_str (e : exn) : pystr :=
  match e with
  | UsageError m | ParameterError m | DatasetNotFound m
  | ValueError m | HTTPError m | OtherError m => m
  | InvalidAccessToken | FileNotFoundError | NoSuchPathError => []
  end.

(** The double quote, which messages of this file use. *)
Definition dq : pystr := [34].

Section Commands.

(** File-system paths ([pathlib.Path]) and VCS commits are opaque. *)
Context {Path Commit : Type}.

Record DatasetTag : Type := mkTag {
  tag_name : pystr;
  tag_description : pystr;
  tag_commit : Commit;
}.

Record DatasetFile : Type := mkFile {
  df_path : Path;
  df_url : pystr;
  df_added : Z;
  df_creator : list Agents.Person;
  df_dataset : option pystr;
}.

Record DatasetT : Type := mkDataset {
  ds_name : pystr;
  ds_short_name : pystr;
  ds_version : option pystr;
  ds_url : pystr;
  ds_files : list DatasetFile;
  ds_tags : list DatasetTag;
}.

(** The local client: its configuration store, the datasets of the
    checked-out tree (a dict, in insertion order) and the rest of the
    working copy, which stays opaque ([Tree]). *)
Context {Tree : Type}.

Record Client : Type := mkClient {
  config : gmap (string * string) pystr;
  datasets : list (Path * DatasetT);
  client_path : Path;
  tree : Tree;
}.

(** A command runs on the client and either returns or raises; what it
    did to the client before raising stays done. *)
Definition cmd (A : Type) : Type := Client -> result exn A * Client.

(** *** add_to_dataset *)

(** The keyword arguments of [add_to_dataset]. *)
Record AddOptions : Type := mkAddOptions {
  link : bool;
  force : bool;
  create : bool;
  sources : list pystr;
  destination : pystr;
  ref : option pystr;
  with_metadata : option DatasetT;
  extract : bool;
  all_at_once : bool;
}.

(** The body of the [try] block of [add_to_dataset]: it runs
    [client.with_dataset] and [client.add_data_to_dataset] of
    renku/core/management/datasets.py, which are not part of this file,
    and is kept abstract. *)
Variable add_data : list pystr -> pystr -> AddOptions -> cmd unit.

(** Truth value of a tuple or list. *)
Definition seq_truthy {A} (l : list A) : bool :=
  match l with [] => false | _ :: _ => true end.

Definition add_to_dataset (urls : list pystr) (short_name : pystr)
    (opts : AddOptions) : cmd unit :=
  fun client =>
  if (length urls =? 0)%nat then
    (Raise (UsageError (lit "No URL is specified")), client)
  else if (seq_truthy (sources opts) || str_truthy (destination opts))
          && (1 <? length urls)%nat then
    (Raise (UsageError
       (lit "Cannot add multiple URLs with --source or --destination")),
     client)
  else
    match add_data urls short_name opts client with
    | (Raise (DatasetNotFound _), client') =>
        (Raise (DatasetNotFound
           (lit "Dataset " ++ dq ++ short_name ++ dq
            ++ lit " does not exist." ++ [10]
            ++ lit "Use " ++ dq ++ lit "renku dataset create "
            ++ short_name ++ dq
            ++ lit " to create the dataset or retry "
            ++ dq ++ lit "renku dataset add " ++ short_name ++ dq
            ++ lit " command with " ++ dq ++ lit "--create" ++ dq
            ++ lit " option for automatic dataset creation.")), client')
    | (Raise FileNotFoundError, client')
    | (Raise NoSuchPathError, client') =>
        (Raise (ParameterError
           (lit "Could not find paths/URLs: " ++ [10] ++ join [10] urls)),
         client')
    | r => r
    end.

(** *** export_dataset *)

Record Exporter : Type := mkExporter {
  exp_dataset : DatasetT;
  exp_access_token : option pystr;
}.

(** The collaborators of [export_dataset] that are not in this file. *)
Variable load_dataset : Client -> pystr -> option DatasetT.
Variable provider_known : string -> bool.
Variable head_commit : Tree -> Commit.
Variable with_commit : Commit -> Tree -> Tree.
Variable exporter_export :
  Exporter -> bool -> option DatasetTag -> result exn pystr.

Definition config_key_secret : string := "access_token".

Definition get_value (client : Client) (section key : string)
  : option pystr := config client !! (section, key).

Definition set_config (client : Client)
    (c : gmap (string * string) pystr) : Client :=
  mkClient c (datasets client) (client_path client) (tree client).

Definition set_tree (client : Client) (t : Tree) : Client :=
  mkClient (config client) (datasets client) (client_path client) t.

Definition set_value (client : Client) (section key : string)
    (value : pystr) : Client :=
  set_config client (<[(section, key) := value]> (config client)).

Definition remove_value (client : Client) (section key : string) : Client :=
  set_config client (delete (section, key) (config client)).

(** The block under [with client.with_commit(selected_commit)]. *)
Definition export_block (id : pystr) (provider_id : string) (publish : bool)
    (selected_tag : option DatasetTag)
    (handle_access_token_fn : option (Exporter -> option pystr))
  : cmd pystr :=
  fun client =>
  match load_dataset client id with
  | None => (Raise (DatasetNotFound []), client)
  | Some dataset_ =>
    let access_token := get_value client provider_id config_key_secret in
    let exporter := mkExporter dataset_ access_token in
    let prepared : result exn (Exporter * Client) :=
      match access_token with
      | Some _ => Ok (exporter, client)
      | None =>
        let access_token :=
          match handle_access_token_fn with
          | Some fn => fn exporter
          | None => None
          end in
        match access_token with
        | None | Some [] => Raise InvalidAccessToken
        | Some token =>
            Ok (mkExporter dataset_ (Some token),
                set_value client provider_id config_key_secret token)
        end
      end in
    match prepared with
    | Raise e => (Raise e, client)
    | Ok (exporter, client) =>
      match exporter_export exporter publish selected_tag with
      | Ok destination => (Ok destination, client)
      | Raise (HTTPError msg as e) =>
          if contains (lit "unauthorized") (exn_str e) then
            (Raise e, remove_value client provider_id config_key_secret)
          else (Raise e, client)
      | Raise e => (Raise e, client)
      end
    end
  end.

Definition export_dataset (id : pystr) (provider : string) (publish : bool)
    (tag : option pystr)
    (handle_access_token_fn : option (Exporter -> option pystr))
    (handle_tag_selection_fn : option (list DatasetTag -> option DatasetTag))
  : cmd pystr :=
  fun client =>
  let provider_id := provider in
  match load_dataset client id with
  | None => (Raise (DatasetNotFound []), client)
  | Some dataset_ =>
    if negb (provider_known provider_id) then
      (Raise (ValueError (lit "Unknown provider.")), client)
    else
      let head := head_commit (tree client) in
      let selection : result exn (option DatasetTag * Commit) :=
        if opt_truthy tag then
          match List.find (fun t => bool_decide (Some (tag_name t) = tag))
                  (ds_tags dataset_) with
          | None =>
              Raise (ValueError
                (lit "Tag " ++ default [] tag ++ lit " not found"))
          | Some t => Ok (Some t, tag_commit t)
          end
        else
          match ds_tags dataset_, handle_tag_selection_fn with
          | _ :: _, Some fn =>
              match fn (ds_tags dataset_) with
              | Some t => Ok (Some t, tag_commit t)
              | None => Ok (None, head)
              end
          | _, _ => Ok (None, head)
          end in
      match selection with
      | Raise e => (Raise e, client)
      | Ok (selected_tag, selected_commit) =>
        let inner := set_tree client (with_commit selected_commit (tree client)) in
        let '(r, inner') :=
          export_block id provider_id publish selected_tag
            handle_access_token_fn inner in
        (* leaving the context restores the checked-out tree *)
        let client' := set_tree inner' (tree client) in
        match r with
        | Ok destination => (Ok (lit "Exported to: " ++ destination), client')
        | Raise e => (Raise e, client')
        end
      end
  end.

(** *** tag_dataset and the end of import_dataset *)

(** [client.add_dataset_tag] and [dataset.to_yaml] are not part of this
    file. *)
Variable add_dataset_tag :
  Client -> DatasetT -> pystr -> pystr -> bool -> result exn DatasetT.
Variable to_yaml : DatasetT -> Client -> Client.

Definition tag_dataset (name tag description : pystr) (force : bool)
  : cmd unit :=
  fun client =>
  match load_dataset client name with
  | None => (Raise (ParameterError (lit "Dataset not found.")), client)
  | Some dataset_ =>
      match add_dataset_tag client dataset_ tag description force with
      | Ok dataset => (Ok tt, to_yaml dataset client)
      | Raise (ValueError m) => (Raise (ParameterError m), client)
      | Raise e => (Raise e, client)
      end
  end.

(** The character class [[^a-zA-Z0-9.-_]] of [import_dataset], read as
    the [re] module reads it: [a-z], [A-Z], [0-9] and the range from
    the dot (46) to the underscore (95) are the characters it does not
    match. *)
Definition version_class (c : N) : bool :=
  in_range 97 122 c || in_range 65 90 c || in_range 48 57 c
  || in_range 46 95 c.

(** [re.sub('[^a-zA-Z0-9.-_]', '_', version)]. *)
Definition version_tag_name (version : pystr) : pystr :=
  (fun c => if version_class c then c else 95) <$> version.

(** [generate_default_short_name] and [remove_credentials] are imported
    from other modules. *)
Variable generate_default_short_name : pystr -> option pystr -> pystr.
Variable remove_credentials : pystr -> pystr.

(** [import_dataset] from [if files:] on, for the dataset the provider
    record resolved to. *)
Definition import_files (dataset : DatasetT) (short_name : pystr)
    (extract : bool) : cmd unit :=
  fun client =>
  let files := ds_files dataset in
  if seq_truthy files then
    let short_name :=
      if str_truthy short_name then short_name
      else generate_default_short_name (ds_name dataset)
             (ds_version dataset) in
    let dataset :=
      mkDataset (ds_name dataset) (ds_short_name dataset)
        (ds_version dataset) (remove_credentials (ds_url dataset))
        (ds_files dataset) (ds_tags dataset) in
    match add_to_dataset (df_url <$> files) short_name
            (mkAddOptions false true true [] [] None (Some dataset)
               extract true) client with
    | (Raise e, client') => (Raise e, client')
    | (Ok _, client') =>
        match ds_version dataset with
        | Some ((_ :: _) as version) =>
            let tag_name := version_tag_name version in
            tag_dataset short_name tag_name
              (lit "Tag " ++ version ++ lit " created by renku import")
              false client'
        | _ => (Ok tt, client')
        end
    end
  else (Ok tt, client).

(** The tag alphabet of the specification, [[a-zA-Z0-9.\-_]+]. *)
Definition tag_char (c : N) : bool :=
  in_range 97 122 c || in_range 65 90 c || in_range 48 57 c
  || (c =? 46) || (c =? 45) || (c =? 95).
Definition valid_tag_name (s : pystr) : bool :=
  str_truthy s && forallb tag_char s.

(** *** _include_exclude and _filter *)

(** [DatasetFile.full_path], [Path.relative_to] and [PurePath.match]. *)
Variable full_path : Client -> DatasetFile -> Path.
Variable relative_to : Path -> Path -> Path.
Variable path_match : Path -> pystr -> bool.

Definition _include_exclude (file_path : Path)
    (include exclude : option (list pystr)) : bool :=
  if match exclude with
     | Some ((_ :: _) as exclude) => existsb (path_match file_path) exclude
     | _ => false
     end
  then false
  else
    match include with
    | Some ((_ :: _) as include) => existsb (path_match file_path) include
    | _ => true
    end.

(** The [creators] argument: [None], a comma-separated string, or a
    list or tuple of names. *)
Inductive creators_arg : Type :=
| CreatorsNone
| CreatorsStr (s : pystr)
| CreatorsSeq (l : list pystr).

(** The set [_filter] turns it into, as the list of its members. *)
Definition creators_set (creators : creators_arg) : list pystr :=
  match creators with
  | CreatorsNone => []
  | CreatorsStr s => split_on 44 s
  | CreatorsSeq l => l
  end.

(** [sorted(records, key=lambda file_: file_.added)]: a stable sort. *)
Fixpoint insert_by_added (f : DatasetFile) (l : list DatasetFile)
  : list DatasetFile :=
  match l with
  | [] => [f]
  | g :: l' =>
      if (df_added f <=? df_added g)%Z then f :: l
      else g :: insert_by_added f l'
  end.
Definition sorted_by_added (l : list DatasetFile) : list DatasetFile :=
  foldr insert_by_added [] l.

(** One turn of the inner loop of [_filter]: the record with its
    [dataset] attribute set, and whether it is kept. *)
Definition filter_file (client : Client) (creators : list pystr)
    (include exclude : option (list pystr)) (dataset : DatasetT)
    (file_ : DatasetFile) : DatasetFile * bool :=
  let file_ :=
    mkFile (df_path file_) (df_url file_) (df_added file_)
      (df_creator file_) (Some (ds_name dataset)) in
  let path_ := relative_to (full_path client file_) (client_path client) in
  let match_ := _include_exclude path_ include exclude in
  let match_ :=
    if seq_truthy creators then
      match_ &&
      forallb (fun c => bool_decide (c ∈ Agents.name <$> df_creator file_))
        creators
    else match_ in
  (file_, match_).

Definition _filter (client : Client) (names : list pystr)
    (creators : creators_arg) (include exclude : option (list pystr))
  : list DatasetFile :=
  let creators := creators_set creators in
  let records :=
    flat_map (fun '(path_, dataset) =>
      if negb (seq_truthy names)
         || bool_decide (ds_short_name dataset ∈ names)
      then
        fst <$> List.filter snd
          (filter_file client creators include exclude dataset
             <$> ds_files dataset)
      else []) (datasets client) in
  sorted_by_added records.

End Commands.

End Dataset.

(** ** renku/core/management/git.py *)

Module Git.

(** *** The repository the Git client wraps

    A blob is identified by a number; a file of the working tree has a
    blob and the time of its last status change in milliseconds
    ([int(st_ctime * 1e3)]).  The history is the list of commits, newest
    first; [HEAD] is its first element and is missing in a repository
    without commits. *)

Inductive change_type : Type := Added | Deleted | Modified | Renamed.

#[global] Instance change_type_eq_dec : EqDecision change_type.
Proof. solve_decision. Defined.

Record wfile : Type := mkFile { content : N; ctime_ms : Z }.

Record Commit : Type := mkCommit {
  c_message : pystr;
  c_committer : pystr * pystr;
  c_tree : gmap string N;
}.

Record Repo : Type := mkRepo {
  log : list Commit;
  index : gmap string N;
  working_tree : gmap string wfile;
}.

Inductive exn : Type :=
| DirtyRepository (repo : Repo)
| DirtyRenkuDirectory (repo : Repo)
| NothingToCommit
| CommitMessageEmpty
| BadName
| CommandError (msg : pystr).

(** What running a piece of code on the repository leads to. *)
Inductive outcome : Type :=
| Done (r : Repo)
| Failed (e : exn) (r : Repo).

Definition head_tree (r : Repo) : option (gmap string N) :=
  c_tree <$> head (log r).

(** [repo.untracked_files].  The repository of the model has no ignore
    rules: every file of the working tree that the index does not have
    is untracked. *)
Definition untracked_files (r : Repo) : list string :=
  elements (dom (working_tree r) ∖ dom (index r)).

(** [repo.index.diff(None)]: the index against the working tree, as the
    map from [a_path] to [change_type].  Only files of the index are
    compared, so that no rename shows up here. *)
Definition diff_worktree (r : Repo) : gmap string change_type :=
  map_imap (fun p c =>
    match working_tree r !! p with
    | None => Some Deleted
    | Some f => if decide (content f = c) then None else Some Modified
    end) (index r).

(** The comparison of two trees path by path, from the first to the
    second: a path that only the first has counts as deleted. *)
Definition diff_entry (i h : option N) : option change_type :=
  match i, h with
  | Some _, None => Some Deleted
  | None, Some _ => Some Added
  | Some a, Some b => if decide (a = b) then None else Some Modified
  | None, None => None
  end.

(** The files that only the first of two trees has. *)
Definition only_in (i h : gmap string N) : gmap string N :=
  filter (fun kv => h !! kv.1 = None) i.

Section Diff.

(** GitPython asks git to detect renames ([-M]) when it diffs: a path
    that only the one tree has and a path that only the other has make
    one entry when git takes the second for the first under another
    name.  Which paths git pairs depends on the content of the files,
    which the model does not have; [detect_renames] stands for it.  It
    is given the files only in the index and the files only in HEAD and
    returns pairs of the path in the index and the path in HEAD. *)
Variable detect_renames :
  gmap string N -> gmap string N -> list (string * string).

(** The renames between index and HEAD: what git pairs, as far as it
    is a path only in the index with a path only in HEAD. *)
Definition renames (i h : gmap string N) : list (string * string) :=
  List.filter (fun ab =>
      bool_decide (ab.1 ∈ dom (only_in i h))
      && bool_decide (ab.2 ∈ dom (only_in h i)))
    (detect_renames (only_in i h) (only_in h i)).

(** [repo.index.diff('HEAD')], as the map from [a_path] to
    [change_type]: GitPython diffs from the index to the commit, so a
    path that is only in the index counts as deleted, and a rename is
    one entry whose [a_path] is the path in the index; the path in HEAD
    has no entry of its own.  The revision cannot be resolved in a
    repository without commits. *)
Definition diff_head (r : Repo) : result exn (gmap string change_type) :=
  match head_tree r with
  | None => Raise BadName
  | Some h =>
      let pairs := renames (index r) h in
      let entries :=
        filter (fun kv => kv.1 ∉ pairs.*2) (merge diff_entry (index r) h) in
      Ok (foldr (fun ab entries => <[ab.1 := Renamed]> entries) entries pairs)
  end.

(** [path] itself or a path below the directory [path]. *)
Definition under (path q : string) : bool :=
  String.eqb path q || String.prefix (path +:+ "/") q.

(** [Path(path).exists()], from the root of the working tree. *)
Definition path_exists (path : string) (r : Repo) : bool :=
  bool_decide (Exists (fun q => under path q) (elements (dom (working_tree r)))).

(** [repo.git.reset()]. *)
Definition git_reset (r : Repo) : Repo :=
  mkRepo (log r) (default ∅ (head_tree r)) (working_tree r).

(** [repo.git.add(path)]: the index takes the working tree's state of
    every file at or below [path]. *)
Definition git_add (path : string) (r : Repo) : Repo :=
  mkRepo (log r)
    (filter (fun kv => ¬ under path kv.1) (index r)
     ∪ (content <$> filter (fun kv => under path kv.1) (working_tree r)))
    (working_tree r).

(** [repo.git.add('--all')]. *)
Definition git_add_all (r : Repo) : Repo :=
  mkRepo (log r) (content <$> working_tree r) (working_tree r).

(** [repo.index.commit(message, committer=...)]. *)
Definition index_commit (message : pystr) (committer : pystr * pystr)
    (r : Repo) : Repo :=
  mkRepo (mkCommit message committer (index r) :: log r) (index r) (working_tree r).

(** *** GitCore.ensure_untracked, GitCore.ensure_unstaged *)

Definition ensure_untracked (path : string) (r : Repo) : result exn unit :=
  let untracked := untracked_files r in
  if existsb (fun file_path =>
       let is_parent := String.prefix path file_path in
       let is_equal := String.eqb path file_path in
       is_parent || is_equal) untracked
  then Raise (DirtyRenkuDirectory r)
  else Ok tt.

Definition ensure_unstaged (path : string) (r : Repo) : result exn unit :=
  match diff_head r with
  | Ok staged =>
      if existsb (fun a_path =>
           let is_parent := String.prefix path a_path in
           let is_equal := String.eqb path a_path in
           is_parent || is_equal) (elements (dom staged))
      then Raise (DirtyRenkuDirectory r)
      else Ok tt
  | Raise BadName => Ok tt
  | Raise e => Raise e
  end.

(** *** GitCore.commit *)

(** The [commit_only] argument: [None], the string
    [COMMIT_DIFF_STRATEGY], or a list of paths. *)
Inductive commit_only_arg : Type :=
| OnlyNone
| OnlyDiff
| OnlyList (paths : list string).

(** The [commit_message] argument: [None], a string, or a value of
    another type. *)
Inductive message_arg : Type :=
| MsgNone
| MsgStr (s : pystr)
| MsgBool (b : bool)
| MsgInt (z : Z)
| MsgList (l : list pystr).

Definition msg_truthy (m : message_arg) : bool :=
  match m with
  | MsgNone => false
  | MsgStr s => str_truthy s
  | MsgBool b => b
  | MsgInt z => negb (z =? 0)%Z
  | MsgList l => match l with [] => false | _ :: _ => true end
  end.

Definition msg_is_str (m : message_arg) : bool :=
  match m with MsgStr _ => true | _ => false end.

Definition set_truthy (s : gset string) : bool :=
  match elements s with [] => false | _ :: _ => true end.

(** [os.path.basename]: what follows the last slash. *)
Definition basename (p : pystr) : pystr :=
  default [] (last (split_on 47 p)).

Section Commit.

(** Process start in milliseconds, [int(time.time() * 1e3)]. *)
Variable STARTED_AT : Z.
(** [renku.version.__version__] and [version_url]. *)
Variable version version_url : pystr.
(** [sys.argv], split into the program and its arguments. *)
Variable argv0 : pystr.
Variable argv_rest : list pystr.
(** [renku.core.utils.urls.remove_credentials]. *)
Variable remove_credentials : pystr -> pystr.

(** The part of [commit] before [yield]: the snapshot [diff_before] and
    the repository the wrapped code starts from. *)
Definition commit_enter (commit_only : commit_only_arg) (r : Repo)
  : result exn (gset string * Repo) :=
  match commit_only with
  | OnlyDiff =>
      let staged := dom (diff_worktree r) in
      (try modified_types := diff_head r in
       let modified := dom modified_types in
       let r := if set_truthy staged || set_truthy modified
                then git_reset r else r in
       (* Exclude files created by pipes. *)
       let diff_before : gset string :=
         list_to_set
           (List.filter (fun file_ =>
              match working_tree r !! file_ with
              | Some f => bool_decide (1000 ≤ STARTED_AT - ctime_ms f)%Z
              | None => false
              end) (untracked_files r)) in
       Ok (diff_before, r))%result
  | OnlyList paths =>
      (check
         foldl (fun acc path_ =>
                  check acc in
                  check ensure_untracked path_ r in
                  ensure_unstaged path_ r) (Ok tt) paths in
       Ok (∅, r))%result
  | OnlyNone => Ok (∅, r)
  end.

(** The message of the commit. *)
Definition resolve_message (commit_message : message_arg)
  : result exn pystr :=
  if msg_truthy commit_message && negb (msg_is_str commit_message) then
    Raise CommitMessageEmpty
  else if negb (msg_truthy commit_message) then
    let argv := basename argv0 :: (remove_credentials <$> argv_rest) in
    Ok (join (lit " ") argv)
  else
    Ok (match commit_message with MsgStr s => s | _ => [] end).

(** The paths the diff strategy selects after the wrapped code ran,
    with the change types it looks up. *)
Definition diff_selection (diff_before : gset string) (r : Repo)
  : result exn (gmap string change_type * list string) :=
  (* Get diff generated in command. *)
  let change_types := diff_worktree r in
  let staged_after := dom change_types in
  (try modified_after_change_types := diff_head r in
   let modified_after := dom modified_after_change_types in
   let change_types := modified_after_change_types ∪ change_types in
   let diff_after : gset string :=
     list_to_set (untracked_files r) ∪ staged_after ∪ modified_after in
   (* Remove files not touched in command. *)
   Ok (change_types, elements (diff_after ∖ diff_before)))%result.

(** The staging loop over the list [commit_only]. *)
Definition stage_paths (change_types : gmap string change_type)
    (paths : list string) (r : Repo) : Repo :=
  foldl (fun r path_ =>
    if path_exists path_ r
       || bool_decide (change_types !! path_ = Some Deleted)
    then git_add path_ r else r) r paths.

(** The first half of [commit] after [yield]: what gets staged. *)
Definition stage (commit_only : commit_only_arg) (diff_before : gset string)
    (r : Repo) : result exn Repo :=
  let selection : result exn (gmap string change_type * option (list string)) :=
    match commit_only with
    | OnlyDiff =>
        (try sel := diff_selection diff_before r in
         Ok (sel.1, Some sel.2))%result
    | OnlyList paths => Ok (∅, Some paths)
    | OnlyNone => Ok (∅, None)
    end in
  (try sel := selection in
   let change_types := sel.1 in
   let commit_only := sel.2 in
   let r :=
     match commit_only with
     | Some paths => stage_paths change_types paths r
     | None => r
     end in
   (* if not commit_only *)
   let r :=
     match commit_only with
     | None | Some [] => git_add_all r
     | Some (_ :: _) => r
     end in
   Ok r)%result.

(** [not commit_empty and not self.repo.index.diff('HEAD')]. *)
Definition nothing_to_commit (commit_empty : bool) (r : Repo)
  : result exn bool :=
  if negb commit_empty then
    (try d := diff_head r in Ok (negb (set_truthy (dom d))))%result
  else Ok false.

(** The part of [commit] after [yield]. *)
Definition commit_exit (commit_only : commit_only_arg)
    (commit_empty raise_if_empty : bool) (commit_message : message_arg)
    (diff_before : gset string) (r : Repo) : outcome :=
  let committer := (lit "renku " ++ version, version_url) in
  match stage commit_only diff_before r with
  | Raise e => Failed e r
  | Ok r =>
    match nothing_to_commit commit_empty r with
    | Raise e => Failed e r
    | Ok true => if raise_if_empty then Failed NothingToCommit r else Done r
    | Ok false =>
      match resolve_message commit_message with
      | Raise e => Failed e r
      | Ok message =>
          (* Ignore pre-commit hooks since we have already done everything. *)
          Done (index_commit message committer r)
      end
    end
  end.

(** [with client.commit(...): body]. *)
Definition commit (commit_only : commit_only_arg)
    (commit_empty raise_if_empty : bool) (commit_message : message_arg)
    (body : Repo -> outcome) (r : Repo) : outcome :=
  match commit_enter commit_only r with
  | Raise e => Failed e r
  | Ok (diff_before, r) =>
      match body r with
      | Failed e r => Failed e r
      | Done r =>
          commit_exit commit_only commit_empty raise_if_empty commit_message
            diff_before r
      end
  end.

End Commit.

End Diff.

(** *** GitCore.worktree

    For the worktree manager the repository is seen through its
    branches and its linked working trees (path to checked-out branch,
    [None] when detached).  The rerouting of the standard streams,
    [git rm -rf] in the fresh tree and [checkout_paths_from_storage]
    act on files only and are left out. *)

Record Workspace : Type := mkWorkspace {
  branches : gset string;
  worktrees : gmap string (option string);
}.

Inductive wexn : Type :=
| FailedMerge (repo : Workspace) (branch_name : string)
    (merge_args : list string)
| GitCommandError
| BodyRaised (msg : pystr).

(** The [commit] argument: [None], [NULL_TREE] or a revision. *)
Inductive commit_arg : Type :=
| CommitNone
| NULL_TREE
| CommitRev (rev : string).

(** [git worktree add --detach path]. *)
Definition worktree_add_detach (path : string) (ws : Workspace)
  : result wexn Workspace :=
  if bool_decide (path ∈ dom (worktrees ws)) then Raise GitCommandError
  else Ok (mkWorkspace (branches ws) (<[path := None]> (worktrees ws))).

(** [git worktree add -b branch_name path [commit]]. *)
Definition worktree_add_branch (branch_name path : string)
    (ws : Workspace) : result wexn Workspace :=
  if bool_decide (path ∈ dom (worktrees ws))
     || bool_decide (branch_name ∈ branches ws)
  then Raise GitCommandError
  else Ok (mkWorkspace ({[branch_name]} ∪ branches ws)
             (<[path := Some branch_name]> (worktrees ws))).

(** [git checkout --orphan branch_name] inside the working tree at
    [path]: the branch is unborn until something is committed on it. *)
Definition checkout_orphan (path branch_name : string) (ws : Workspace)
  : result wexn Workspace :=
  if bool_decide (branch_name ∈ branches ws) then Raise GitCommandError
  else Ok (mkWorkspace (branches ws)
             (<[path := Some branch_name]> (worktrees ws))).

(** [git worktree remove path]. *)
Definition worktree_remove (path : string) (ws : Workspace)
  : result wexn Workspace :=
  if bool_decide (path ∈ dom (worktrees ws)) then
    Ok (mkWorkspace (branches ws) (delete path (worktrees ws)))
  else Raise GitCommandError.

(** [git branch -d branch_name]. *)
Definition branch_delete (branch_name : string) (ws : Workspace)
  : result wexn Workspace :=
  if bool_decide (branch_name ∈ branches ws) then
    Ok (mkWorkspace (branches ws ∖ {[branch_name]}) (worktrees ws))
  else Raise GitCommandError.

Section Worktree.

(** [tempfile.mkdtemp()] and [uuid.uuid4().hex]. *)
Variable mkdtemp : string.
Variable uuid4_hex : string.
(** Whether [git merge branch_name *merge_args] goes through. *)
Variable merge_succeeds : Workspace -> string -> list string -> bool.

Definition str_or (o : option string) (d : string) : string :=
  match o with
  | Some (String _ _ as s) => s
  | _ => d
  end.

Definition git_merge (branch_name : string) (merge_args : list string)
    (ws : Workspace) : result wexn Workspace :=
  if bool_decide (branch_name ∈ branches ws)
     && merge_succeeds ws branch_name merge_args
  then Ok ws
  else Raise (FailedMerge ws branch_name merge_args).

(** [with client.worktree(path, branch_name, commit, merge_args): body]. *)
Definition worktree (path branch_name : option string) (commit : commit_arg)
    (merge_args : list string)
    (body : Workspace -> result wexn Workspace) (ws : Workspace)
  : result wexn Workspace :=
  let delete := bool_decide (path = None) in
  let path := str_or path mkdtemp in
  let branch_name :=
    str_or branch_name ("renku/run/isolation/" +:+ uuid4_hex) in
  (try created :=
     match commit with
     | NULL_TREE =>
         try ws := worktree_add_detach path ws in
         try ws := checkout_orphan path branch_name ws in
         Ok (ws, false)
     | _ =>
         try ws := worktree_add_branch branch_name path ws in
         Ok (ws, true)
     end in
   let new_branch : bool := created.2 in
   try ws := body created.1 in
   try ws := git_merge branch_name merge_args ws in
   if delete then
     try ws := worktree_remove path ws in
     if new_branch then
       (* delete the created temporary branch *)
       branch_delete branch_name ws
     else Ok ws
   else Ok ws)%result.

End Worktree.

End Git.

(** ** renku/core/management/git.py: the clean check and transactions *)

Module GitClean.
Import Git.

(** [GitCore.modified_paths]: the [b_path] of every entry of
    [index.diff(None)]. *)
Definition modified_paths (r : Repo) : list string :=
  elements (dom (diff_worktree r)).

(** [GitCore.dirty_paths]; paths stay relative to the root of the
    working tree, which is also the current directory. *)
Definition dirty_paths (r : Repo) : gset string :=
  list_to_set (untracked_files r ++ modified_paths r).

(** [GitCore.candidate_paths]. *)
Definition candidate_paths (r : Repo) : list string :=
  elements (dom (index r)) ++ untracked_files r.

(** [repo.is_dirty(untracked_files=True)]: [git diff --cached], then
    [git diff], then the untracked files.  Without a commit the index
    is compared with the empty tree. *)
Definition is_dirty (r : Repo) : bool :=
  set_truthy (dom (merge diff_entry (index r) (default ∅ (head_tree r))))
  || set_truthy (dom (diff_worktree r))
  || match untracked_files r with [] => false | _ :: _ => true end.

Section Streams.

(** The rename detection of git, as in [Git.diff_head]. *)
Variable detect_renames :
  gmap string N -> gmap string N -> list (string * string).

(** [os.fstat(getattr(sys, stream).fileno())] as the pair of device and
    inode, [None] when the call raises; [os.stat(path)] likewise,
    [None] for a missing file. *)
Variable sys_fstat : string -> option (Z * Z).
Variable os_stat : string -> option (Z * Z).
(** The status-change time a file written now gets. *)
Variable now : Z.

Definition standard_inos : gmap (Z * Z) string :=
  foldl (fun inos stream =>
           match sys_fstat stream with
           | Some key => <[key := stream]> inos
           | None => inos
           end) ∅ ["stdin"; "stdout"; "stderr"].

(** The generator [stream_inos] of [_mapped_std_streams]. *)
Definition stream_inos (paths : list string) : list (string * string) :=
  omap (fun path =>
          match os_stat path with
          | Some key =>
              match standard_inos !! key with
              | Some stream => Some (stream, path)
              | None => None
              end
          | None => None
          end) paths.

(** [dict(pairs)]: a later pair replaces an earlier one with its key. *)
Definition dict_of (pairs : list (string * string)) : gmap string string :=
  foldl (fun d kv => <[kv.1 := kv.2]> d) ∅ pairs.

(** [_mapped_std_streams(lookup_paths)]. *)
Definition _mapped_std_streams (lookup_paths : list string)
  : gmap string string :=
  if bool_decide (standard_inos = ∅) then ∅
  else dict_of (stream_inos lookup_paths).

(** [_clean_streams(repo, mapped_streams)]: a mapped output stream is
    removed when the index does not have it and is otherwise rewritten
    from the index. *)
Definition clean_stream (mapped_streams : gmap string string)
    (r : Repo) (stream_name : string) : Repo :=
  match mapped_streams !! stream_name with
  | None | Some EmptyString => r
  | Some stream =>
      match index r !! stream with
      | None => mkRepo (log r) (index r) (delete stream (working_tree r))
      | Some blob =>
          mkRepo (log r) (index r)
            (<[stream := mkFile blob now]> (working_tree r))
      end
  end.

Definition _clean_streams (r : Repo) (mapped_streams : gmap string string)
  : Repo :=
  foldl (clean_stream mapped_streams) r ["stdout"; "stderr"].

(** [GitCore.ensure_clean]. *)
Definition ensure_clean (ignore_std_streams : bool) (r : Repo) : outcome :=
  let dirty_paths := dirty_paths r in
  let mapped_streams := _mapped_std_streams (elements dirty_paths) in
  if ignore_std_streams then
    if set_truthy
         (dirty_paths ∖ list_to_set (snd <$> map_to_list mapped_streams))
    then
      let r := _clean_streams r mapped_streams in
      Failed (DirtyRepository r) r
    else Done r
  else if is_dirty r then
    let r := _clean_streams r mapped_streams in
    Failed (DirtyRepository r) r
  else Done r.

Variable STARTED_AT : Z.
Variable version version_url : pystr.
Variable argv0 : pystr.
Variable argv_rest : list pystr.
Variable remove_credentials : pystr -> pystr.

(** [with client.transaction(...): body]. *)
Definition transaction (clean commit commit_empty : bool)
    (commit_message : message_arg) (commit_only : commit_only_arg)
    (ignore_std_streams raise_if_empty up_to_date : bool)
    (body : Repo -> outcome) (r : Repo) : outcome :=
  match (if clean then ensure_clean ignore_std_streams r else Done r) with
  | Failed e r => Failed e r
  | Done r =>
      if commit then
        Git.commit detect_renames STARTED_AT version version_url argv0
          argv_rest remove_credentials commit_only commit_empty
          raise_if_empty commit_message body r
      else body r
  end.

End Streams.

End GitClean.

(** ** renku/core/models/provenance/agents.py: short names and parsing *)

Module AgentsMore.
Import Agents.

Inductive exn : Type :=
| IndexError
| ParameterError (msg : pystr)
| ValueError (msg : string).

(** [s[0]] as a string. *)
Definition first_char (s : pystr) : result exn pystr :=
  match s with
  | c :: _ => Ok [c]
  | [] => Raise IndexError
  end.

(** A list comprehension whose body can raise. *)
Fixpoint map_result {A B : Type} (f : A -> result exn B) (l : list A)
  : result exn (list B) :=
  match l with
  | [] => Ok []
  | x :: l' =>
      (try y := f x in
       try ys := map_result f l' in
       Ok (y :: ys))%result
  end.

(** [Person.short_name]. *)
Definition short_name (self : Person) : result exn pystr :=
  let names := split_ws (name self) in
  if (length names =? 1)%nat then Ok (name self)
  else
    (try last_name :=
       match last names with
       | Some n => Ok n
       | None => Raise IndexError
       end in
     try initials := map_result first_char names in
     let initials := removelast initials in
     Ok (join (lit ".") initials ++ lit "." ++ last_name))%result.

(** [s.rstrip()]. *)
Definition rstrip (s : pystr) : pystr := rev (drop_while isspace (rev s)).

(** The classes [[^<]] and [[^@<>]]. *)
Definition not_lt (c : N) : bool := negb (c =? 60).
Definition addr_char (c : N) : bool :=
  negb ((c =? 64) || (c =? 60) || (c =? 62)).

(** One round of the group [([^@<>]+@[^@<>]+\.[^@<>]+)] at the start of
    [s], and the text it matches: the longest run of address
    characters, an [@], and the longest run of address characters,
    which must hold a dot that is neither its first nor its last
    character.  A second round cannot begin where the first one ends. *)
Definition match_address (s : pystr) : option pystr :=
  match take_while addr_char s, drop_while addr_char s with
  | c :: local, c' :: rest =>
      let domain := take_while addr_char rest in
      if (c' =? 64) && inner_dot domain
      then Some ((c :: local) ++ [64] ++ domain)
      else None
  | _, _ => None
  end.

(** The groups of [re.search(regex_pattern, string)], where the pattern
    is a first group of any characters but [<], repeated at will, an
    optional [<], the address group repeated at will, and an optional
    [>].  The pattern matches at the start of every string; the first
    group takes everything before the first [<]. *)
Definition name_email_groups (string : pystr) : pystr * option pystr :=
  let name := take_while not_lt string in
  let rest :=
    match drop_while not_lt string with
    | _ :: rest => rest
    | [] => []
    end in
  (name, match_address rest).

Definition quote : pystr := [34].

(** [Person.from_string]. *)
Definition from_string (string : pystr) : result exn Person :=
  let groups := name_email_groups string in
  let name := rstrip groups.1 in
  let email := groups.2 in
  if negb (str_truthy name) then
    Raise (ParameterError
             (lit "Name is invalid: A valid format is " ++ quote
              ++ lit "Name <email>" ++ quote))
  else if negb (opt_truthy email) then
    Raise (ParameterError
             (lit "Email is invalid: A valid format is " ++ quote
              ++ lit "Name <email>" ++ quote))
  else
    match Person_init name email None None None None with
    | Ok p => Ok p
    | Raise (Agents.ValueError msg) => Raise (ValueError msg)
    end.

End AgentsMore.

(** ** renku/core/commands/dataset.py: file_unlink *)

Module DatasetMore.
Import Dataset.

Section Unlink.

Context {Path Commit Tree : Type}.

(** [client.load_dataset], [DatasetFile.full_path], [Path.relative_to],
    [PurePath.match], [Dataset.unlink_file] and [Dataset.to_yaml] are
    not part of this file. *)
Variable load_dataset :
  @Client Path Commit Tree -> pystr -> option (@DatasetT Path Commit).
Variable full_path : @Client Path Commit Tree -> @DatasetFile Path -> Path.
Variable relative_to : Path -> Path -> Path.
Variable path_match : Path -> pystr -> bool.
Variable unlink_file :
  @DatasetT Path Commit -> Path -> result exn (@DatasetT Path Commit).
Variable to_yaml :
  @DatasetT Path Commit -> @Client Path Commit Tree ->
  @Client Path Commit Tree.

(** The loop [for item in records: dataset.unlink_file(item.path)]. *)
Fixpoint unlink_files (dataset : @DatasetT Path Commit)
    (records : list (@DatasetFile Path))
  : result exn (@DatasetT Path Commit) :=
  match records with
  | [] => Ok dataset
  | item :: records' =>
      (try dataset := unlink_file dataset (df_path item) in
       unlink_files dataset records')%result
  end.

(** [file_unlink] is a context manager: [body] is the code that runs at
    its [yield], with the records it yields. *)
Definition file_unlink (name : pystr) (include exclude : option (list pystr))
    (body : list (@DatasetFile Path) -> @cmd Path Commit Tree unit)
  : @cmd Path Commit Tree unit :=
  fun client =>
  match load_dataset client name with
  | None => (Raise (ParameterError (lit "Dataset does not exist.")), client)
  | Some dataset =>
      let records :=
        _filter full_path relative_to path_match client [ds_name dataset]
          CreatorsNone include exclude in
      if negb (seq_truthy records) then
        (Raise (ParameterError (lit "No records found.")), client)
      else
        match body records client with
        | (Raise e, client') => (Raise e, client')
        | (Ok _, client') =>
            match unlink_files dataset records with
            | Raise e => (Raise e, client')
            | Ok dataset => (Ok tt, to_yaml dataset client')
            end
        end
  end.

End Unlink.

End DatasetMore.

(** ** renku/cli/init.py *)

Module Init.

(** [s.rstrip(os.path.sep)], the separator being the slash. *)
Definition rstrip_sep (s : pystr) : pystr :=
  rev (Agents.drop_while (fun c => c =? 47) (rev s)).

(** [validate_name]: [directory] is [ctx.params['directory']]. *)
Definition validate_name (directory : pystr) (value : option pystr) : pystr :=
  if negb (opt_truthy value) then Git.basename (rstrip_sep directory)
  else default [] value.

End Init.

(** ** renku/core/commands/providers/dataverse.py: the deposition *)

Module Dataverse.

Inductive exn : Type :=
| ValueError (msg : pystr)
| OperationError (msg : pystr)
| KeyError (key : pystr)
| JSONDecodeError
| FileNotFoundError
| OtherError (msg : pystr).

(** The entries of a response body the code reads: [['message']] and
    [['data']['persistentId']]. *)
Record Json : Type := mkJson {
  message : option pystr;
  persistentId : option pystr;
}.

(** A response: its status and its body, if the body is JSON. *)
Record Response : Type := mkResponse {
  status_code : Z;
  json : option Json;
}.

(** [str(n)] for an integer. *)
Definition str_int (n : Z) : pystr :=
  lit (DecimalString.NilZero.string_of_int (Z.to_int n)).

(** [response.json()['message']] and
    [response.json()['data']['persistentId']]. *)
Definition json_message (response : Response) : result exn pystr :=
  match json response with
  | None => Raise JSONDecodeError
  | Some j =>
      match message j with
      | None => Raise (KeyError (lit "message"))
      | Some m => Ok m
      end
  end.

Definition json_persistentId (response : Response) : result exn pystr :=
  match json response with
  | None => Raise JSONDecodeError
  | Some j =>
      match persistentId j with
      | None => Raise (KeyError (lit "persistentId"))
      | Some pid => Ok pid
      end
  end.

(** *** DataverseRecordSerializer._convert_json_property_name *)

(** The classes [[A-Z]], [[a-z]] and [[a-z0-9]]. *)
Definition is_upper (c : N) : bool := in_range 65 90 c.
Definition is_lower (c : N) : bool := in_range 97 122 c.
Definition is_lower_digit (c : N) : bool := is_lower c || in_range 48 57 c.

(** [s.strip('@')]. *)
Definition strip_at (s : pystr) : pystr :=
  rev (Agents.drop_while (fun c => c =? 64)
         (rev (Agents.drop_while (fun c => c =? 64) s))).

(** [re.sub('(.)([A-Z][a-z]+)', r'\1_\2', s)].  The scan goes from left
    to right: where a character other than the newline is followed by
    a capital and at least one small letter, the underscore is put
    after the character, the capital and all the small letters that
    follow it are copied, and the scan goes on behind them; otherwise
    the character is copied and the scan moves by one.  [fuel] bounds
    the number of steps; the length of the text is enough. *)
Fixpoint sub_word_aux (fuel : nat) (s : pystr) : pystr :=
  match fuel with
  | O => s
  | S fuel =>
      match s with
      | c :: ((u :: l :: rest) as s') =>
          if negb (c =? 10) && is_upper u && is_lower l then
            c :: 95 :: u :: l :: Agents.take_while is_lower rest
            ++ sub_word_aux fuel (Agents.drop_while is_lower rest)
          else c :: sub_word_aux fuel s'
      | _ => s
      end
  end.
Definition sub_word (s : pystr) : pystr := sub_word_aux (length s) s.

(** [re.sub('([a-z0-9])([A-Z])', r'\1_\2', s)]. *)
Fixpoint sub_hump (s : pystr) : pystr :=
  match s with
  | c :: s' =>
      match s' with
      | u :: rest =>
          if is_lower_digit c && is_upper u then c :: 95 :: u :: sub_hump rest
          else c :: sub_hump s'
      | [] => s
      end
  | [] => []
  end.

Definition _convert_json_property_name (property_name : pystr) : pystr :=
  let property_name := strip_at property_name in
  let property_name := sub_word property_name in
  lower (sub_hump property_name).

Section Deposition.

(** The metadata document and the paths of files stay opaque. *)
Context {Metadata FilePath : Type}.

(** The POST requests of the deposition, by what determines their URL,
    payload and key header. *)
Inductive Request : Type :=
| PostDataset (dataverse_name : pystr) (metadata : Metadata)
    (key : option pystr)
| PostFile (dataset_pid : pystr) (filepath : FilePath) (key : option pystr)
| PostPublish (dataset_pid : pystr) (key : option pystr).

(** The server: its answer to a request, given the requests sent
    before; and whether [open(filepath, 'rb')] finds the file. *)
Variable requests_post : list Request -> Request -> Response.
Variable readable : FilePath -> bool.

Record _DataverseDeposition : Type := mkDeposition {
  access_token : option pystr;
  dataset_pid : option pystr;
}.

(** A method runs on the deposition and the requests sent so far. *)
Definition method (A : Type) : Type :=
  _DataverseDeposition -> list Request ->
  result exn A * _DataverseDeposition * list Request.

Definition post (request : Request) (sent : list Request)
  : Response * list Request :=
  (requests_post sent request, sent ++ [request]).

Definition create_dataset (dataverse_name : pystr) (metadata : Metadata)
  : method Response :=
  fun self sent =>
  let '(response, sent) :=
    post (PostDataset dataverse_name metadata (access_token self)) sent in
  if negb (status_code response =? 201)%Z then
    match json_message response with
    | Raise e => (Raise e, self, sent)
    | Ok error_msg =>
        (Raise (OperationError
           (lit "ERROR: HTTP " ++ str_int (status_code response)
            ++ lit " - Cannot create dataset. Message: " ++ error_msg)),
         self, sent)
    end
  else
    match json_persistentId response with
    | Raise e => (Raise e, self, sent)
    | Ok pid =>
        (Ok response, mkDeposition (access_token self) (Some pid), sent)
    end.

Definition upload_file (filepath : FilePath) : method Response :=
  fun self sent =>
  match dataset_pid self with
  | None => (Raise (ValueError (lit "Dataset not created.")), self, sent)
  | Some pid =>
      if negb (readable filepath) then (Raise FileNotFoundError, self, sent)
      else
        let '(response, sent) :=
          post (PostFile pid filepath (access_token self)) sent in
        (Ok response, self, sent)
  end.

Definition publish_dataset : method Response :=
  fun self sent =>
  match dataset_pid self with
  | None => (Raise (ValueError (lit "Dataset not created.")), self, sent)
  | Some pid =>
      let '(response, sent) :=
        post (PostPublish pid (access_token self)) sent in
      (Ok response, self, sent)
  end.

(** The loop of [export] over the files of the dataset. *)
Fixpoint upload_files (files : list FilePath) : method unit :=
  fun self sent =>
  match files with
  | [] => (Ok tt, self, sent)
  | file_ :: files' =>
      match upload_file file_ self sent with
      | (Raise e, self, sent) => (Raise e, self, sent)
      | (Ok _, self, sent) => upload_files files' self sent
      end
  end.

(** [DataverseExporter.export]: [files] are the [full_path] of the files
    of the dataset, [_get_dataset_metadata] the outcome of filling the
    metadata templates. *)
Definition export (self_access_token : option pystr)
    (_get_dataset_metadata : result exn Metadata) (files : list FilePath)
    (publish : bool) (sent : list Request)
  : result exn pystr * list Request :=
  let deposition := mkDeposition self_access_token None in
  match _get_dataset_metadata with
  | Raise e => (Raise e, sent)
  | Ok metadata =>
      match create_dataset (lit "SDSC-Test") metadata deposition sent with
      | (Raise e, _, sent) => (Raise e, sent)
      | (Ok response, deposition, sent) =>
          match json_persistentId response with
          | Raise e => (Raise e, sent)
          | Ok dataset_pid =>
              match upload_files files deposition sent with
              | (Raise e, _, sent) => (Raise e, sent)
              | (Ok _, deposition, sent) =>
                  if publish then
                    match publish_dataset deposition sent with
                    | (Raise e, _, sent) => (Raise e, sent)
                    | (Ok _, _, sent) => (Ok dataset_pid, sent)
                    end
                  else (Ok dataset_pid, sent)
              end
          end
      end
  end.

End Deposition.

End Dataverse.

(** * Properties *)

(** ** Text *)

Module TextFacts.

Lemma join_empty_concat (parts : list pystr) : join [] parts = concat parts.
Proof.
  induction parts as [|p ps IH]; [reflexivity|].
  destruct ps as [|q ps]; simpl in *.
  - by rewrite app_nil_r.
  - by rewrite IH.
Qed.

Lemma concat_split_ws_aux (cur s : pystr) :
  concat (split_ws_aux cur s)
  = rev cur ++ List.filter (fun c => negb (isspace c)) s.
Proof.
  revert cur. induction s as [|c s IH]; intros cur; simpl.
  - destruct cur; simpl; by rewrite ?app_nil_r.
  - destruct (isspace c); simpl.
    + destruct cur as [|d cur]; simpl; rewrite IH; done.
    + rewrite IH. simpl. by rewrite <- app_assoc.
Qed.

(** Joining the fields of [split()] with nothing in between removes the
    white space. *)
Lemma join_split_ws (s : pystr) :
  join [] (split_ws s) = List.filter (fun c => negb (isspace c)) s.
Proof. by rewrite join_empty_concat; unfold split_ws; rewrite concat_split_ws_aux. Qed.

Lemma isspace_bounds (c : N) : isspace c = true -> c <= 32 \/ 133 <= c.
Proof.
  unfold isspace, in_range.
  rewrite !orb_true_iff, !andb_true_iff, !N.leb_le, !N.eqb_eq. lia.
Qed.

Lemma isspace_lower (c : N) : isspace (lower_char c) = isspace c.
Proof.
  unfold lower_char. destruct (in_range 65 90 c) eqn:E; [|done].
  unfold in_range in E. apply andb_true_iff in E as [H1 H2].
  apply N.leb_le in H1, H2.
  destruct (isspace (c + 32)) eqn:E1.
  { apply isspace_bounds in E1. lia. }
  destruct (isspace c) eqn:E2; [|done].
  apply isspace_bounds in E2. lia.
Qed.

Lemma filter_space_lower (s : pystr) :
  List.filter (fun c => negb (isspace c)) (lower s)
  = lower (List.filter (fun c => negb (isspace c)) s).
Proof.
  unfold lower. induction s as [|c s IH]; [done|].
  rewrite fmap_cons. cbn [List.filter]. rewrite isspace_lower, IH.
  by destruct (isspace c).
Qed.

Lemma filter_filter_andb {A} (p q : A -> bool) (l : list A) :
  List.filter p (List.filter q l) = List.filter (fun x => q x && p x) l.
Proof.
  induction l as [|x l IH]; [done|]. simpl.
  destruct (q x); simpl; [destruct (p x)|]; by rewrite IH.
Qed.

Lemma filter_ext_bool {A} (p q : A -> bool) (l : list A) :
  (forall x, p x = q x) -> List.filter p l = List.filter q l.
Proof. intros H. induction l as [|x l IH]; simpl; by rewrite ?H, ?IH. Qed.

End TextFacts.

(** ** Person *)

Module AgentsSpec.
Import Agents TextFacts.

(** The token [default_id] builds is the one the specification
    describes. *)
Lemma default_id_token (name : pystr) :
  join [] (split_ws (lower
    (List.filter (fun x => char_in x printable)
       (translate_delete punctuation name))))
  = spec_name_token name.
Proof.
  rewrite join_split_ws, filter_space_lower. unfold spec_name_token.
  f_equal. unfold translate_delete. rewrite !filter_filter_andb.
  apply filter_ext_bool. intros x.
  destruct (char_in x punctuation), (char_in x printable); done.
Qed.

Lemma default_id_spec (email : option pystr) (name : pystr) :
  default_id email name =
  match email with
  | Some ((_ :: _) as e) => lit "mailto:" ++ e
  | _ => lit "_:" ++ spec_name_token name
  end.
Proof.
  unfold default_id.
  destruct email as [[|c e]|]; simpl opt_truthy; cbv iota;
    rewrite ?default_id_token; reflexivity.
Qed.

(** C9.  A [Person] built without an explicit identifier gets the
    identifier [mailto:<email>] when it has a (non-empty) email, and
    otherwise [_:] followed by the name with punctuation and
    non-printable characters removed, lower-cased and stripped of
    white space; a [Person] built without a label gets its name as
    label. *)
Theorem person_default_id_and_label
    (name : pystr) (email label affiliation alternate_name : option pystr)
    (p : Person) :
  Person_init name email label affiliation alternate_name None = Ok p ->
  _id p = match email with
          | Some ((_ :: _) as e) => lit "mailto:" ++ e
          | _ => lit "_:" ++ spec_name_token name
          end
  /\ (label = None -> Agents.label p = name).
Proof.
  unfold Person_init, bind. simpl.
  destruct (check_email email email) as [[]|e]; [|discriminate].
  intros [= <-]. unfold attrs_post_init. simpl.
  split.
  - case_bool_decide; simpl; apply default_id_spec.
  - intros ->. by case_bool_decide.
Qed.

Lemma person_default_id_and_label_witness :
  Person_init (lit "Jane Q. Doe-Smith") None None None None None
  = Ok (mkPerson (lit "Jane Q. Doe-Smith") None (lit "Jane Q. Doe-Smith")
          None None (lit "_:janeqdoesmith"))
  /\ lit "_:janeqdoesmith" = lit "_:" ++ spec_name_token (lit "Jane Q. Doe-Smith")
  /\ (@None pystr = None -> lit "Jane Q. Doe-Smith" = lit "Jane Q. Doe-Smith").
Proof.
  split; [vm_compute; reflexivity|].
  apply (person_default_id_and_label (lit "Jane Q. Doe-Smith") None None
           None None
           (mkPerson (lit "Jane Q. Doe-Smith") None (lit "Jane Q. Doe-Smith")
              None None (lit "_:janeqdoesmith"))).
  vm_compute; reflexivity.
Defined.

(** With an email the identifier is the [mailto:] address. *)
Example person_with_email :
  _id <$> (match Person_init (lit "Jane Doe") (Some (lit "jane@example.com"))
                   None None None None with
           | Ok p => Some p | Raise _ => None end)
  = Some (lit "mailto:jane@example.com").
Proof. vm_compute. reflexivity. Qed.

End AgentsSpec.

(** ** Dataset commands *)

Module DatasetSpec.
Import Dataset.

Section Commands.

Context {Path Commit Tree : Type}.

Abbreviation client_t := (@Client Path Commit Tree).
Abbreviation dataset_t := (@DatasetT Path Commit).
Abbreviation file_t := (@DatasetFile Path).
Abbreviation tag_t := (@DatasetTag Commit).
Abbreviation exporter_t := (@Exporter Path Commit).

(** *** add_to_dataset *)

(** C6.  Called without URLs, or with more than one URL together with
    [sources] or a [destination], [add_to_dataset] raises a UsageError
    and leaves the client as it was, whatever the rest of the command
    would do. *)
Theorem add_to_dataset_usage_error
    (add_data : list pystr -> pystr -> AddOptions -> cmd unit)
    (urls : list pystr) (short_name : pystr)
    (opts : @AddOptions Path Commit) (client : client_t) :
  urls = [] \/
  ((sources opts <> [] \/ destination opts <> []) /\ (1 < length urls)%nat) ->
  add_to_dataset add_data urls short_name opts client
  = (Raise (UsageError
       (match urls with
        | [] => lit "No URL is specified"
        | _ :: _ =>
            lit "Cannot add multiple URLs with --source or --destination"
        end)), client).
Proof.
  intros [-> | [Hsd Hlen]]; [reflexivity|].
  unfold add_to_dataset.
  destruct urls as [|u [|u' urls]]; simpl in Hlen; [lia | lia |].
  cbn [length Nat.eqb Nat.ltb Nat.leb].
  replace (seq_truthy (sources opts) || str_truthy (destination opts))
    with true; [reflexivity|].
  destruct Hsd as [H | H].
  - destruct (sources opts); [done | reflexivity].
  - destruct (sources opts), (destination opts); done.
Qed.

(** *** export_dataset *)

Variable load_dataset : client_t -> pystr -> option dataset_t.
Variable provider_known : string -> bool.
Variable head_commit : Tree -> Commit.
Variable with_commit : Commit -> Tree -> Tree.
Variable exporter_export :
  exporter_t -> bool -> option tag_t -> result exn pystr.

(** What the configuration holds after the upload failed with an HTTP
    error [msg]: nothing under the provider's [access_token] when the
    error reports [unauthorized], the token that was used otherwise. *)
Definition credential_after (provider : string) (msg : pystr)
    (before after : gmap (string * string) pystr) : Prop :=
  if contains (lit "unauthorized") msg then
    after = delete (provider, config_key_secret) before
  else
    (exists token,
        after !! (provider, config_key_secret) = Some token)
    /\ (is_Some (before !! (provider, config_key_secret)) -> after = before).

Lemma export_block_http_error (id : pystr) (provider : string) (publish : bool)
    (selected_tag : option tag_t)
    (handle_access_token_fn : option (exporter_t -> option pystr))
    (client client' : client_t) (msg : pystr) :
  export_block load_dataset exporter_export id provider publish selected_tag
    handle_access_token_fn client = (Raise (HTTPError msg), client') ->
  (exists exporter,
      exporter_export exporter publish selected_tag = Raise (HTTPError msg))
  /\ credential_after provider msg (config client) (config client')
  /\ tree client' = tree client.
Proof.
  unfold export_block, credential_after.
  destruct (load_dataset client id) as [ds|]; [|discriminate].
  unfold get_value.
  destruct (config client !! (provider, config_key_secret)) as [tok|] eqn:Hc.
  - destruct (exporter_export _ publish selected_tag) as [d|e] eqn:He;
      [discriminate|].
    destruct e; try discriminate. simpl exn_str.
    destruct (contains (lit "unauthorized") msg0) eqn:Hu;
      intros [= <- <-]; rewrite Hu; simpl;
      (split; [eauto|split; [|done]]).
    + done.
    + split; [eauto|done].
  - destruct (match handle_access_token_fn with
              | Some fn => fn _ | None => None end) as [[|c tok]|];
      try discriminate.
    destruct (exporter_export _ publish selected_tag) as [d|e] eqn:He;
      [discriminate|].
    destruct e; try discriminate. simpl exn_str.
    destruct (contains (lit "unauthorized") msg0) eqn:Hu;
      intros [= <- <-]; rewrite Hu; simpl;
      (split; [eauto|split; [|done]]).
    + by rewrite delete_insert_eq.
    + split; [rewrite lookup_insert_eq; eauto|].
      by intros [? [=]].
Qed.

(** An HTTP error that [export_dataset] fails with is the exporter's
    own, and the configuration is then as [credential_after] says. *)
Lemma export_http_error_origin
    (id : pystr) (provider : string) (publish : bool) (tag : option pystr)
    (handle_access_token_fn : option (exporter_t -> option pystr))
    (handle_tag_selection_fn : option (list tag_t -> option tag_t))
    (client client' : client_t) (msg : pystr) :
  export_dataset load_dataset provider_known head_commit with_commit
    exporter_export id provider publish tag handle_access_token_fn
    handle_tag_selection_fn client = (Raise (HTTPError msg), client') ->
  (exists exporter selected_tag,
      exporter_export exporter publish selected_tag = Raise (HTTPError msg))
  /\ credential_after provider msg (config client) (config client')
  /\ tree client' = tree client.
Proof.
  unfold export_dataset.
  destruct (load_dataset client id) as [ds|]; [|discriminate].
  destruct (provider_known provider); [|discriminate]. cbn [negb].
  match goal with
  | |- match ?sel with Ok _ => _ | Raise _ => _ end = _ -> _ =>
      assert (Hsel : forall e, sel = Raise e -> exists m, e = ValueError m)
        by (intros e; repeat case_match; intros [= <-]; eauto);
      destruct sel as [[selected_tag selected_commit]|e];
        [|destruct (Hsel e eq_refl) as [m ->]; discriminate]
  end.
  destruct (export_block _ _ _ _ _ _ _ _) as [r inner'] eqn:Hb.
  destruct r as [d|e]; [discriminate|].
  intros [= -> <-].
  apply export_block_http_error in Hb as (Hex & Hcred & Htree).
  split; [destruct Hex; eauto|]. split; [exact Hcred|reflexivity].
Qed.

(** The block of the export run with two exporters that differ in the
    upload only: where the one returns, leaving [client_ok], and the
    other raises the HTTP error [msg], the block raises that error, and
    leaves [client_ok] without the token when the error reports
    [unauthorized] and [client_ok] itself otherwise. *)
Lemma export_block_upload_fails
    (exporter_ok : exporter_t -> bool -> option tag_t -> result exn pystr)
    (id : pystr) (provider : string) (publish : bool)
    (selected_tag : option tag_t)
    (handle_access_token_fn : option (exporter_t -> option pystr))
    (client client_ok : client_t) (destination msg : pystr) :
  export_block load_dataset exporter_ok id provider publish selected_tag
    handle_access_token_fn client = (Ok destination, client_ok) ->
  (forall exporter,
      exporter_ok exporter publish selected_tag = Ok destination ->
      exporter_export exporter publish selected_tag = Raise (HTTPError msg)) ->
  is_Some (config client_ok !! (provider, config_key_secret))
  /\ export_block load_dataset exporter_export id provider publish
       selected_tag handle_access_token_fn client
     = (Raise (HTTPError msg),
        if contains (lit "unauthorized") msg
        then remove_value client_ok provider config_key_secret
        else client_ok).
Proof.
  unfold export_block. intros Hok Hfail.
  destruct (load_dataset client id) as [ds|]; [|discriminate].
  unfold get_value in *.
  destruct (config client !! (provider, config_key_secret)) as [tok|] eqn:Hc.
  - destruct (exporter_ok _ publish selected_tag) as [d|e] eqn:He.
    2:{ destruct e; try discriminate.
        by destruct (contains _ _). }
    injection Hok as -> <-. rewrite (Hfail _ He). simpl exn_str.
    split; [by rewrite Hc|by destruct (contains _ msg)].
  - destruct (match handle_access_token_fn with
              | Some fn => fn _ | None => None end) as [[|c tok]|];
      try discriminate.
    destruct (exporter_ok _ publish selected_tag) as [d|e] eqn:He.
    2:{ destruct e; try discriminate.
        by destruct (contains _ _). }
    injection Hok as -> <-. rewrite (Hfail _ He). simpl exn_str.
    split; [|by destruct (contains _ msg)].
    simpl. rewrite lookup_insert_eq. eauto.
Qed.

(** C7.  Take a run of [export_dataset] that gets to the upload: with
    an exporter [exporter_ok] whose upload returns, the command returns
    and leaves the client [client_ok], which holds the access token the
    upload was made with.  When instead the upload fails with an HTTP
    error (the exporter raises [HTTPError msg] on every upload that
    [exporter_ok] answers), [export_dataset] raises that same error; if
    its text contains [unauthorized] the client is left as [client_ok]
    without the provider's [access_token], which is then missing from
    the configuration; for any other HTTP error the client is left as
    [client_ok], the token still in the configuration. *)
Theorem export_unauthorized_purges_token
    (exporter_ok : exporter_t -> bool -> option tag_t -> result exn pystr)
    (id : pystr) (provider : string) (publish : bool) (tag : option pystr)
    (handle_access_token_fn : option (exporter_t -> option pystr))
    (handle_tag_selection_fn : option (list tag_t -> option tag_t))
    (client client_ok : client_t) (result msg : pystr) :
  export_dataset load_dataset provider_known head_commit with_commit
    exporter_ok id provider publish tag handle_access_token_fn
    handle_tag_selection_fn client = (Ok result, client_ok) ->
  (forall exporter selected_tag destination,
      exporter_ok exporter publish selected_tag = Ok destination ->
      exporter_export exporter publish selected_tag = Raise (HTTPError msg)) ->
  exists token client',
    config client_ok !! (provider, config_key_secret) = Some token
    /\ export_dataset load_dataset provider_known head_commit with_commit
         exporter_export id provider publish tag handle_access_token_fn
         handle_tag_selection_fn client = (Raise (HTTPError msg), client')
    /\ client' = (if contains (lit "unauthorized") msg
                  then remove_value client_ok provider config_key_secret
                  else client_ok)
    /\ config client' !! (provider, config_key_secret)
       = (if contains (lit "unauthorized") msg then None else Some token).
Proof.
  unfold export_dataset. intros Hok Hfail.
  destruct (load_dataset client id) as [ds|]; [|discriminate].
  destruct (provider_known provider); [|discriminate]. cbn [negb] in *.
  match type of Hok with
  | match ?sel with Ok _ => _ | Raise _ => _ end = _ =>
      destruct sel as [[selected_tag selected_commit]|e]; [|discriminate]
  end.
  destruct (export_block load_dataset exporter_ok _ _ _ _ _ _)
    as [r inner_ok] eqn:Hb.
  destruct r as [destination|e]; [|discriminate].
  injection Hok as _ <-.
  destruct (export_block_upload_fails _ _ _ _ _ _ _ _ _ msg Hb) as [[token Ht] Hrun].
  { intros exporter He. by eapply Hfail. }
  rewrite Hrun. exists token. eexists. split; [exact Ht|].
  split; [reflexivity|]. split.
  - by destruct (contains _ msg).
  - destruct (contains _ msg); simpl; [apply lookup_delete_eq|exact Ht].
Qed.

End Commands.

(** A run of the export: the stored token is rejected and removed. *)
Definition demo_client : @Client string nat unit :=
  mkClient {[ ("zenodo", "access_token") := lit "stale" ]} [] "/repo" tt.
Definition demo_dataset : @DatasetT string nat :=
  mkDataset (lit "ds") (lit "ds") None [] [] [].

Lemma export_unauthorized_purges_token_witness :
  export_dataset (fun _ _ => Some demo_dataset) (fun _ => true)
    (fun _ => 0%nat) (fun _ t => t)
    (fun _ _ _ => Ok (lit "https://zenodo.org/deposit/1"))
    (lit "ds") "zenodo" false None None None demo_client
  = (Ok (lit "Exported to: https://zenodo.org/deposit/1"), demo_client)
  /\ exists token client',
       config demo_client !! ("zenodo", config_key_secret) = Some token
       /\ export_dataset (fun _ _ => Some demo_dataset) (fun _ => true)
            (fun _ => 0%nat) (fun _ t => t)
            (fun _ _ _ => Raise (HTTPError (lit "401 unauthorized")))
            (lit "ds") "zenodo" false None None None demo_client
          = (Raise (HTTPError (lit "401 unauthorized")), client')
       /\ client' = (if contains (lit "unauthorized") (lit "401 unauthorized")
                     then remove_value demo_client "zenodo" config_key_secret
                     else demo_client)
       /\ config client' !! ("zenodo", config_key_secret)
          = (if contains (lit "unauthorized") (lit "401 unauthorized")
             then None else Some token).
Proof.
  assert (Hrun :
    export_dataset (fun _ _ => Some demo_dataset) (fun _ => true)
      (fun _ => 0%nat) (fun _ t => t)
      (fun _ _ _ => Ok (lit "https://zenodo.org/deposit/1"))
      (lit "ds") "zenodo" false None None None demo_client
    = (Ok (lit "Exported to: https://zenodo.org/deposit/1"), demo_client)).
  { unfold export_dataset, export_block, demo_client, get_value. simpl.
    by rewrite lookup_singleton_eq. }
  split; [exact Hrun|].
  apply (export_unauthorized_purges_token (fun _ _ => Some demo_dataset)
           (fun _ => true) (fun _ => 0%nat) (fun _ t => t)
           (fun _ _ _ => Raise (HTTPError (lit "401 unauthorized")))
           (fun _ _ _ => Ok (lit "https://zenodo.org/deposit/1"))
           (lit "ds") "zenodo" false None None None demo_client demo_client
           _ (lit "401 unauthorized") Hrun).
  intros exporter selected_tag destination _. reflexivity.
Defined.

Lemma add_to_dataset_usage_error_witness :
  ((lit "a" :: lit "b" :: nil) = [] \/
   ((sources (mkAddOptions (Path:=string) (Commit:=nat) false false false
               [lit "s"] [] None None false false) <> []
     \/ destination (mkAddOptions (Path:=string) (Commit:=nat) false false
                       false [lit "s"] [] None None false false) <> [])
    /\ (1 < length (lit "a" :: lit "b" :: nil))%nat))
  /\ add_to_dataset (Tree:=unit) (fun _ _ _ c => (Ok tt, c))
       [lit "a"; lit "b"] (lit "ds")
       (mkAddOptions false false false [lit "s"] [] None None false false)
       demo_client
     = (Raise (UsageError
          (lit "Cannot add multiple URLs with --source or --destination")),
        demo_client).
Proof.
  assert (H : (lit "a" :: lit "b" :: nil) = [] \/
   ((sources (mkAddOptions (Path:=string) (Commit:=nat) false false false
               [lit "s"] [] None None false false) <> []
     \/ destination (mkAddOptions (Path:=string) (Commit:=nat) false false
                       false [lit "s"] [] None None false false) <> [])
    /\ (1 < length (lit "a" :: lit "b" :: nil))%nat)).
  { right. split; [left; discriminate | simpl; lia]. }
  split; [exact H|].
  exact (add_to_dataset_usage_error (fun _ _ _ c => (Ok tt, c))
           [lit "a"; lit "b"] (lit "ds") _ demo_client H).
Defined.

(** *** import_dataset: the tag made from the version *)

(** C8.  The version [1.0/rc1] of an imported record is turned into the
    tag name [1.0/rc1], which is outside the tag alphabet: the class
    [.-_] of the substitution is a range that lets the slash (and the
    other characters from the dot to the underscore) through. *)
Theorem import_tag_name_outside_alphabet :
  version_tag_name (lit "1.0/rc1") = lit "1.0/rc1"
  /\ valid_tag_name (version_tag_name (lit "1.0/rc1")) = false.
Proof. split; vm_compute; reflexivity. Qed.

(** The hyphen, which the alphabet allows, is replaced. *)
Example import_tag_name_hyphen :
  version_tag_name (lit "1.0-beta") = lit "1.0_beta".
Proof. vm_compute. reflexivity. Qed.

(** *** _include_exclude and _filter *)

Section Filter.

Context {Path Commit Tree : Type}.
Variable full_path : @Client Path Commit Tree -> @DatasetFile Path -> Path.
Variable relative_to : Path -> Path -> Path.
Variable path_match : Path -> pystr -> bool.

(** The path [_filter] matches the patterns against. *)
Definition rel_path (client : @Client Path Commit Tree)
    (f : @DatasetFile Path) : Path :=
  relative_to (full_path client f) (client_path client).

(** Some exclude pattern matches the path. *)
Definition excluded (path : Path) (exclude : option (list pystr)) : Prop :=
  exists pats pat,
    exclude = Some pats /\ pat ∈ pats /\ path_match path pat = true.

(** The record of [f] once [_filter] has set its [dataset]. *)
Definition tagged (d : @DatasetT Path Commit) (f : @DatasetFile Path)
  : @DatasetFile Path :=
  mkFile (df_path f) (df_url f) (df_added f) (df_creator f)
    (Some (ds_name d)).

(** The dataset is one of the named ones (all are, without names). *)
Definition named (names : list pystr) (d : @DatasetT Path Commit) : Prop :=
  names = [] \/ ds_short_name d ∈ names.

(** Every creator asked for is a creator of the file. *)
Definition creators_ok (creators : creators_arg) (f : @DatasetFile Path)
  : Prop :=
  forall c, c ∈ creators_set creators -> c ∈ Agents.name <$> df_creator f.

Lemma existsb_elem_of (pats : list pystr) (path : Path) :
  existsb (path_match path) pats = true
  <-> exists pat, pat ∈ pats /\ path_match path pat = true.
Proof.
  rewrite existsb_exists. split; intros (pat & H1 & H2); exists pat;
    split; try done; by apply list_elem_of_In.
Qed.

Lemma include_exclude_excluded (path : Path)
    (include exclude : option (list pystr)) :
  excluded path exclude -> _include_exclude path_match path include exclude = false.
Proof.
  intros (pats & pat & -> & Hin & Hm). unfold _include_exclude.
  destruct pats as [|p0 pats]; [by apply not_elem_of_nil in Hin|].
  replace (existsb (path_match path) (p0 :: pats)) with true; [done|].
  symmetry. apply existsb_elem_of. eauto.
Qed.

Lemma include_exclude_selected (path : Path)
    (include exclude : option (list pystr)) :
  _include_exclude path_match path include exclude = true ->
  ~ excluded path exclude.
Proof.
  intros H Hex. by rewrite (include_exclude_excluded _ _ _ Hex) in H.
Qed.

Lemma include_exclude_no_include (path : Path)
    (include exclude : option (list pystr)) :
  include = None \/ include = Some [] ->
  ~ excluded path exclude ->
  _include_exclude path_match path include exclude = true.
Proof.
  intros Hinc Hex. unfold _include_exclude.
  destruct exclude as [[|p0 pats]|].
  - by destruct Hinc as [-> | ->].
  - destruct (existsb (path_match path) (p0 :: pats)) eqn:E.
    + exfalso. apply Hex. apply existsb_elem_of in E as (pat & ? & ?).
      by exists (p0 :: pats), pat.
    + by destruct Hinc as [-> | ->].
  - by destruct Hinc as [-> | ->].
Qed.

Lemma insert_by_added_perm (f : @DatasetFile Path) l :
  insert_by_added f l ≡ₚ f :: l.
Proof.
  induction l as [|g l IH]; [done|]. simpl.
  destruct (df_added f <=? df_added g)%Z; [done|].
  by rewrite IH, Permutation_swap.
Qed.

Lemma sorted_by_added_perm (l : list (@DatasetFile Path)) :
  sorted_by_added l ≡ₚ l.
Proof.
  induction l as [|f l IH]; [done|]. simpl.
  by rewrite insert_by_added_perm, IH.
Qed.

Lemma seq_truthy_false {A} (l : list A) : seq_truthy l = false <-> l = [].
Proof. by destruct l. Qed.

Lemma forallb_elem_of {A} (p : A -> bool) (l : list A) :
  forallb p l = true <-> forall x, x ∈ l -> p x = true.
Proof.
  rewrite forallb_forall. split; intros H x Hx; apply H;
    by apply list_elem_of_In.
Qed.

(** The same as a test. *)
Definition creators_okb (creators : creators_arg) (f : @DatasetFile Path)
  : bool :=
  forallb (fun c => bool_decide (c ∈ Agents.name <$> df_creator f))
    (creators_set creators).

Lemma creators_okb_spec creators f :
  creators_okb creators f = true <-> creators_ok creators f.
Proof.
  unfold creators_okb, creators_ok. rewrite forallb_elem_of.
  split; intros H c Hc; specialize (H c Hc);
    [by apply bool_decide_eq_true in H | by apply bool_decide_eq_true].
Qed.

(** What [filter_file] decides. *)
Lemma filter_file_spec client creators include exclude d f :
  filter_file full_path relative_to path_match client
    (creators_set creators) include exclude d f
  = (tagged d f,
     _include_exclude path_match (rel_path client (tagged d f))
       include exclude
     && creators_okb creators (tagged d f)).
Proof.
  unfold filter_file, rel_path, creators_okb. fold (tagged d f). f_equal.
  destruct (seq_truthy (creators_set creators)) eqn:E; [done|].
  apply seq_truthy_false in E. rewrite E. simpl. by rewrite andb_true_r.
Qed.

(** The records [_filter] returns. *)
Lemma elem_of_filter client names creators include exclude f' :
  f' ∈ _filter full_path relative_to path_match client names creators
         include exclude
  <-> exists p d f,
        (p, d) ∈ datasets client /\ named names d /\ f ∈ ds_files d
        /\ f' = tagged d f
        /\ _include_exclude path_match (rel_path client f') include exclude
            = true
        /\ creators_ok creators f'.
Proof.
  unfold _filter. rewrite sorted_by_added_perm.
  rewrite list_elem_of_In, in_flat_map. split.
  - intros ([p d] & Hd & Hf). exists p, d.
    apply list_elem_of_In in Hd.
    destruct (negb (seq_truthy names)
              || bool_decide (ds_short_name d ∈ names)) eqn:En;
      [|by destruct Hf].
    apply list_elem_of_In, list_elem_of_fmap in Hf as ([g b] & -> & Hg).
    apply list_elem_of_In, filter_In in Hg as [Hg Hb].
    apply list_elem_of_In, list_elem_of_fmap in Hg as (f & Hgf & Hf).
    rewrite filter_file_spec in Hgf. simpl in Hb. subst b.
    injection Hgf as -> Hb. symmetry in Hb.
    apply andb_true_iff in Hb as [Hie Hcr].
    apply creators_okb_spec in Hcr.
    exists f. repeat split; try done.
    apply orb_true_iff in En as [En | En].
    + left. apply negb_true_iff in En. by apply seq_truthy_false.
    + right. by apply bool_decide_eq_true in En.
  - intros (p & d & f & Hd & Hn & Hf & -> & Hie & Hcr).
    exists (p, d). split; [by apply list_elem_of_In|].
    replace (negb (seq_truthy names)
             || bool_decide (ds_short_name d ∈ names)) with true.
    2:{ symmetry. apply orb_true_iff. destruct Hn as [-> | Hn];
          [by left | right; by apply bool_decide_eq_true]. }
    apply list_elem_of_In, list_elem_of_fmap.
    exists (tagged d f, true). split; [done|].
    apply list_elem_of_In, filter_In. split; [|done].
    apply list_elem_of_In, list_elem_of_fmap. exists f. split; [|done].
    rewrite filter_file_spec, Hie. simpl.
    apply creators_okb_spec in Hcr. by rewrite Hcr.
Qed.

(** C10, as the code has it.  A file whose path matches an exclude
    pattern is never among the records [_filter] returns, whatever the
    include patterns are; and without include patterns every file of
    the named datasets (of all datasets when no name is given) that no
    exclude pattern matches and that has all the creators asked for is
    among them. *)
Theorem filter_exclude_precedence client names creators include exclude :
  (forall f',
      f' ∈ _filter full_path relative_to path_match client names creators
             include exclude ->
      ~ excluded (rel_path client f') exclude)
  /\ (include = None \/ include = Some [] ->
      forall p d f,
        (p, d) ∈ datasets client -> named names d -> f ∈ ds_files d ->
        ~ excluded (rel_path client (tagged d f)) exclude ->
        creators_ok creators (tagged d f) ->
        tagged d f ∈ _filter full_path relative_to path_match client names
                       creators include exclude).
Proof.
  split.
  - intros f' Hf'. apply elem_of_filter in Hf'
      as (p & d & f & _ & _ & _ & _ & Hie & _).
    by eapply include_exclude_selected.
  - intros Hinc p d f Hd Hn Hf Hex Hcr. apply elem_of_filter.
    exists p, d, f. repeat split; try done.
    by apply include_exclude_no_include.
Qed.

(** C10 as the specification words it: the same, without the condition
    on the creators. *)
Definition exclude_precedence_claim client names creators include exclude
  : Prop :=
  (forall f',
      f' ∈ _filter full_path relative_to path_match client names creators
             include exclude ->
      ~ excluded (rel_path client f') exclude)
  /\ (include = None \/ include = Some [] ->
      forall p d f,
        (p, d) ∈ datasets client -> named names d -> f ∈ ds_files d ->
        ~ excluded (rel_path client (tagged d f)) exclude ->
        tagged d f ∈ _filter full_path relative_to path_match client names
                       creators include exclude).

End Filter.

(** A project with one dataset holding one file by Alice. *)
Definition alice : Agents.Person :=
  Agents.mkPerson (lit "Alice") None (lit "Alice") None None (lit "_:alice").
Definition alice_file : @DatasetFile string :=
  mkFile "data/ds/a.csv" [] 0%Z [alice] None.
Definition alice_dataset : @DatasetT string nat :=
  mkDataset (lit "ds") (lit "ds") None [] [alice_file] [].
Definition alice_client : @Client string nat unit :=
  mkClient ∅ [(".renku/datasets/1", alice_dataset)] "/repo" tt.

(** Asked for the files of Bob, without any pattern, [_filter] leaves
    Alice's file out although nothing excludes it. *)
Lemma filter_creators_counterexample :
  ~ exclude_precedence_claim (fun _ f => df_path f) (fun p _ => p)
      (fun _ _ => false) alice_client [] (CreatorsSeq [lit "Bob"]) None None.
Proof.
  intros [_ H].
  specialize (H (or_introl eq_refl) ".renku/datasets/1" alice_dataset
                alice_file).
  assert (Hin : tagged alice_dataset alice_file
                ∈ _filter (fun _ f => df_path f) (fun p _ => p)
                    (fun _ _ => false) alice_client []
                    (CreatorsSeq [lit "Bob"]) None None).
  { apply H.
    - unfold alice_client. simpl. apply list_elem_of_here.
    - by left.
    - apply list_elem_of_here.
    - intros (pats & pat & Hex & _). discriminate. }
  vm_compute in Hin. by apply not_elem_of_nil in Hin.
Qed.

(** Asked for the files of Alice, with an exclude pattern that does not
    match, the file is returned. *)
Lemma filter_exclude_precedence_witness :
  tagged alice_dataset alice_file
  ∈ _filter (fun _ f => df_path f) (fun p _ => p)
      (fun (p : string) pat => bool_decide (lit p = pat)) alice_client
      [lit "ds"] (CreatorsStr (lit "Alice")) None (Some [lit "data/ds/b.csv"]).
Proof.
  refine (proj2 (filter_exclude_precedence (fun _ f => df_path f)
            (fun p _ => p)
            (fun (p : string) pat => bool_decide (lit p = pat)) alice_client
            [lit "ds"] (CreatorsStr (lit "Alice")) None
            (Some [lit "data/ds/b.csv"]))
            _ ".renku/datasets/1" alice_dataset alice_file _ _ _ _ _).
  - by left.
  - apply list_elem_of_here.
  - right. apply list_elem_of_here.
  - apply list_elem_of_here.
  - intros (pats & pat & [= <-] & Hin & Hm).
    apply list_elem_of_singleton in Hin as ->. vm_compute in Hm. discriminate.
  - intros c Hc. vm_compute in Hc.
    apply list_elem_of_singleton in Hc as ->. apply list_elem_of_here.
Defined.

(** An excluded path is rejected even when an include pattern matches. *)
Example include_exclude_both :
  _include_exclude (fun (p : string) pat => bool_decide (lit p = pat))
    "a.csv" (Some [lit "a.csv"]) (Some [lit "a.csv"]) = false.
Proof. reflexivity. Qed.

End DatasetSpec.

(** ** The transactional commit engine *)

Module GitSpec.
Import Git.

(** *** The repository model *)

Lemma elem_of_untracked_files (r : Repo) (f : string) :
  f ∈ untracked_files r
  <-> is_Some (working_tree r !! f) /\ index r !! f = None.
Proof.
  unfold untracked_files.
  rewrite elem_of_elements, elem_of_difference, !elem_of_dom.
  by rewrite <- eq_None_not_Some.
Qed.

Lemma lookup_diff_worktree (r : Repo) (p : string) :
  diff_worktree r !! p =
  match index r !! p with
  | None => None
  | Some c =>
      match working_tree r !! p with
      | None => Some Deleted
      | Some f => if decide (content f = c) then None else Some Modified
      end
  end.
Proof.
  unfold diff_worktree. rewrite map_lookup_imap.
  by destruct (index r !! p).
Qed.

Lemma lookup_git_add (path q : string) (r : Repo) :
  index (git_add path r) !! q =
  if under path q then content <$> working_tree r !! q else index r !! q.
Proof.
  unfold git_add. simpl. rewrite lookup_union, lookup_fmap.
  rewrite !map_lookup_filter. simpl.
  destruct (under path q) eqn:E;
    destruct (index r !! q) as [c|];
    destruct (working_tree r !! q) as [f|]; simpl; done.
Qed.

Lemma diff_entry_None (i h : option N) : diff_entry i h = None <-> i = h.
Proof.
  destruct i as [a|], h as [b|]; simpl; try done.
  case_decide; split; intros; simplify_eq; done.
Qed.

Lemma lookup_merge_diff (i h : gmap string N) (p : string) :
  merge diff_entry i h !! p = diff_entry (i !! p) (h !! p).
Proof.
  rewrite lookup_merge. unfold diag_None.
  by destruct (i !! p), (h !! p).
Qed.

Lemma merge_diff_empty (i h : gmap string N) :
  merge diff_entry i h = ∅ <-> i = h.
Proof.
  split.
  - intros H. apply map_eq. intros p.
    apply diff_entry_None. rewrite <- lookup_merge_diff, H.
    apply lookup_empty.
  - intros ->. apply map_eq. intros p.
    rewrite lookup_merge_diff, lookup_empty. by apply diff_entry_None.
Qed.

Lemma set_truthy_false (s : gset string) : set_truthy s = false <-> s = ∅.
Proof.
  unfold set_truthy. split.
  - destruct (elements s) eqn:E; [|discriminate].
    intros _. by apply elements_empty_inv, leibniz_equiv in E.
  - intros ->. by rewrite elements_empty.
Qed.

(** Nothing is untracked and nothing differs between working tree and
    index exactly when the index is the content of the working tree. *)
Lemma worktree_matches_index (r : Repo) :
  untracked_files r = [] /\ diff_worktree r = ∅
  <-> content <$> working_tree r = index r.
Proof.
  split.
  - intros [Hu Hd]. apply map_eq. intros p. rewrite lookup_fmap.
    pose proof (lookup_diff_worktree r p) as Hp.
    rewrite Hd, lookup_empty in Hp.
    destruct (index r !! p) as [c|] eqn:Hi.
    + destruct (working_tree r !! p) as [f|]; [|discriminate]. simpl.
      case_decide; [by subst|discriminate].
    + destruct (working_tree r !! p) as [f|] eqn:Hw; [|done].
      assert (p ∈ untracked_files r)
        by (apply elem_of_untracked_files; eauto).
      rewrite Hu in *. by apply not_elem_of_nil in H.
  - intros H. split.
    + destruct (untracked_files r) as [|p l] eqn:E; [done|].
      assert (Hp : p ∈ untracked_files r) by (rewrite E; left).
      apply elem_of_untracked_files in Hp as [[f Hf] Hi].
      rewrite <- H, lookup_fmap, Hf in Hi. discriminate.
    + apply map_eq. intros p.
      rewrite lookup_diff_worktree, lookup_empty.
      rewrite <- H, lookup_fmap.
      destruct (working_tree r !! p) as [f|]; simpl; [|done].
      by rewrite decide_True.
Qed.

(** *** The comparison of the index with HEAD *)

Section Diff.

Variable detect_renames :
  gmap string N -> gmap string N -> list (string * string).

Lemma elem_of_only_in (i h : gmap string N) (p : string) :
  p ∈ dom (only_in i h) <-> is_Some (i !! p) /\ h !! p = None.
Proof.
  unfold only_in. rewrite elem_of_dom. split.
  - intros [c Hc]. apply map_lookup_filter_Some in Hc as [Hc Hh]. eauto.
  - intros [[c Hc] Hh]. exists c. by apply map_lookup_filter_Some.
Qed.

Lemma elem_of_renames (i h : gmap string N) (a b : string) :
  (a, b) ∈ renames detect_renames i h ->
  (is_Some (i !! a) /\ h !! a = None) /\ (is_Some (h !! b) /\ i !! b = None).
Proof.
  unfold renames. rewrite list_elem_of_In, filter_In. intros [_ H].
  apply andb_true_iff in H as [Ha Hb].
  apply bool_decide_eq_true in Ha, Hb.
  by rewrite <- !elem_of_only_in.
Qed.

Lemma dom_foldr_renamed (pairs : list (string * string))
    (entries : gmap string change_type) :
  dom (foldr (fun ab entries => <[ab.1 := Renamed]> entries) entries pairs)
  = list_to_set pairs.*1 ∪ dom entries.
Proof.
  induction pairs as [|ab pairs IH]; cbn [foldr].
  - rewrite fmap_nil, list_to_set_nil. by rewrite (left_id_L ∅ (∪)).
  - rewrite fmap_cons, list_to_set_cons, dom_insert_L, IH.
    by rewrite (assoc_L (∪)).
Qed.

Lemma diff_head_Raise (r : Repo) e :
  diff_head detect_renames r = Raise e -> e = BadName /\ head_tree r = None.
Proof.
  unfold diff_head. destruct (head_tree r); [discriminate|].
  by intros [= <-].
Qed.

(** The paths [index.diff('HEAD')] reports: those on which index and
    HEAD differ, but for the paths in HEAD that a rename accounts
    for. *)
Lemma dom_diff_head (r : Repo) (h : gmap string N) d :
  head_tree r = Some h -> diff_head detect_renames r = Ok d ->
  forall p,
    p ∈ dom d
    <-> p ∈ dom (merge diff_entry (index r) h)
        /\ (p ∉ (renames detect_renames (index r) h).*2).
Proof.
  intros Hh. unfold diff_head. rewrite Hh. intros [= <-] p.
  rewrite dom_foldr_renamed, elem_of_union, elem_of_list_to_set.
  rewrite !elem_of_dom. split.
  - intros [Ha | [c Hc]].
    + apply list_elem_of_fmap in Ha as ([a b] & -> & Hab). simpl.
      apply elem_of_renames in Hab as [[[c Hi] Hh'] _]. split.
      * rewrite lookup_merge_diff, Hi, Hh'. simpl. eauto.
      * intros Hb. apply list_elem_of_fmap in Hb as ([a' b'] & Heq & Hab').
        simpl in Heq. subst b'.
        apply elem_of_renames in Hab' as [_ [[c' Hc'] _]]. congruence.
    + apply map_lookup_filter_Some in Hc as [Hc Hp]. eauto.
  - intros [[c Hc] Hp]. right. exists c. by apply map_lookup_filter_Some.
Qed.

(** It reports nothing exactly when the index is the tree of HEAD. *)
Lemma diff_head_empty (r : Repo) (h : gmap string N) d :
  head_tree r = Some h -> diff_head detect_renames r = Ok d ->
  dom d = ∅ <-> index r = h.
Proof.
  intros Hh Hd. pose proof (dom_diff_head r h d Hh Hd) as Hdom. split.
  - intros He.
    assert (Hnone : renames detect_renames (index r) h = []).
    { destruct (renames detect_renames (index r) h) as [|[a b] l] eqn:E;
        [done|]. exfalso.
      assert (Hab : (a, b) ∈ renames detect_renames (index r) h)
        by (rewrite E; left).
      apply elem_of_renames in Hab as [[[c Hi] Hh'] _].
      apply (not_elem_of_empty (C:=gset string) a). rewrite <- He.
      apply Hdom. split.
      - apply elem_of_dom. rewrite lookup_merge_diff, Hi, Hh'. simpl. eauto.
      - intros Hb.
        apply list_elem_of_fmap in Hb as ([a' b'] & Heq & Hab').
        simpl in Heq. subst b'. rewrite <- E in Hab'.
        apply elem_of_renames in Hab' as [_ [[c' Hc'] _]]. congruence. }
    apply merge_diff_empty, dom_empty_iff_L, set_eq. intros p.
    rewrite elem_of_empty. split; [|done]. intros Hp.
    apply (not_elem_of_empty (C:=gset string) p). rewrite <- He.
    apply Hdom. split; [done|]. rewrite Hnone. apply not_elem_of_nil.
  - intros Hi. apply set_eq. intros p. rewrite elem_of_empty.
    split; [|done]. intros Hp. apply Hdom in Hp as [Hp _].
    apply merge_diff_empty in Hi. rewrite Hi, dom_empty_L in Hp.
    by apply not_elem_of_empty in Hp.
Qed.

End Diff.

Lemma under_refl (p : string) : under p p = true.
Proof. unfold under. by rewrite String.eqb_refl. Qed.

Lemma log_stage_paths cts paths r : log (stage_paths cts paths r) = log r.
Proof.
  unfold stage_paths. revert r.
  induction paths as [|p paths IH]; intros r; [done|]. simpl.
  rewrite IH. by destruct (_ || _).
Qed.

Lemma working_tree_stage_paths cts paths r :
  working_tree (stage_paths cts paths r) = working_tree r.
Proof.
  unfold stage_paths. revert r.
  induction paths as [|p paths IH]; intros r; [done|]. simpl.
  rewrite IH. by destruct (_ || _).
Qed.

Section Commit.

Variable detect_renames :
  gmap string N -> gmap string N -> list (string * string).
Variable STARTED_AT : Z.
Variable version version_url : pystr.
Variable argv0 : pystr.
Variable argv_rest : list pystr.
Variable remove_credentials : pystr -> pystr.

Abbreviation commit_ :=
  (commit detect_renames STARTED_AT version version_url argv0 argv_rest
     remove_credentials).
Abbreviation resolve_message_ :=
  (resolve_message argv0 argv_rest remove_credentials).
Abbreviation committer_ := (lit "renku " ++ version, version_url).

(** The message built from the command line. *)
Definition command_line : pystr :=
  join (lit " ") (basename argv0 :: (remove_credentials <$> argv_rest)).

Lemma log_stage co db r r1 : stage detect_renames co db r = Ok r1 -> log r1 = log r.
Proof.
  unfold stage, bind.
  destruct co as [| |paths].
  - intros [= <-]. done.
  - destruct (diff_selection detect_renames db r) as [[cts sel]|e]; [|discriminate].
    cbn [fst snd]. intros [= <-].
    destruct sel; [reflexivity | apply log_stage_paths].
  - cbn [fst snd]. intros [= <-].
    destruct paths; [reflexivity | apply log_stage_paths].
Qed.

(** How [commit] ends once the wrapped code is through and the staged
    state is known. *)
Lemma commit_unfold co ce rie m body r db r0 rb r1 :
  commit_enter detect_renames STARTED_AT co r = Ok (db, r0) ->
  body r0 = Done rb ->
  stage detect_renames co db rb = Ok r1 ->
  commit_ co ce rie m body r =
  match nothing_to_commit detect_renames ce r1 with
  | Raise e => Failed e r1
  | Ok true => if rie then Failed NothingToCommit r1 else Done r1
  | Ok false =>
      match resolve_message_ m with
      | Raise e => Failed e r1
      | Ok message => Done (index_commit message committer_ r1)
      end
  end.
Proof.
  intros He Hb Hs. unfold commit, commit_exit. by rewrite He, Hb, Hs.
Qed.

(** *** The commit message *)

Lemma resolve_message_spec m :
  resolve_message_ m =
  if msg_truthy m then
    match m with
    | MsgStr s => Ok s
    | _ => Raise CommitMessageEmpty
    end
  else Ok command_line.
Proof.
  unfold resolve_message, command_line.
  destruct m as [|s|b|z|l]; simpl; try done.
  - by destruct (str_truthy s).
  - by destruct b.
  - by destruct (negb _).
  - by destruct l.
Qed.

(** C3, as the code has it.  When [commit] gets to the point of
    committing, a message that is true but not a string makes it fail
    with CommitMessageEmpty; a message that is missing or false (None,
    the empty string, an empty list, zero, False) is replaced by the
    base name of the program and the remaining arguments, each without
    credentials, joined by spaces; a non-empty string is used as it
    is. *)
Theorem commit_message_resolution co ce rie m body r db r0 rb r1 :
  commit_enter detect_renames STARTED_AT co r = Ok (db, r0) ->
  body r0 = Done rb ->
  stage detect_renames co db rb = Ok r1 ->
  nothing_to_commit detect_renames ce r1 = Ok false ->
  commit_ co ce rie m body r =
  if msg_truthy m then
    match m with
    | MsgStr s => Done (index_commit s committer_ r1)
    | _ => Failed CommitMessageEmpty r1
    end
  else Done (index_commit command_line committer_ r1).
Proof.
  intros He Hb Hs Hn.
  rewrite (commit_unfold _ _ _ _ _ _ _ _ _ _ He Hb Hs), Hn.
  rewrite resolve_message_spec.
  destruct (msg_truthy m); [by destruct m|done].
Qed.

(** *** Empty commits *)

Lemma set_truthy_empty : set_truthy ∅ = false.
Proof. unfold set_truthy. by rewrite elements_empty. Qed.

(** *** The check of listed paths *)

(** The file [f] is the listed [path] or begins with it. *)
Definition blocks (path f : string) : bool :=
  String.prefix path f || String.eqb path f.

(** What [ensure_untracked] and [ensure_unstaged] look for: an
    untracked file, or a path on which the index differs from HEAD,
    that the listed path blocks. *)
Definition dirty_for (path : string) (r : Repo) : Prop :=
  (exists f, f ∈ untracked_files r /\ blocks path f = true)
  \/ (exists d f, diff_head detect_renames r = Ok d /\ f ∈ dom d /\ blocks path f = true).

Definition dirty_forb (path : string) (r : Repo) : bool :=
  existsb (blocks path) (untracked_files r)
  || match diff_head detect_renames r with
     | Ok d => existsb (blocks path) (elements (dom d))
     | Raise _ => false
     end.

Lemma existsb_blocks (path : string) (l : list string) :
  existsb (blocks path) l = true
  <-> exists f, f ∈ l /\ blocks path f = true.
Proof.
  rewrite existsb_exists. split; intros (f & H1 & H2); exists f;
    split; try done; by apply list_elem_of_In.
Qed.

Lemma dirty_forb_spec path r : dirty_forb path r = true <-> dirty_for path r.
Proof.
  unfold dirty_forb, dirty_for.
  rewrite orb_true_iff, existsb_blocks. split.
  - intros [H | H]; [by left|]. right.
    destruct (diff_head detect_renames r) as [d|e]; [|discriminate].
    apply existsb_blocks in H as (f & Hf & Hb).
    exists d, f. by rewrite <- elem_of_elements.
  - intros [H | (d & f & Hd & Hf & Hb)]; [by left|]. right.
    rewrite Hd. apply existsb_blocks. exists f.
    by rewrite elem_of_elements.
Qed.

Lemma ensure_path_spec path r :
  bind (ensure_untracked path r) (fun _ => ensure_unstaged detect_renames path r)
  = if dirty_forb path r then Raise (DirtyRenkuDirectory r) else Ok tt.
Proof.
  unfold ensure_untracked, ensure_unstaged, dirty_forb, diff_head, blocks.
  destruct (existsb _ (untracked_files r)); [done|]. simpl.
  destruct (head_tree r) as [h|]; [|done].
  by destruct (existsb _ _).
Qed.

Lemma check_paths_spec (paths : list string) r (acc : result exn unit) :
  foldl (fun acc path_ =>
           bind acc (fun _ =>
             bind (ensure_untracked path_ r)
               (fun _ => ensure_unstaged detect_renames path_ r))) acc paths
  = match acc with
    | Raise e => Raise e
    | Ok _ =>
        if existsb (fun p => dirty_forb p r) paths
        then Raise (DirtyRenkuDirectory r) else Ok tt
    end.
Proof.
  revert acc. induction paths as [|p paths IH]; intros acc; simpl.
  - by destruct acc as [[]|].
  - rewrite IH. destruct acc as [[]|e]; [|done]. simpl.
    rewrite ensure_path_spec. by destruct (dirty_forb p r).
Qed.

Lemma commit_enter_list paths r :
  commit_enter detect_renames STARTED_AT (OnlyList paths) r
  = if existsb (fun p => dirty_forb p r) paths
    then Raise (DirtyRenkuDirectory r) else Ok (∅, r).
Proof.
  unfold commit_enter. rewrite check_paths_spec.
  by destruct (existsb _ paths).
Qed.

(** C2, as the code has it.  With a list of paths as commit scope,
    [commit] fails before the wrapped code runs (whatever that code is)
    as soon as an untracked file, or a path that [index.diff('HEAD')]
    reports, is a listed path or begins with one; a staged rename is
    reported under its path in the index only.  The error is
    DirtyRenkuDirectory built from the repository, the same whichever
    listed path offends.  When there is no such file the wrapped code
    starts from the unchanged repository.  Changes of tracked files
    that are not staged are not looked at. *)
Theorem listed_paths_precheck paths ce rie m body r :
  ((exists p, p ∈ paths /\ dirty_for p r) ->
   commit_ (OnlyList paths) ce rie m body r
   = Failed (DirtyRenkuDirectory r) r)
  /\ ((forall p, p ∈ paths -> ~ dirty_for p r) ->
      commit_enter detect_renames STARTED_AT (OnlyList paths) r = Ok (∅, r)).
Proof.
  split.
  - intros (p & Hp & Hd). unfold commit. rewrite commit_enter_list.
    replace (existsb (fun p => dirty_forb p r) paths) with true; [done|].
    symmetry. apply existsb_exists. exists p.
    split; [by apply list_elem_of_In | by apply dirty_forb_spec].
  - intros H. rewrite commit_enter_list.
    destruct (existsb (fun p => dirty_forb p r) paths) eqn:E; [|done].
    apply existsb_exists in E as (p & Hp & Hd).
    apply list_elem_of_In in Hp. apply dirty_forb_spec in Hd.
    by destruct (H p Hp).
Qed.

(** C2 as the specification words it: a listed path that is staged or
    modified makes the check fail, *)
Definition listed_paths_claim (paths : list string) (r : Repo) : Prop :=
  (exists p, p ∈ paths
             /\ (p ∈ dom (diff_worktree r)
                 \/ exists d, diff_head detect_renames r = Ok d /\ p ∈ dom d)) ->
  exists e, commit_enter detect_renames STARTED_AT (OnlyList paths) r = Raise e.

(** and the error identifies the offending path: the listed path can be
    read off the error the check raises. *)
Definition error_identifies_path (r : Repo) : Prop :=
  exists offending : exn -> string,
    forall p e,
      commit_enter detect_renames STARTED_AT (OnlyList [p]) r = Raise e ->
      offending e = p.

(** *** Empty commits, continued *)

(** Staging changes nothing when the index already is the content of
    the working tree. *)
Lemma git_add_unchanged path r :
  content <$> working_tree r = index r -> git_add path r = r.
Proof.
  intros H.
  assert (Hi : index (git_add path r) = index r).
  { apply map_eq. intros q. rewrite lookup_git_add, <- H, lookup_fmap.
    by destruct (under path q). }
  destruct r as [l i w]. unfold git_add in *. simpl in *. by rewrite Hi.
Qed.

Lemma git_add_all_unchanged r :
  content <$> working_tree r = index r -> git_add_all r = r.
Proof. destruct r as [l i w]. unfold git_add_all. simpl. by intros ->. Qed.

Lemma stage_paths_unchanged cts paths r :
  content <$> working_tree r = index r -> stage_paths cts paths r = r.
Proof.
  intros H. unfold stage_paths.
  induction paths as [|p paths IH]; [done|]. cbn [foldl].
  rewrite (git_add_unchanged p r H). by destruct (_ || _).
Qed.

(** [index.diff('HEAD')] is empty when the index is the tree of HEAD. *)
Lemma diff_head_clean r :
  head_tree r = Some (index r) ->
  exists d, diff_head detect_renames r = Ok d /\ dom d = ∅.
Proof.
  intros Hh.
  destruct (diff_head detect_renames r) as [d|e] eqn:Hd.
  - exists d. split; [done|].
    by apply (diff_head_empty detect_renames r (index r) d Hh Hd).
  - apply diff_head_Raise in Hd as [_ Hd]. congruence.
Qed.

(** In a repository in which HEAD, index and working tree agree,
    [commit] gets to the wrapped code with an empty snapshot and the
    unchanged repository, whatever the scope, and stages nothing. *)
Lemma commit_enter_clean co r :
  head_tree r = Some (index r) ->
  content <$> working_tree r = index r ->
  commit_enter detect_renames STARTED_AT co r = Ok (∅, r).
Proof.
  intros Hh Hw.
  destruct (diff_head_clean r Hh) as (d & Hd & He).
  apply worktree_matches_index in Hw as [Hu Hm].
  destruct co as [| |paths].
  - done.
  - unfold commit_enter, bind. rewrite Hd, Hm, dom_empty_L, He.
    rewrite set_truthy_empty. cbn [orb]. by rewrite Hu.
  - rewrite commit_enter_list.
    assert (Hp : forall p, dirty_forb p r = false).
    { intros p. unfold dirty_forb. rewrite Hu, Hd, He.
      by rewrite elements_empty. }
    replace (existsb (fun p => dirty_forb p r) paths) with false; [done|].
    symmetry. induction paths as [|p paths IH]; [done|].
    simpl. by rewrite Hp, IH.
Qed.

Lemma stage_clean co r :
  head_tree r = Some (index r) ->
  content <$> working_tree r = index r ->
  stage detect_renames co ∅ r = Ok r.
Proof.
  intros Hh Hw.
  destruct (diff_head_clean r Hh) as (d & Hd & He).
  pose proof (proj2 (worktree_matches_index r) Hw) as [Hu Hm].
  destruct co as [| |paths].
  - unfold stage. simpl. by rewrite (git_add_all_unchanged r Hw).
  - unfold stage, diff_selection, bind. rewrite Hd. cbn [fst snd].
    rewrite Hu, Hm, dom_empty_L, He.
    replace ((list_to_set [] ∪ ∅ ∪ ∅) ∖ ∅ : gset string) with (∅ : gset string)
      by set_solver.
    rewrite elements_empty. simpl.
    by rewrite (git_add_all_unchanged r Hw).
  - unfold stage. simpl. destruct paths as [|p paths].
    + simpl. by rewrite (git_add_all_unchanged r Hw).
    + by rewrite (stage_paths_unchanged _ _ r Hw).
Qed.

(** C4, as the code has it.  What counts is the index once [commit]
    has staged its scope: when that shows no difference against HEAD,
    [commit] with empty commits disabled raises NothingToCommit if
    [raise_if_empty] is set and otherwise returns without a new commit,
    and with empty commits allowed (the default) it commits all the
    same.  This is the case, for every scope, when the wrapped code
    changes nothing in a repository in which HEAD, index and working
    tree agree. *)
Theorem empty_commit_policy co rie m body r :
  (forall db r0 rb r1 d,
      commit_enter detect_renames STARTED_AT co r = Ok (db, r0) ->
      body r0 = Done rb ->
      stage detect_renames co db rb = Ok r1 ->
      diff_head detect_renames r1 = Ok d ->
      dom d = ∅ ->
      commit_ co false rie m body r
      = (if rie then Failed NothingToCommit r1 else Done r1)
      /\ log r1 = log rb
      /\ (forall message,
             resolve_message_ m = Ok message ->
             commit_ co true rie m body r
             = Done (index_commit message committer_ r1))
      /\ commit_ co true rie MsgNone body r
         = Done (index_commit command_line committer_ r1))
  /\ (head_tree r = Some (index r) ->
      content <$> working_tree r = index r ->
      body r = Done r ->
      commit_ co false rie m body r
      = (if rie then Failed NothingToCommit r else Done r)
      /\ commit_ co true rie MsgNone body r
         = Done (index_commit command_line committer_ r)).
Proof.
  assert (HA : forall db r0 rb r1 d,
      commit_enter detect_renames STARTED_AT co r = Ok (db, r0) ->
      body r0 = Done rb ->
      stage detect_renames co db rb = Ok r1 ->
      diff_head detect_renames r1 = Ok d ->
      dom d = ∅ ->
      commit_ co false rie m body r
      = (if rie then Failed NothingToCommit r1 else Done r1)
      /\ log r1 = log rb
      /\ (forall message,
             resolve_message_ m = Ok message ->
             commit_ co true rie m body r
             = Done (index_commit message committer_ r1))
      /\ commit_ co true rie MsgNone body r
         = Done (index_commit command_line committer_ r1)).
  { intros db r0 rb r1 d He Hb Hs Hd Hdom. repeat split.
    - rewrite (commit_unfold _ _ _ _ _ _ _ _ _ _ He Hb Hs).
      unfold nothing_to_commit, bind. simpl. rewrite Hd, Hdom.
      by rewrite set_truthy_empty.
    - by eapply log_stage.
    - intros message Hm.
      rewrite (commit_unfold _ _ _ _ _ _ _ _ _ _ He Hb Hs). simpl.
      by rewrite Hm.
    - by rewrite (commit_unfold _ _ _ _ _ _ _ _ _ _ He Hb Hs). }
  split; [exact HA|].
  intros Hh Hw Hb.
  destruct (diff_head_clean r Hh) as (d & Hd & He).
  destruct (HA ∅ r r r d (commit_enter_clean co r Hh Hw) Hb
              (stage_clean co r Hh Hw) Hd He) as (H1 & _ & _ & H4).
  by split.
Qed.

(** C4 as the specification words it: the condition is on what the
    wrapped code leaves, before [commit] stages anything. *)
Definition empty_commit_claim co rie m (body : Repo -> outcome) (r : Repo)
  : Prop :=
  forall db r0 rb d,
    commit_enter detect_renames STARTED_AT co r = Ok (db, r0) ->
    body r0 = Done rb ->
    diff_head detect_renames rb = Ok d ->
    dom d = ∅ ->
    exists r',
      log r' = log rb
      /\ commit_ co false rie m body r
         = (if rie then Failed NothingToCommit r' else Done r').

(** *** The diff strategy *)

(** Whether the staging loop over [sel] puts the working tree's state
    of [q] into the index. *)
Definition staged_by (cts : gmap string change_type) (sel : list string)
    (r : Repo) (q : string) : bool :=
  existsb (fun p =>
    (path_exists p r || bool_decide (cts !! p = Some Deleted))
    && under p q) sel.

Lemma path_exists_lookup (r : Repo) (q : string) (w : wfile) :
  working_tree r !! q = Some w -> path_exists q r = true.
Proof.
  intros H. unfold path_exists. apply bool_decide_eq_true, Exists_exists.
  exists q. split; [|by rewrite under_refl].
  apply elem_of_elements, elem_of_dom. eauto.
Qed.

Lemma index_stage_paths cts sel r q :
  index (stage_paths cts sel r) !! q
  = if staged_by cts sel r q then content <$> working_tree r !! q
    else index r !! q.
Proof.
  unfold stage_paths, staged_by. revert r.
  induction sel as [|p sel IH]; intros r; [done|].
  cbn [foldl existsb].
  destruct (path_exists p r || bool_decide (cts !! p = Some Deleted)) eqn:E.
  - rewrite IH. change (working_tree (git_add p r)) with (working_tree r).
    change (fun p0 => (path_exists p0 (git_add p r)
                       || bool_decide (cts !! p0 = Some Deleted))
                      && under p0 q)
      with (fun p0 => (path_exists p0 r
                       || bool_decide (cts !! p0 = Some Deleted))
                      && under p0 q).
    rewrite lookup_git_add. cbn [andb].
    destruct (under p q); cbn [orb]; by destruct (existsb _ sel).
  - by rewrite IH.
Qed.

Lemma diff_selection_spec db r cts sel :
  diff_selection detect_renames db r = Ok (cts, sel) ->
  exists d,
    diff_head detect_renames r = Ok d
    /\ cts = d ∪ diff_worktree r
    /\ forall p, p ∈ sel <->
         (p ∈ untracked_files r \/ p ∈ dom (diff_worktree r) \/ p ∈ dom d)
         /\ p ∉ db.
Proof.
  unfold diff_selection, bind.
  destruct (diff_head detect_renames r) as [d|e]; [|discriminate].
  intros [= <- <-]. exists d. split; [done|]. split; [done|].
  intros p.
  rewrite elem_of_elements, elem_of_difference, !elem_of_union,
    elem_of_list_to_set. tauto.
Qed.

Lemma commit_enter_diff r db r0 :
  commit_enter detect_renames STARTED_AT OnlyDiff r = Ok (db, r0) ->
  (r0 = r \/ r0 = git_reset r)
  /\ forall f, f ∈ db <->
       f ∈ untracked_files r0
       /\ exists w, working_tree r0 !! f = Some w
                    /\ (1000 ≤ STARTED_AT - ctime_ms w)%Z.
Proof.
  unfold commit_enter, bind.
  destruct (diff_head detect_renames r) as [d|e]; [|discriminate].
  intros [= <- <-]. split; [destruct (_ || _); auto|].
  intros f. rewrite elem_of_list_to_set, list_elem_of_In, filter_In,
    <- list_elem_of_In.
  split; intros [Hu Hw]; (split; [exact Hu|]).
  - destruct (working_tree _ !! f) as [w|]; [|discriminate].
    exists w. split; [done|]. by apply bool_decide_eq_true in Hw.
  - destruct Hw as (w & -> & Hw). by apply bool_decide_eq_true.
Qed.

(** The diff strategy, as the code has it.  When the wrapped code ran
    and at least one path is selected: the snapshot
    [diff_before] holds the untracked files whose status change lies a
    second or more before process start; the selected paths are those
    that are untracked, or differ between index and working tree, or
    between index and HEAD, after the wrapped code, and are not in the
    snapshot; the index that is committed takes the working tree's
    state of every selected path that exists or is recorded as deleted
    (and of what lies below it) and is otherwise the index the wrapped
    code left.  So a selected file of the working tree, such as one the
    wrapped code created, is committed; and a file of the snapshot that
    the wrapped code did not put into the index is not, provided no
    selected path is a directory above it. *)
Lemma diff_strategy_commit ce rie m body r db r0 rb cts sel :
  commit_enter detect_renames STARTED_AT OnlyDiff r = Ok (db, r0) ->
  body r0 = Done rb ->
  diff_selection detect_renames db rb = Ok (cts, sel) ->
  sel <> [] ->
  exists r1,
    stage detect_renames OnlyDiff db rb = Ok r1
    /\ (forall f, f ∈ db <->
          f ∈ untracked_files r0
          /\ exists w, working_tree r0 !! f = Some w
                       /\ (1000 ≤ STARTED_AT - ctime_ms w)%Z)
    /\ (forall p, p ∈ sel <->
          (p ∈ untracked_files rb \/ p ∈ dom (diff_worktree rb)
           \/ exists d, diff_head detect_renames rb = Ok d /\ p ∈ dom d)
          /\ p ∉ db)
    /\ (forall q,
          index r1 !! q
          = if staged_by cts sel rb q then content <$> working_tree rb !! q
            else index rb !! q)
    /\ (forall q w,
          q ∈ sel -> working_tree rb !! q = Some w ->
          index r1 !! q = Some (content w))
    /\ (forall q,
          q ∈ db -> index rb !! q = None ->
          (forall p, p ∈ sel -> String.prefix (p +:+ "/") q = false) ->
          index r1 !! q = None)
    /\ (forall message,
          resolve_message_ m = Ok message ->
          nothing_to_commit detect_renames ce r1 = Ok false ->
          commit_ OnlyDiff ce rie m body r
          = Done (index_commit message committer_ r1)).
Proof.
  intros He Hb Hsel Hne.
  assert (Hst : stage detect_renames OnlyDiff db rb = Ok (stage_paths cts sel rb)).
  { unfold stage, bind. rewrite Hsel. cbn [fst snd].
    by destruct sel. }
  destruct (commit_enter_diff _ _ _ He) as [_ Hdb].
  destruct (diff_selection_spec _ _ _ _ Hsel) as (d & Hd & _ & Hs).
  assert (Hsel_db : forall p, p ∈ sel -> p ∉ db) by (intros p Hp; by apply Hs).
  exists (stage_paths cts sel rb).
  split; [exact Hst|]. split; [exact Hdb|]. split.
  { intros p. rewrite Hs. split; intros [H1 H2]; (split; [|exact H2]).
    - destruct H1 as [H1|[H1|H1]]; eauto.
    - destruct H1 as [H1|[H1|(d' & Hd' & H1)]]; auto.
      rewrite Hd in Hd'. injection Hd' as <-. auto. }
  split; [apply index_stage_paths|]. split; [|split].
  - intros q w Hq Hw. rewrite index_stage_paths, Hw.
    replace (staged_by cts sel rb q) with true; [done|].
    symmetry. apply existsb_exists. exists q.
    split; [by apply list_elem_of_In|].
    by rewrite (path_exists_lookup _ _ _ Hw), under_refl.
  - intros q Hq Hi Hdir. rewrite index_stage_paths, Hi.
    destruct (staged_by cts sel rb q) eqn:E; [|done].
    apply existsb_exists in E as (p & Hp & Hc).
    apply list_elem_of_In in Hp.
    apply andb_true_iff in Hc as [_ Hu]. unfold under in Hu.
    apply orb_true_iff in Hu as [Hu | Hu].
    + apply String.eqb_eq in Hu as ->. by destruct (Hsel_db q Hp).
    + by rewrite (Hdir p Hp) in Hu.
  - intros message Hm Hn.
    rewrite (commit_unfold _ _ _ _ _ _ _ _ _ _ He Hb Hst), Hn.
    by rewrite Hm.
Qed.

(** C3 as the specification words it: a message that is empty and not
    a string is rejected. *)
Definition empty_message_claim (m : message_arg) : Prop :=
  msg_is_str m = false -> msg_truthy m = false -> m <> MsgNone ->
  resolve_message_ m = Raise CommitMessageEmpty.

(** C1 as the specification words it: the paths the commit changes are
    the paths that became untracked, staged or modified while the
    wrapped code ran. *)
Definition dirty (r : Repo) : gset string :=
  list_to_set (untracked_files r) ∪ dom (diff_worktree r)
  ∪ match diff_head detect_renames r with Ok d => dom d | Raise _ => ∅ end.

Definition committed_paths (before after : Repo) : gset string :=
  dom (merge diff_entry (default ∅ (head_tree after))
         (default ∅ (head_tree before))).

Definition diff_commit_claim ce rie m (body : Repo -> outcome) (r : Repo)
  : Prop :=
  forall db r0 rb r',
    commit_enter detect_renames STARTED_AT OnlyDiff r = Ok (db, r0) ->
    body r0 = Done rb ->
    commit_ OnlyDiff ce rie m body r = Done r' ->
    committed_paths r r' = dirty rb ∖ dirty r0.

End Commit.

(** *** Runs of the engine

    A repository with one commit holding [a], an untracked file
    [old.txt] that is five seconds older than the process, and a
    wrapped command that writes [new.txt]. *)

(** A detector of the exact renames: a path only in HEAD is paired with
    a path only in the index that holds the same blob. *)
Definition exact_renames (index_only head_only : gmap string N)
  : list (string * string) :=
  omap (fun bh : string * N =>
          (fun ai : string * N => (ai.1, bh.1))
            <$> List.find (fun ai : string * N => bool_decide (ai.2 = bh.2))
                  (map_to_list index_only))
    (map_to_list head_only).

Definition t0 : Z := 5000.
Definition demo_argv : list pystr := [lit "dataset"; lit "add"; lit "ds"].
Definition demo_commit_ :=
  commit exact_renames t0 (lit "0.8.2") (lit "https://github.com/swissdatasciencecenter")
    (lit "/usr/bin/renku") demo_argv (fun a => a).

Definition first_commit : Commit :=
  mkCommit (lit "init") (lit "me", lit "me@example.com") {[ "a" := 1 ]}.

Definition demo_repo : Repo :=
  mkRepo [first_commit] {[ "a" := 1 ]}
    {[ "a" := mkFile 1 0; "old.txt" := mkFile 5 0 ]}.

Definition write_new (r : Repo) : outcome :=
  Done (mkRepo (log r) (index r)
          (<[ "new.txt" := mkFile 7 6000%Z ]> (working_tree r))).

Lemma diff_strategy_commit_witness :
  commit_enter exact_renames t0 OnlyDiff demo_repo = Ok ({[ "old.txt" ]}, demo_repo)
  /\ (exists rb cts sel,
         write_new demo_repo = Done rb
         /\ diff_selection exact_renames {[ "old.txt" ]} rb = Ok (cts, sel)
         /\ sel <> []
         /\ exists r1,
             stage exact_renames OnlyDiff {[ "old.txt" ]} rb = Ok r1
             /\ index r1 !! "new.txt" = Some 7
             /\ index r1 !! "old.txt" = None
             /\ demo_commit_ OnlyDiff false true MsgNone write_new demo_repo
                = Done (index_commit (lit "renku dataset add ds")
                          (lit "renku 0.8.2",
                           lit "https://github.com/swissdatasciencecenter")
                          r1)).
Proof.
  assert (He : commit_enter exact_renames t0 OnlyDiff demo_repo
               = Ok ({[ "old.txt" ]}, demo_repo))
    by (vm_compute; reflexivity).
  split; [exact He|].
  eexists _, _, _.
  split; [reflexivity|].
  split; [vm_compute; reflexivity|].
  split; [discriminate|].
  destruct (diff_strategy_commit exact_renames t0 (lit "0.8.2")
              (lit "https://github.com/swissdatasciencecenter")
              (lit "/usr/bin/renku") demo_argv (fun a => a)
              false true MsgNone write_new demo_repo
              {[ "old.txt" ]} demo_repo
              (mkRepo [first_commit] {[ "a" := 1 ]}
                 (<[ "new.txt" := mkFile 7 6000%Z ]>
                    {[ "a" := mkFile 1 0; "old.txt" := mkFile 5 0 ]}))
              ∅ ["new.txt"]
              He eq_refl ltac:(vm_compute; reflexivity)
              ltac:(discriminate))
    as (r1 & Hst & _ & _ & _ & Hnew & Hold & Hcommit).
  exists r1. split; [exact Hst|]. split; [|split].
  - apply (Hnew "new.txt" (mkFile 7 6000%Z)).
    + apply list_elem_of_here.
    + vm_compute; reflexivity.
  - apply Hold.
    + by apply elem_of_singleton.
    + vm_compute; reflexivity.
    + intros p Hp. apply list_elem_of_singleton in Hp as ->.
      vm_compute; reflexivity.
  - apply Hcommit; [vm_compute; reflexivity|].
    clear -Hst. vm_compute in Hst. injection Hst as <-.
    vm_compute; reflexivity.
Defined.

(** The same with [a] changed before the command starts. *)
Definition modified_repo : Repo :=
  mkRepo [first_commit] {[ "a" := 1 ]}
    {[ "a" := mkFile 2 0; "old.txt" := mkFile 5 0 ]}.

(** C1.  The run at [modified_repo], where the tracked file [a] was
    changed before the command started and the command only writes
    [new.txt]: the snapshot holds [old.txt] alone, [new.txt] is the one
    path that became dirty while the command ran, and yet the commit
    the diff strategy makes holds the new content of [a] next to
    [new.txt].  A path the command did not touch is committed. *)
Theorem diff_strategy_commits_untouched :
  commit_enter exact_renames t0 OnlyDiff modified_repo
  = Ok ({[ "old.txt" ]}, modified_repo)
  /\ exists rb r',
      write_new modified_repo = Done rb
      /\ working_tree rb !! "a" = working_tree modified_repo !! "a"
      /\ index rb !! "a" = index modified_repo !! "a"
      /\ dirty exact_renames rb ∖ dirty exact_renames modified_repo
         = {[ "new.txt" ]}
      /\ demo_commit_ OnlyDiff true false MsgNone write_new modified_repo
         = Done r'
      /\ head_tree modified_repo = Some {[ "a" := 1 ]}
      /\ head_tree r' = Some {[ "a" := 2; "new.txt" := 7 ]}
      /\ committed_paths modified_repo r' = {[ "a"; "new.txt" ]}.
Proof.
  split; [vm_compute; reflexivity|].
  eexists _, _. split; [reflexivity|].
  split; [reflexivity|]. split; [reflexivity|].
  split; [vm_compute; reflexivity|].
  split; [vm_compute; reflexivity|].
  split; [reflexivity|].
  split; vm_compute; reflexivity.
Qed.

(** So the committed paths are not the paths that became dirty while
    the command ran. *)

Lemma diff_commit_counterexample :
  ~ diff_commit_claim exact_renames t0 (lit "0.8.2")
      (lit "https://github.com/swissdatasciencecenter")
      (lit "/usr/bin/renku") demo_argv (fun a => a)
      true false MsgNone write_new modified_repo.
Proof.
  intros H.
  assert (He : commit_enter exact_renames t0 OnlyDiff modified_repo
               = Ok ({[ "old.txt" ]}, modified_repo))
    by (vm_compute; reflexivity).
  destruct (demo_commit_ OnlyDiff true false MsgNone write_new modified_repo)
    as [r'|e r'] eqn:Hc; [|vm_compute in Hc; discriminate].
  pose proof (H _ _ _ _ He eq_refl Hc) as H'.
  vm_compute in Hc. injection Hc as <-.
  apply (f_equal (fun s : gset string => bool_decide ("a" ∈ s))) in H'.
  vm_compute in H'. discriminate.
Qed.

(** When the command changes nothing the selection is empty, the
    staging falls through to [git add --all], and [old.txt] is
    committed. *)
Example diff_strategy_nothing_selected :
  match demo_commit_ OnlyDiff true false MsgNone (fun r => Done r)
          demo_repo with
  | Done r' => c_tree <$> head (log r')
  | Failed _ _ => None
  end = Some {[ "a" := 1; "old.txt" := 5 ]}.
Proof. vm_compute. reflexivity. Qed.

(** An untracked file under a listed directory stops the command. *)
Definition renku_dirty_repo : Repo :=
  mkRepo [first_commit] {[ "a" := 1 ]}
    {[ "a" := mkFile 1 0; ".renku/datasets/x.yml" := mkFile 3 0 ]}.

Lemma listed_paths_precheck_witness :
  (exists p, p ∈ [".renku/datasets"; ".renku/refs"]
             /\ dirty_for exact_renames p renku_dirty_repo)
  /\ demo_commit_ (OnlyList [".renku/datasets"; ".renku/refs"]) true false
       MsgNone write_new renku_dirty_repo
     = Failed (DirtyRenkuDirectory renku_dirty_repo) renku_dirty_repo.
Proof.
  assert (H : exists p, p ∈ [".renku/datasets"; ".renku/refs"]
                        /\ dirty_for exact_renames p renku_dirty_repo).
  { exists ".renku/datasets". split; [apply list_elem_of_here|].
    left. exists ".renku/datasets/x.yml". split; [|reflexivity].
    apply elem_of_untracked_files. split; [|vm_compute; reflexivity].
    exists (mkFile 3 0). vm_compute; reflexivity. }
  split; [exact H|].
  exact (proj1 (listed_paths_precheck exact_renames t0 (lit "0.8.2")
                  (lit "https://github.com/swissdatasciencecenter")
                  (lit "/usr/bin/renku") demo_argv (fun a => a)
                  [".renku/datasets"; ".renku/refs"] true false MsgNone
                  write_new renku_dirty_repo) H).
Defined.

(** A listed file that is changed in the working tree, but not staged,
    passes the check; and the two listed paths [old.txt] and [old],
    which both run into the untracked [old.txt], get the same error. *)
Lemma listed_paths_counterexample :
  ~ listed_paths_claim exact_renames t0 ["a"] modified_repo
  /\ ~ error_identifies_path exact_renames t0 modified_repo.
Proof.
  split.
  - intros H. destruct H as [e He].
    + exists "a". split; [apply list_elem_of_here|]. left.
      apply elem_of_dom. exists Modified. vm_compute; reflexivity.
    + vm_compute in He. discriminate.
  - intros [offending H].
    pose proof (H "old.txt" (DirtyRenkuDirectory modified_repo)
                  ltac:(vm_compute; reflexivity)) as H1.
    pose proof (H "old" (DirtyRenkuDirectory modified_repo)
                  ltac:(vm_compute; reflexivity)) as H2.
    rewrite H1 in H2. discriminate.
Qed.

(** A staged rename of [a] to [c]: it is reported under [c], so that
    the listed path [a] passes the check and [c] does not. *)
Definition renamed_repo : Repo :=
  mkRepo [first_commit] {[ "c" := 1 ]} {[ "c" := mkFile 1 0 ]}.

Example staged_rename_listed :
  diff_head exact_renames renamed_repo = Ok {[ "c" := Renamed ]}
  /\ commit_enter exact_renames t0 (OnlyList ["a"]) renamed_repo
     = Ok (∅, renamed_repo)
  /\ commit_enter exact_renames t0 (OnlyList ["c"]) renamed_repo
     = Raise (DirtyRenkuDirectory renamed_repo).
Proof. repeat split; vm_compute; reflexivity. Qed.

(** A list that is not empty is not a message. *)
Lemma commit_message_resolution_witness :
  commit_enter exact_renames t0 OnlyNone demo_repo = Ok (∅, demo_repo)
  /\ (exists rb r1,
         write_new demo_repo = Done rb
         /\ stage exact_renames OnlyNone ∅ rb = Ok r1
         /\ nothing_to_commit exact_renames true r1 = Ok false
         /\ demo_commit_ OnlyNone true false (MsgList [lit "fix"]) write_new
              demo_repo
            = Failed CommitMessageEmpty r1).
Proof.
  split; [reflexivity|].
  eexists _, _. split; [reflexivity|]. split; [reflexivity|].
  split; [reflexivity|].
  exact (commit_message_resolution exact_renames t0 (lit "0.8.2")
           (lit "https://github.com/swissdatasciencecenter")
           (lit "/usr/bin/renku") demo_argv (fun a => a)
           OnlyNone true false (MsgList [lit "fix"]) write_new demo_repo
           ∅ demo_repo _ _ eq_refl eq_refl eq_refl eq_refl).
Defined.

(** An empty list is taken for a missing message. *)
Lemma empty_message_counterexample :
  ~ empty_message_claim (lit "/usr/bin/renku") demo_argv (fun a => a)
      (MsgList []).
Proof.
  intros H. specialize (H eq_refl eq_refl ltac:(discriminate)).
  vm_compute in H. discriminate.
Qed.

Example empty_message_command_line :
  resolve_message (lit "/usr/bin/renku") demo_argv (fun a => a) (MsgList [])
  = Ok (lit "renku dataset add ds").
Proof. vm_compute. reflexivity. Qed.

(** A command that changes nothing in a clean repository. *)
Definition clean_repo : Repo :=
  mkRepo [first_commit] {[ "a" := 1 ]} {[ "a" := mkFile 1 0 ]}.

Lemma empty_commit_policy_witness :
  head_tree clean_repo = Some (index clean_repo)
  /\ content <$> working_tree clean_repo = index clean_repo
  /\ demo_commit_ OnlyDiff false true MsgNone (fun r => Done r) clean_repo
     = Failed NothingToCommit clean_repo
  /\ demo_commit_ OnlyDiff true true MsgNone (fun r => Done r) clean_repo
     = Done (index_commit (lit "renku dataset add ds")
               (lit "renku 0.8.2",
                lit "https://github.com/swissdatasciencecenter")
               clean_repo)
  /\ diff_head exact_renames clean_repo = Ok ∅
  /\ demo_commit_ OnlyNone false false MsgNone (fun r => Done r) clean_repo
     = Done clean_repo.
Proof.
  assert (Hh : head_tree clean_repo = Some (index clean_repo))
    by (vm_compute; reflexivity).
  assert (Hw : content <$> working_tree clean_repo = index clean_repo)
    by (vm_compute; reflexivity).
  assert (Hs : stage exact_renames OnlyNone ∅ clean_repo = Ok clean_repo)
    by (vm_compute; reflexivity).
  assert (Hd : diff_head exact_renames clean_repo = Ok ∅)
    by (vm_compute; reflexivity).
  destruct (proj2 (empty_commit_policy exact_renames t0 (lit "0.8.2")
                     (lit "https://github.com/swissdatasciencecenter")
                     (lit "/usr/bin/renku") demo_argv (fun a => a)
                     OnlyDiff true MsgNone (fun r => Done r) clean_repo)
              Hh Hw eq_refl) as [H1 H2].
  destruct (proj1 (empty_commit_policy exact_renames t0 (lit "0.8.2")
                     (lit "https://github.com/swissdatasciencecenter")
                     (lit "/usr/bin/renku") demo_argv (fun a => a)
                     OnlyNone false MsgNone (fun r => Done r) clean_repo)
              ∅ clean_repo clean_repo clean_repo ∅
              eq_refl eq_refl Hs Hd dom_empty_L) as [H3 _].
  split; [exact Hh|]. split; [exact Hw|]. split; [exact H1|].
  split; [exact H2|]. split; [exact Hd|exact H3].
Defined.

(** A command that changes nothing, next to the untracked [old.txt]:
    nothing differs from HEAD when the command is through, but with no
    scope given [commit] stages [old.txt] and commits it. *)
Lemma empty_commit_counterexample :
  ~ empty_commit_claim exact_renames t0 (lit "0.8.2")
      (lit "https://github.com/swissdatasciencecenter")
      (lit "/usr/bin/renku") demo_argv (fun a => a)
      OnlyNone true MsgNone (fun r => Done r) demo_repo.
Proof.
  intros H.
  destruct (H ∅ demo_repo demo_repo ∅ eq_refl eq_refl
              ltac:(vm_compute; reflexivity) dom_empty_L) as (r' & _ & Hc).
  vm_compute in Hc. discriminate.
Qed.

Example empty_commit_stages_untracked :
  match demo_commit_ OnlyNone false true MsgNone (fun r => Done r)
          demo_repo with
  | Done r' => c_tree <$> head (log r')
  | Failed _ _ => None
  end = Some {[ "a" := 1; "old.txt" := 5 ]}.
Proof. vm_compute. reflexivity. Qed.

(** *** The worktree manager *)

Section Worktree.

Variable mkdtemp : string.
Variable uuid4_hex : string.
Variable merge_succeeds : Workspace -> string -> list string -> bool.

Abbreviation worktree_ := (worktree mkdtemp uuid4_hex merge_succeeds).

(** The branch the isolated run works on. *)
Definition isolation_branch (branch_name : option string) : string :=
  str_or branch_name ("renku/run/isolation/" +:+ uuid4_hex).

Lemma git_merge_ok branch args ws ws' :
  git_merge merge_succeeds branch args ws = Ok ws' ->
  ws' = ws /\ branch ∈ branches ws.
Proof.
  unfold git_merge. case_bool_decide; simpl; [|discriminate].
  destruct (merge_succeeds ws branch args); [|discriminate].
  by intros [= <-].
Qed.

Lemma worktree_remove_ok path ws ws' :
  worktree_remove path ws = Ok ws' ->
  (path ∉ dom (worktrees ws')) /\ branches ws' = branches ws.
Proof.
  unfold worktree_remove. case_bool_decide; [|discriminate].
  intros [= <-]. simpl. split; [|done].
  rewrite dom_delete_L. apply not_elem_of_difference. right.
  by apply elem_of_singleton.
Qed.

Lemma branch_delete_ok branch ws ws' :
  branch_delete branch ws = Ok ws' ->
  (branch ∉ branches ws') /\ worktrees ws' = worktrees ws.
Proof.
  unfold branch_delete. case_bool_decide; [|discriminate].
  intros [= <-]. simpl. split; [|done].
  apply not_elem_of_difference. right. by apply elem_of_singleton.
Qed.

(** C5, as the code has it.  After a run that went through (the merge
    included): without a [path] argument the temporary working tree is
    gone; the branch is gone as well when the working tree was made on
    a new branch (any start commit but [NULL_TREE]), and is still there
    when the run started from [NULL_TREE] on an orphan branch.  With a
    [path] argument the repository is exactly as the wrapped code left
    it, the branch still there. *)
Theorem worktree_cleanup path branch_name commit merge_args body ws ws' :
  worktree_ path branch_name commit merge_args body ws = Ok ws' ->
  (path = None ->
   (mkdtemp ∉ dom (worktrees ws'))
   /\ (commit <> NULL_TREE -> isolation_branch branch_name ∉ branches ws')
   /\ (commit = NULL_TREE -> isolation_branch branch_name ∈ branches ws'))
  /\ (forall p, path = Some p ->
        (exists ws1, body ws1 = Ok ws')
        /\ isolation_branch branch_name ∈ branches ws').
Proof.
  unfold worktree, isolation_branch, bind.
  set (b := str_or branch_name _).
  set (created := match commit with NULL_TREE => _ | _ => _ end).
  assert (Hnew : forall ws1 nb, created = Ok (ws1, nb) ->
                 commit <> NULL_TREE -> nb = true).
  { subst created. intros ws1 nb. destruct commit; try done;
      destruct (worktree_add_branch _ _ _); by intros [= <- <-]. }
  assert (Horphan : forall ws1 nb, created = Ok (ws1, nb) ->
                    commit = NULL_TREE -> nb = false).
  { subst created. intros ws1 nb H ->. unfold bind in H.
    destruct (worktree_add_detach _ _) as [ws0|]; [|discriminate].
    destruct (checkout_orphan _ _ _); [|discriminate].
    by injection H as _ <-. }
  destruct created as [[ws1 nb]|e]; [|discriminate]. cbn [fst snd].
  destruct (body ws1) as [ws2|e] eqn:Hbody; [|discriminate].
  destruct (git_merge _ b merge_args ws2) as [ws3|e] eqn:Hm; [|discriminate].
  apply git_merge_ok in Hm as [-> Hb].
  destruct path as [p|]; cbn [bool_decide decide_rel]; simpl.
  - intros [= <-]. split; [done|]. intros p' _. eauto.
  - destruct (worktree_remove mkdtemp ws2) as [ws4|e] eqn:Hr; [|discriminate].
    apply worktree_remove_ok in Hr as [Hr Hbr].
    intros H. split; [|done]. intros _.
    destruct nb.
    + apply branch_delete_ok in H as [H1 H2].
      split; [by rewrite H2|]. split; [done|].
      intros Hc. by specialize (Horphan _ _ eq_refl Hc).
    + injection H as <-. split; [done|]. split.
      * intros Hc. by specialize (Hnew _ _ eq_refl Hc).
      * intros _. by rewrite Hbr.
Qed.

(** C5 as the specification words it: without a [path] argument both
    the working tree and the branch are gone. *)
Definition cleanup_claim branch_name commit merge_args
    (body : Workspace -> result wexn Workspace) (ws : Workspace) : Prop :=
  forall ws',
    worktree_ None branch_name commit merge_args body ws = Ok ws' ->
    (mkdtemp ∉ dom (worktrees ws'))
    /\ (isolation_branch branch_name ∉ branches ws').

End Worktree.

(** A repository with the branch [master]; the wrapped code commits on
    the branch its working tree is on, which brings an unborn branch
    into being. *)
Definition master_only : Workspace := mkWorkspace {[ "master" ]} ∅.

Definition commit_in (path : string) (ws : Workspace)
  : result wexn Workspace :=
  match worktrees ws !! path with
  | Some (Some b) => Ok (mkWorkspace ({[ b ]} ∪ branches ws) (worktrees ws))
  | _ => Ok ws
  end.

Lemma worktree_cleanup_witness :
  worktree "/tmp/tmpk3" "c0ffee" (fun _ _ _ => true) None None CommitNone
    ["--ff-only"] (commit_in "/tmp/tmpk3") master_only = Ok master_only
  /\ ((@None string = None ->
       ("/tmp/tmpk3" ∉ dom (worktrees master_only))
       /\ (CommitNone <> NULL_TREE ->
           isolation_branch "c0ffee" None ∉ branches master_only)
       /\ (CommitNone = NULL_TREE ->
           isolation_branch "c0ffee" None ∈ branches master_only))
      /\ (forall p, @None string = Some p ->
            (exists ws1, commit_in "/tmp/tmpk3" ws1 = Ok master_only)
            /\ isolation_branch "c0ffee" None ∈ branches master_only)).
Proof.
  assert (H : worktree "/tmp/tmpk3" "c0ffee" (fun _ _ _ => true) None None
                CommitNone ["--ff-only"] (commit_in "/tmp/tmpk3") master_only
              = Ok master_only) by (vm_compute; reflexivity).
  split; [exact H|].
  exact (worktree_cleanup "/tmp/tmpk3" "c0ffee" (fun _ _ _ => true) None None
           CommitNone ["--ff-only"] (commit_in "/tmp/tmpk3") master_only
           master_only H).
Defined.

(** Started from [NULL_TREE], the run leaves its branch behind. *)
Lemma cleanup_counterexample :
  ~ cleanup_claim "/tmp/tmpk3" "c0ffee" (fun _ _ _ => true) None NULL_TREE
      ["--allow-unrelated-histories"] (commit_in "/tmp/tmpk3") master_only.
Proof.
  intros H.
  destruct (H (mkWorkspace {[ "renku/run/isolation/c0ffee"; "master" ]} ∅))
    as [_ Hb]; [vm_compute; reflexivity|].
  apply Hb. vm_compute. set_solver.
Qed.

End GitSpec.

(** ** More on the commit engine *)

Module GitFacts.
Import Git GitClean.

(** The repository an outcome leaves. *)
Definition repo_of (o : outcome) : Repo :=
  match o with Done r | Failed _ r => r end.

Lemma working_tree_stage detect_renames co db r r1 :
  stage detect_renames co db r = Ok r1 -> working_tree r1 = working_tree r.
Proof.
  unfold stage, bind.
  destruct co as [| |paths].
  - by intros [= <-].
  - destruct (diff_selection detect_renames db r) as [[cts sel]|e]; [|discriminate].
    cbn [fst snd]. intros [= <-].
    destruct sel; [reflexivity | apply GitSpec.working_tree_stage_paths].
  - cbn [fst snd]. intros [= <-].
    destruct paths; [reflexivity | apply GitSpec.working_tree_stage_paths].
Qed.

(** [is_dirty] in terms of the three trees. *)
Lemma is_dirty_false (r : Repo) :
  is_dirty r = false
  <-> index r = default ∅ (head_tree r)
      /\ content <$> working_tree r = index r.
Proof.
  unfold is_dirty. rewrite !orb_false_iff, !GitSpec.set_truthy_false.
  rewrite !dom_empty_iff_L, GitSpec.merge_diff_empty, <- GitSpec.worktree_matches_index.
  split.
  - intros [[H1 H2] H3]. repeat split; try done.
    by destruct (untracked_files r).
  - intros [H1 [H2 H3]]. repeat split; try done. by rewrite H2.
Qed.

Lemma dirty_paths_empty (r : Repo) :
  content <$> working_tree r = index r -> dirty_paths r = ∅.
Proof.
  intros H. apply GitSpec.worktree_matches_index in H as [Hu Hd].
  unfold dirty_paths, modified_paths. rewrite Hu, Hd, dom_empty_L.
  by rewrite elements_empty.
Qed.

Section Engine.

Variable detect_renames :
  gmap string N -> gmap string N -> list (string * string).
Variable STARTED_AT : Z.
Variable version version_url : pystr.
Variable argv0 : pystr.
Variable argv_rest : list pystr.
Variable remove_credentials : pystr -> pystr.

Abbreviation commit_ :=
  (commit detect_renames STARTED_AT version version_url argv0 argv_rest
     remove_credentials).
Abbreviation committer_ := (lit "renku " ++ version, version_url).

Lemma commit_enter_keeps co r db r0 :
  commit_enter detect_renames STARTED_AT co r = Ok (db, r0) ->
  working_tree r0 = working_tree r /\ log r0 = log r.
Proof.
  unfold commit_enter, bind. destruct co as [| |paths].
  - by intros [= _ <-].
  - destruct (diff_head detect_renames r); [|discriminate].
    intros [= _ <-]. by destruct (_ || _).
  - destruct (foldl _ _ _); [|discriminate]. by intros [= _ <-].
Qed.

(** How [commit] ends, by the stage its run got to. *)
Lemma commit_cases co ce rie m body r :
  let o := commit_ co ce rie m body r in
  (exists e, commit_enter detect_renames STARTED_AT co r = Raise e /\ o = Failed e r)
  \/ (exists db r0,
        commit_enter detect_renames STARTED_AT co r = Ok (db, r0)
        /\ ((exists e rb, body r0 = Failed e rb /\ o = Failed e rb)
            \/ (exists rb,
                  body r0 = Done rb
                  /\ ((exists e, stage detect_renames co db rb = Raise e /\ o = Failed e rb)
                      \/ (exists r1,
                            stage detect_renames co db rb = Ok r1
                            /\ ((exists e, o = Failed e r1)
                                \/ (o = Done r1
                                    /\ nothing_to_commit detect_renames ce r1 = Ok true)
                                \/ (exists message,
                                      o = Done (index_commit message
                                                  committer_ r1)))))))).
Proof.
  unfold commit, commit_exit. simpl.
  destruct (commit_enter detect_renames STARTED_AT co r) as [[db r0]|e]; [right|left; eauto].
  exists db, r0. split; [done|].
  destruct (body r0) as [rb|e rb]; [right|left; eauto].
  exists rb. split; [done|].
  destruct (stage detect_renames co db rb) as [r1|e]; [right|left; eauto].
  exists r1. split; [done|].
  destruct (nothing_to_commit detect_renames ce r1) as [[]|e]; [|..]; eauto.
  - destruct rie; eauto.
  - destruct (resolve_message _ _ _ m); eauto.
Qed.

(** X1.  [commit] does not write to the working tree: the files it
    ends with are the files the wrapped code left, or the files it
    started with when the wrapped code did not run. *)
Theorem commit_keeps_working_tree co ce rie m body r :
  working_tree (repo_of (commit_ co ce rie m body r))
  = match commit_enter detect_renames STARTED_AT co r with
    | Ok (_, r0) => working_tree (repo_of (body r0))
    | Raise _ => working_tree r
    end.
Proof.
  destruct (commit_cases co ce rie m body r)
    as [(e & -> & ->) | (db & r0 & -> & Hrest)]; [done|].
  destruct Hrest as [(e & rb & -> & ->) | (rb & -> & Hrest)]; [done|].
  destruct Hrest as [(e & _ & ->) | (r1 & Hs & Hrest)]; [done|].
  apply working_tree_stage in Hs. simpl.
  destruct Hrest as [(e & ->) | [(-> & _) | (message & ->)]]; by simpl.
Qed.

(** X2.  [commit] adds at most one commit, on top of the history the
    wrapped code left; the tree of that commit is the index [commit]
    ends with and its committer is renku. *)
Theorem commit_adds_one_commit co ce rie m body r :
  let o := commit_ co ce rie m body r in
  match commit_enter detect_renames STARTED_AT co r with
  | Raise _ => log (repo_of o) = log r
  | Ok (_, r0) =>
      log (repo_of o) = log (repo_of (body r0))
      \/ exists message,
           log (repo_of o)
           = mkCommit message committer_ (index (repo_of o))
               :: log (repo_of (body r0))
  end.
Proof.
  simpl.
  destruct (commit_cases co ce rie m body r)
    as [(e & -> & ->) | (db & r0 & -> & Hrest)]; [done|].
  destruct Hrest as [(e & rb & -> & ->) | (rb & -> & Hrest)]; [by left|].
  destruct Hrest as [(e & _ & ->) | (r1 & Hs & Hrest)]; [by left|].
  apply GitSpec.log_stage in Hs. simpl.
  destruct Hrest as [(e & ->) | [(-> & _) | (message & ->)]]; simpl.
  - by left.
  - by left.
  - right. exists message. by rewrite Hs.
Qed.

Lemma is_dirty_committed message committer r :
  content <$> working_tree r = index r ->
  is_dirty (index_commit message committer r) = false.
Proof. intros H. by apply is_dirty_false. Qed.

(** X3.  With no commit scope (everything is committed), a run of
    [commit] that goes through leaves a clean repository: HEAD, index
    and working tree agree, so that [ensure_clean] passes in either
    mode. *)
Theorem commit_all_leaves_clean sys_fstat os_stat now ce rie m body r r' :
  commit_ OnlyNone ce rie m body r = Done r' ->
  is_dirty r' = false
  /\ forall ignore_std_streams,
       ensure_clean sys_fstat os_stat now ignore_std_streams r' = Done r'.
Proof.
  intros H.
  assert (Hclean : is_dirty r' = false).
  { destruct (commit_cases OnlyNone ce rie m body r)
      as [(e & _ & Ho) | (db & r0 & _ & Hrest)]; [congruence|].
    destruct Hrest as [(e & rb & _ & Ho) | (rb & _ & Hrest)]; [congruence|].
    destruct Hrest as [(e & _ & Ho) | (r1 & Hs & Hrest)]; [congruence|].
    unfold stage in Hs. simpl in Hs. injection Hs as <-.
    destruct Hrest as [(e & Ho) | [(Ho & Hn) | (message & Ho)]];
      [congruence| |].
    - rewrite H in Ho. injection Ho as ->.
      unfold nothing_to_commit, bind in Hn.
      destruct ce; [discriminate|]. simpl in Hn.
      destruct (diff_head detect_renames (git_add_all rb)) as [d|e] eqn:Hd;
        [|discriminate].
      injection Hn as Hn. apply negb_true_iff, GitSpec.set_truthy_false in Hn.
      destruct (head_tree (git_add_all rb)) as [h|] eqn:Hh.
      2:{ unfold diff_head in Hd. by rewrite Hh in Hd. }
      apply (GitSpec.diff_head_empty _ _ _ _ Hh Hd) in Hn.
      apply is_dirty_false. by rewrite Hh.
    - rewrite H in Ho. injection Ho as ->.
      by apply is_dirty_committed. }
  split; [exact Hclean|].
  intros ign. unfold ensure_clean.
  pose proof (proj2 (proj1 (is_dirty_false r') Hclean)) as Hw.
  rewrite (dirty_paths_empty _ Hw), Hclean, empty_difference_L.
  rewrite GitSpec.set_truthy_empty. by destruct ign.
Qed.


(** X5.  In a repository without commits the diff strategy fails with
    BadName before the wrapped code runs, while the check of a listed
    path against the staged files is skipped. *)
Theorem no_commit_yet ce rie m body r :
  log r = [] ->
  commit_ OnlyDiff ce rie m body r = Failed BadName r
  /\ forall path, ensure_unstaged detect_renames path r = Ok tt.
Proof.
  intros H. unfold commit, commit_enter, ensure_unstaged, diff_head,
    head_tree. by rewrite H.
Qed.

Section Clean.

Variable sys_fstat : string -> option (Z * Z).
Variable os_stat : string -> option (Z * Z).
Variable now : Z.

Lemma clean_stream_keeps mapped r name :
  log (clean_stream now mapped r name) = log r
  /\ index (clean_stream now mapped r name) = index r.
Proof.
  unfold clean_stream.
  destruct (mapped !! name) as [[|a s]|]; [done| |done].
  by destruct (index r !! _).
Qed.

Lemma clean_streams_keeps mapped r :
  log (_clean_streams now r mapped) = log r
  /\ index (_clean_streams now r mapped) = index r.
Proof.
  unfold _clean_streams. simpl.
  destruct (clean_stream_keeps mapped r "stdout") as [H1 H2].
  destruct (clean_stream_keeps mapped
              (clean_stream now mapped r "stdout") "stderr") as [H3 H4].
  split; congruence.
Qed.

(** X6.  Without [ignore_std_streams], [ensure_clean] passes when the
    index is the tree of HEAD (the empty tree before the first commit)
    and the working tree holds the files of the index and no other; and
    when it passes, the index is the tree of HEAD and no file of the
    index is changed or missing in the working tree. *)
Theorem ensure_clean_strict r :
  (index r = default ∅ (head_tree r) ->
   content <$> working_tree r = index r ->
   ensure_clean sys_fstat os_stat now false r = Done r)
  /\ (ensure_clean sys_fstat os_stat now false r = Done r ->
      index r = default ∅ (head_tree r) /\ diff_worktree r = ∅).
Proof.
  unfold ensure_clean. destruct (is_dirty r) eqn:E.
  - split; [|discriminate]. intros H1 H2.
    by rewrite (proj2 (is_dirty_false r) (conj H1 H2)) in E.
  - split; [done|]. intros _.
    apply is_dirty_false in E as [H1 H2]. split; [exact H1|].
    by apply GitSpec.worktree_matches_index in H2 as [_ H2].
Qed.

(** X7.  With [ignore_std_streams], [ensure_clean] looks at the
    untracked and the modified files only: when the working tree holds
    the files of the index and no other it passes, whatever is staged
    against HEAD. *)
Theorem ensure_clean_ignores_staged r :
  content <$> working_tree r = index r ->
  ensure_clean sys_fstat os_stat now true r = Done r.
Proof.
  intros H. unfold ensure_clean.
  rewrite (dirty_paths_empty _ H), empty_difference_L.
  by rewrite GitSpec.set_truthy_empty.
Qed.

Lemma standard_inos_fold (l : list string) (m : gmap (Z * Z) string) key :
  is_Some (m !! key)
  \/ (exists stream, stream ∈ l /\ sys_fstat stream = Some key) ->
  is_Some (foldl (fun inos stream =>
                    match sys_fstat stream with
                    | Some key => <[key := stream]> inos
                    | None => inos
                    end) m l !! key).
Proof.
  revert m. induction l as [|a l IH]; intros m H; simpl.
  - destruct H as [H | (s & Hs & _)]; [done|].
    by apply not_elem_of_nil in Hs.
  - apply IH. destruct H as [H | (s & Hs & Hk)].
    + left. destruct (sys_fstat a) as [k|]; [|done].
      apply lookup_insert_is_Some. destruct (decide (k = key)); auto.
    + apply elem_of_cons in Hs as [-> | Hs]; [|right; eauto].
      left. rewrite Hk. rewrite lookup_insert_eq. eauto.
Qed.

Lemma standard_inos_lookup stream key :
  stream ∈ ["stdin"; "stdout"; "stderr"] ->
  sys_fstat stream = Some key ->
  exists s, standard_inos sys_fstat !! key = Some s.
Proof.
  intros Hs Hk. apply (standard_inos_fold _ ∅ key). right. eauto.
Qed.

(** X8.  A repository whose only untracked or modified path is a file
    that a standard stream of the process is redirected to passes
    [ensure_clean] with [ignore_std_streams]. *)
Theorem ensure_clean_ignores_stream r f stream key :
  dirty_paths r = {[ f ]} ->
  stream ∈ ["stdin"; "stdout"; "stderr"] ->
  sys_fstat stream = Some key ->
  os_stat f = Some key ->
  ensure_clean sys_fstat os_stat now true r = Done r.
Proof.
  intros Hd Hs Hk Hf.
  destruct (standard_inos_lookup _ _ Hs Hk) as [s Hl].
  unfold ensure_clean, _mapped_std_streams.
  rewrite Hd, elements_singleton.
  rewrite bool_decide_eq_false_2.
  2:{ intros He. by rewrite He, lookup_empty in Hl. }
  unfold stream_inos. simpl. rewrite Hf, Hl.
  unfold dict_of. simpl. rewrite insert_empty, map_to_list_singleton.
  simpl. replace (_ ∖ _) with (∅ : gset string).
  - by rewrite GitSpec.set_truthy_empty.
  - symmetry. apply subseteq_empty_difference_L.
    intros x Hx. apply elem_of_singleton in Hx as ->.
    apply elem_of_union_l. by apply elem_of_singleton.
Qed.

(** X9.  A transaction that asks for a clean repository and finds the
    index, HEAD or working tree out of step fails with DirtyRepository
    without running the wrapped code: the outcome does not depend on
    it, and history and index are as before. *)
Theorem transaction_dirty commit ce msg co rie utd body r :
  is_dirty r = true ->
  let r' := _clean_streams now r (_mapped_std_streams sys_fstat os_stat
                (elements (dirty_paths r))) in
  transaction detect_renames sys_fstat os_stat now STARTED_AT version version_url argv0
    argv_rest remove_credentials true commit ce msg co false rie utd body r
  = Failed (DirtyRepository r') r'
  /\ log r' = log r /\ index r' = index r.
Proof.
  intros H. simpl. unfold transaction, ensure_clean. rewrite H.
  split; [done|]. apply clean_streams_keeps.
Qed.

End Clean.

End Engine.

(** *** The worktree manager *)

Section Isolation.

Variable mkdtemp : string.
Variable uuid4_hex : string.
Variable merge_succeeds : Workspace -> string -> list string -> bool.

(** X10.  When [worktree] fails with FailedMerge (and that error is not
    one the wrapped code raised itself), the error names the branch of
    the run and the merge arguments it was given, the merge of that
    branch was indeed refused, and the repository it carries is the one
    the wrapped code left: nothing has been cleaned up. *)
Theorem worktree_failed_merge path branch_name commit merge_args body ws
    ws' b' args' :
  worktree mkdtemp uuid4_hex merge_succeeds path branch_name commit
    merge_args body ws = Raise (FailedMerge ws' b' args') ->
  (forall ws1, body ws1 <> Raise (FailedMerge ws' b' args')) ->
  b' = str_or branch_name ("renku/run/isolation/" +:+ uuid4_hex)
  /\ args' = merge_args
  /\ (exists ws1, body ws1 = Ok ws')
  /\ (b' ∈ branches ws' -> merge_succeeds ws' b' merge_args = false).
Proof.
  unfold worktree, bind.
  set (b := str_or branch_name _).
  set (created := match commit with NULL_TREE => _ | _ => _ end).
  assert (Hc : forall e, created = Raise e -> e = GitCommandError).
  { subst created. intros e. destruct commit; simpl.
    - unfold worktree_add_branch. destruct (_ || _); by intros [= <-].
    - unfold worktree_add_detach, checkout_orphan, bind.
      case_bool_decide; [by intros [= <-]|]. simpl.
      case_bool_decide; by intros [= <-].
    - unfold worktree_add_branch. destruct (_ || _); by intros [= <-]. }
  destruct created as [[ws1 nb]|e].
  2:{ rewrite (Hc e eq_refl). discriminate. }
  cbn [fst snd]. intros H Hbody.
  destruct (body ws1) as [ws2|e] eqn:Hb.
  2:{ injection H as ->. by destruct (Hbody ws1). }
  unfold git_merge in H.
  destruct (bool_decide (b ∈ branches ws2) && merge_succeeds ws2 b merge_args)
    eqn:Hm.
  - exfalso. destruct (bool_decide (path = None)); [|discriminate].
    unfold worktree_remove in H. case_bool_decide; [|discriminate].
    simpl in H. destruct nb; [|discriminate].
    unfold branch_delete in H. by case_bool_decide.
  - injection H as <- <- <-. repeat split; eauto.
    intros Hin. rewrite bool_decide_eq_true_2 in Hm by done. done.
Qed.

End Isolation.

(** *** Runs *)

Definition run_commit :=
  commit GitSpec.exact_renames 5000 (lit "0.8.2") (lit "https://renku.example") (lit "renku")
    [lit "run"] (fun a => a).

Definition base_commit : Commit :=
  mkCommit (lit "init") (lit "me", lit "me@example.com") {[ "a" := 1 ]}.

(** One commit with [a]; [b] is new in the working tree. *)
Definition repo_with_new_file : Repo :=
  mkRepo [base_commit] {[ "a" := 1 ]}
    {[ "a" := mkFile 1 0; "b" := mkFile 2 0 ]}.

(** The same with [b] staged. *)
Definition repo_with_staged_file : Repo :=
  mkRepo [base_commit] {[ "a" := 1; "b" := 2 ]}
    {[ "a" := mkFile 1 0; "b" := mkFile 2 0 ]}.

(** Before the first commit. *)
Definition repo_without_commit : Repo :=
  mkRepo [] {[ "a" := 1 ]} {[ "a" := mkFile 1 0 ]}.

(** Standard output goes to [b]. *)
Definition stdout_to_b (stream : string) : option (Z * Z) :=
  if String.eqb stream "stdout" then Some (1, 42)%Z else None.
Definition stat_b (path : string) : option (Z * Z) :=
  if String.eqb path "b" then Some (1, 42)%Z else Some (1, 7)%Z.

Lemma commit_all_leaves_clean_witness :
  exists r',
    run_commit OnlyNone true false MsgNone (fun r => Done r)
      repo_with_new_file = Done r'
    /\ is_dirty r' = false
    /\ forall ignore_std_streams,
         ensure_clean stdout_to_b stat_b 9000 ignore_std_streams r' = Done r'.
Proof.
  eexists. split; [vm_compute; reflexivity|].
  apply (commit_all_leaves_clean GitSpec.exact_renames 5000 (lit "0.8.2")
           (lit "https://renku.example") (lit "renku") [lit "run"]
           (fun a => a) stdout_to_b stat_b 9000 true false MsgNone
           (fun r => Done r) repo_with_new_file).
  vm_compute; reflexivity.
Defined.

Lemma no_commit_yet_witness :
  log repo_without_commit = []
  /\ run_commit OnlyDiff true false MsgNone (fun r => Done r)
       repo_without_commit = Failed BadName repo_without_commit
  /\ forall path, ensure_unstaged GitSpec.exact_renames path repo_without_commit = Ok tt.
Proof.
  split; [reflexivity|].
  exact (no_commit_yet GitSpec.exact_renames 5000 (lit "0.8.2") (lit "https://renku.example")
           (lit "renku") [lit "run"] (fun a => a) true false MsgNone
           (fun r => Done r) repo_without_commit eq_refl).
Defined.

Lemma ensure_clean_ignores_staged_witness :
  content <$> working_tree repo_with_staged_file
  = index repo_with_staged_file
  /\ ensure_clean stdout_to_b stat_b 9000 true repo_with_staged_file
     = Done repo_with_staged_file.
Proof.
  assert (H : content <$> working_tree repo_with_staged_file
              = index repo_with_staged_file) by (vm_compute; reflexivity).
  split; [exact H|].
  exact (ensure_clean_ignores_staged stdout_to_b stat_b 9000
           repo_with_staged_file H).
Defined.

Lemma ensure_clean_strict_witness :
  index GitSpec.clean_repo = default ∅ (head_tree GitSpec.clean_repo)
  /\ content <$> working_tree GitSpec.clean_repo = index GitSpec.clean_repo
  /\ ensure_clean stdout_to_b stat_b 9000 false GitSpec.clean_repo
     = Done GitSpec.clean_repo
  /\ diff_worktree GitSpec.clean_repo = ∅.
Proof.
  assert (H1 : index GitSpec.clean_repo
               = default ∅ (head_tree GitSpec.clean_repo))
    by (vm_compute; reflexivity).
  assert (H2 : content <$> working_tree GitSpec.clean_repo
               = index GitSpec.clean_repo)
    by (vm_compute; reflexivity).
  destruct (ensure_clean_strict stdout_to_b stat_b 9000 GitSpec.clean_repo)
    as [Hpass Hclean].
  split; [exact H1|]. split; [exact H2|].
  split; [exact (Hpass H1 H2)|].
  exact (proj2 (Hclean (Hpass H1 H2))).
Defined.

(** The strict check rejects the same repository. *)
Example ensure_clean_strict_staged :
  ensure_clean stdout_to_b stat_b 9000 false repo_with_staged_file
  = Failed (DirtyRepository repo_with_staged_file) repo_with_staged_file.
Proof. vm_compute. reflexivity. Qed.

Lemma ensure_clean_ignores_stream_witness :
  dirty_paths repo_with_new_file = {[ "b" ]}
  /\ "stdout" ∈ ["stdin"; "stdout"; "stderr"]
  /\ stdout_to_b "stdout" = Some (1, 42)%Z
  /\ stat_b "b" = Some (1, 42)%Z
  /\ ensure_clean stdout_to_b stat_b 9000 true repo_with_new_file
     = Done repo_with_new_file.
Proof.
  assert (Hd : dirty_paths repo_with_new_file = {[ "b" ]})
    by (vm_compute; reflexivity).
  assert (Hs : "stdout" ∈ ["stdin"; "stdout"; "stderr"])
    by (right; left).
  split; [exact Hd|]. split; [exact Hs|].
  split; [reflexivity|]. split; [reflexivity|].
  exact (ensure_clean_ignores_stream stdout_to_b stat_b 9000
           repo_with_new_file "b" "stdout" (1, 42)%Z Hd Hs eq_refl eq_refl).
Defined.

Lemma transaction_dirty_witness :
  is_dirty repo_with_new_file = true
  /\ transaction GitSpec.exact_renames stdout_to_b stat_b 9000 5000 (lit "0.8.2")
       (lit "https://renku.example") (lit "renku") [lit "run"] (fun a => a)
       true true true MsgNone OnlyNone false false false
       (fun r => Done r) repo_with_new_file
     = Failed
         (DirtyRepository
            (mkRepo [base_commit] {[ "a" := 1 ]} {[ "a" := mkFile 1 0 ]}))
         (mkRepo [base_commit] {[ "a" := 1 ]} {[ "a" := mkFile 1 0 ]}).
Proof.
  assert (H : is_dirty repo_with_new_file = true) by (vm_compute; reflexivity).
  split; [exact H|].
  destruct (transaction_dirty GitSpec.exact_renames 5000 (lit "0.8.2")
              (lit "https://renku.example") (lit "renku") [lit "run"]
              (fun a => a) stdout_to_b stat_b 9000 true true MsgNone OnlyNone
              false false (fun r => Done r) repo_with_new_file H)
    as [Ht _].
  rewrite Ht. vm_compute. reflexivity.
Defined.

(** A run whose merge is refused. *)
Definition only_master : Workspace := mkWorkspace {[ "master" ]} ∅.

Definition stopped_run : Workspace :=
  mkWorkspace {[ "renku/run/isolation/c0ffee"; "master" ]}
    {[ "/tmp/tmpk3" := Some "renku/run/isolation/c0ffee" ]}.

Lemma worktree_failed_merge_witness :
  worktree "/tmp/tmpk3" "c0ffee" (fun _ _ _ => false) None None CommitNone
    ["--ff-only"] (fun ws => Ok ws) only_master
  = Raise (FailedMerge stopped_run "renku/run/isolation/c0ffee" ["--ff-only"])
  /\ "renku/run/isolation/c0ffee"
     = str_or None ("renku/run/isolation/" +:+ "c0ffee")
  /\ ["--ff-only"] = ["--ff-only"]
  /\ (exists ws1, (fun ws : Workspace => @Ok wexn _ ws) ws1 = Ok stopped_run)
  /\ ("renku/run/isolation/c0ffee" ∈ branches stopped_run ->
      (fun (_ : Workspace) (_ : string) (_ : list string) => false)
        stopped_run "renku/run/isolation/c0ffee" ["--ff-only"] = false).
Proof.
  assert (H : worktree "/tmp/tmpk3" "c0ffee" (fun _ _ _ => false) None None
                CommitNone ["--ff-only"] (fun ws => Ok ws) only_master
              = Raise (FailedMerge stopped_run "renku/run/isolation/c0ffee"
                         ["--ff-only"])) by (vm_compute; reflexivity).
  split; [exact H|].
  apply (worktree_failed_merge "/tmp/tmpk3" "c0ffee" (fun _ _ _ => false)
           None None CommitNone ["--ff-only"] (fun ws => Ok ws) only_master
           stopped_run "renku/run/isolation/c0ffee" ["--ff-only"] H).
  intros ws1. discriminate.
Defined.

End GitFacts.

(** ** More on Person *)

Module AgentsFacts.
Import Agents AgentsMore.

(** *** Runs of characters *)

Lemma take_while_app (p : N -> bool) (l s : pystr) :
  Forall (fun c => p c = true) l ->
  take_while p (l ++ s) = l ++ take_while p s.
Proof.
  induction 1 as [|c l Hc _ IH]; [done|]. simpl. by rewrite Hc, IH.
Qed.

Lemma drop_while_app (p : N -> bool) (l s : pystr) :
  Forall (fun c => p c = true) l ->
  drop_while p (l ++ s) = drop_while p s.
Proof.
  induction 1 as [|c l Hc _ IH]; [done|]. simpl. by rewrite Hc, IH.
Qed.

Lemma take_while_all (p : N -> bool) (l : pystr) :
  Forall (fun c => p c = true) l -> take_while p l = l.
Proof.
  intros H. rewrite <- (app_nil_r l) at 1.
  by rewrite take_while_app, app_nil_r.
Qed.

Lemma take_while_Forall (p : N -> bool) (s : pystr) :
  Forall (fun c => p c = true) (take_while p s).
Proof.
  induction s as [|c s IH]; simpl; [constructor|].
  destruct (p c) eqn:E; by constructor.
Qed.

Lemma take_drop_while (p : N -> bool) (s : pystr) :
  take_while p s ++ drop_while p s = s.
Proof.
  induction s as [|c s IH]; simpl; [done|].
  destruct (p c); simpl; by rewrite ?IH.
Qed.

Lemma drop_while_head (p : N -> bool) (s : pystr) c rest :
  drop_while p s = c :: rest -> p c = false.
Proof.
  induction s as [|d s IH]; simpl; [done|].
  destruct (p d) eqn:E; [done|]. by intros [= <- _].
Qed.

(** A dot inside: the string is a non-empty part, a dot and another
    non-empty part. *)
Lemma inner_dot_spec (s : pystr) :
  inner_dot s = true
  <-> exists a b, s = a ++ [46] ++ b /\ a <> [] /\ b <> [].
Proof.
  split.
  - induction s as [|x s IH]; [done|]. simpl.
    destruct s as [|c [|d s]]; try done.
    intros H. apply orb_true_iff in H as [H | H].
    + apply N.eqb_eq in H as ->. by exists [x], (d :: s).
    + destruct (IH H) as (a & b & Hs & Ha & Hb).
      exists (x :: a), b. by rewrite Hs.
  - intros (a & b & -> & Ha & Hb).
    induction a as [|x a IH]; [done|].
    destruct a as [|y a].
    + destruct b as [|d b]; [done|]. reflexivity.
    + specialize (IH ltac:(done)).
      change ((x :: y :: a) ++ [46] ++ b)
        with (x :: ((y :: a) ++ [46] ++ b)).
      remember ((y :: a) ++ [46] ++ b) as s1 eqn:Hs1.
      destruct s1 as [|c [|d s1]].
      * discriminate.
      * exfalso. injection Hs1 as _ Hs1. by destruct a.
      * cbn [inner_dot]. cbn [inner_dot] in IH. rewrite IH.
        by rewrite orb_true_r.
Qed.

Lemma not_at_Forall (l : pystr) :
  64 ∉ l <-> Forall (fun c => not_at c = true) l.
Proof.
  rewrite Forall_forall. unfold not_at. split.
  - intros H c Hc. apply negb_true_iff, N.eqb_neq. by intros ->.
  - intros H Hin. specialize (H _ Hin). by rewrite N.eqb_refl in H.
Qed.

(** The test of [check_email] accepts exactly the values that begin
    with [x@y.z] for non-empty [x], [y], [z] without [@]. *)
Lemma email_re_match_spec (v : pystr) :
  email_re_match v = true
  <-> exists l a b t,
        v = l ++ [64] ++ a ++ [46] ++ b ++ t
        /\ l <> [] /\ a <> [] /\ b <> []
        /\ (64 ∉ l) /\ (64 ∉ a) /\ (64 ∉ b).
Proof.
  unfold email_re_match. split.
  - destruct (take_while not_at v) as [|c l] eqn:Hl; [done|].
    destruct (drop_while not_at v) as [|c' rest] eqn:Hr; [done|].
    intros H. apply inner_dot_spec in H as (a & b & Hd & Ha & Hb).
    pose proof (take_drop_while not_at v) as Hv. rewrite Hl, Hr in Hv.
    pose proof (take_drop_while not_at rest) as Hrest. rewrite Hd in Hrest.
    pose proof (drop_while_head _ _ _ _ Hr) as Hc'.
    apply negb_false_iff, N.eqb_eq in Hc'. subst c'.
    pose proof (take_while_Forall not_at v) as Fl. rewrite Hl in Fl.
    pose proof (take_while_Forall not_at rest) as Fd. rewrite Hd in Fd.
    apply Forall_app in Fd as [Fa Fb]. apply Forall_cons in Fb as [_ Fb].
    exists (c :: l), a, b, (drop_while not_at rest).
    split.
    { rewrite <- Hv. f_equal. simpl. f_equal.
      rewrite <- Hrest at 1. by rewrite <- !app_assoc. }
    split; [done|]. split; [done|]. split; [done|].
    split; [by apply not_at_Forall|].
    split; by apply not_at_Forall.
  - intros (l & a & b & t & -> & Hl & Ha & Hb & Nl & Na & Nb).
    apply not_at_Forall in Nl, Na, Nb.
    rewrite take_while_app, drop_while_app by done. simpl.
    destruct l as [|c l]; [done|]. simpl.
    replace (a ++ 46 :: b ++ t) with ((a ++ [46] ++ b) ++ t)
      by (by rewrite <- !app_assoc).
    rewrite take_while_app.
    2:{ apply Forall_app. split; [done|]. by constructor. }
    apply inner_dot_spec.
    destruct (take_while not_at t) as [|x t'] eqn:Ht.
    + exists a, b. by rewrite app_nil_r.
    + exists a, (b ++ x :: t'). rewrite <- !app_assoc.
      repeat split; try done. by destruct b.
Qed.

(** A value that begins with [x@y.z], the three parts non-empty and
    without [@]. *)
Definition address_shaped (v : pystr) : Prop :=
  exists l a b t,
    v = l ++ [64] ++ a ++ [46] ++ b ++ t
    /\ l <> [] /\ a <> [] /\ b <> []
    /\ (64 ∉ l) /\ (64 ∉ a) /\ (64 ∉ b).

(** X11.  A [Person] can be built exactly when its email is missing,
    empty, or begins with [x@y.z] for non-empty [x], [y], [z] without
    [@]; any other email is refused with the ValueError of
    [check_email]. *)
Theorem person_email_validation
    (name : pystr) (email label affiliation alternate_name id : option pystr) :
  match email with
  | Some ((_ :: _) as v) =>
      (address_shaped v ->
       exists p,
         Person_init name email label affiliation alternate_name id = Ok p)
      /\ (~ address_shaped v ->
          Person_init name email label affiliation alternate_name id
          = Raise (Agents.ValueError "Email address is invalid."))
  | _ =>
      exists p,
        Person_init name email label affiliation alternate_name id = Ok p
  end.
Proof.
  unfold Person_init, check_email, bind. simpl.
  destruct email as [[|c v]|]; simpl; eauto.
  destruct (email_re_match (c :: v)) eqn:E; simpl.
  - split; [eauto|]. intros H. destruct H. by apply email_re_match_spec.
  - split; [|done]. intros H. apply email_re_match_spec in H. congruence.
Qed.

(** X12.  An identifier given to [Person] is kept as it is, except the
    text [mailto:None], which is replaced by the identifier derived
    from the email or, without email, from the name. *)
Theorem person_explicit_id
    (name : pystr) (email label affiliation alternate_name : option pystr)
    (id : pystr) (p : Person) :
  Person_init name email label affiliation alternate_name (Some id) = Ok p ->
  _id p =
  if bool_decide (id = lit "mailto:None") then
    match email with
    | Some ((_ :: _) as e) => lit "mailto:" ++ e
    | _ => lit "_:" ++ spec_name_token name
    end
  else id.
Proof.
  unfold Person_init, bind. simpl.
  destruct (check_email email email) as [[]|e]; [|discriminate].
  intros [= <-]. unfold attrs_post_init. simpl.
  case_bool_decide; simpl; [apply AgentsSpec.default_id_spec|done].
Qed.

Lemma person_explicit_id_witness :
  Person_init (lit "Jane Doe") None None None None (Some (lit "mailto:None"))
  = Ok (mkPerson (lit "Jane Doe") None (lit "Jane Doe") None None
          (lit "_:janedoe"))
  /\ lit "_:janedoe" = lit "_:" ++ spec_name_token (lit "Jane Doe").
Proof.
  assert (H : Person_init (lit "Jane Doe") None None None None
                (Some (lit "mailto:None"))
              = Ok (mkPerson (lit "Jane Doe") None (lit "Jane Doe") None None
                      (lit "_:janedoe"))) by (vm_compute; reflexivity).
  split; [exact H|].
  exact (person_explicit_id (lit "Jane Doe") None None None None
           (lit "mailto:None") _ H).
Defined.

(** *** short_name *)

Lemma split_ws_aux_words (cur s : pystr) :
  Forall (fun c => isspace c = false) cur ->
  Forall (fun w => w <> [] /\ Forall (fun c => isspace c = false) w)
    (split_ws_aux cur s).
Proof.
  revert cur. induction s as [|c s IH]; intros cur Hcur; simpl.
  - destruct cur as [|d cur]; constructor; [|constructor].
    split; [|by apply Forall_rev].
    intros H. apply (f_equal length) in H.
    rewrite length_rev in H. discriminate.
  - destruct (isspace c) eqn:E.
    + destruct cur as [|d cur]; [by apply IH|].
      constructor; [|by apply IH].
      split; [|by apply Forall_rev].
      intros H. apply (f_equal length) in H.
      rewrite length_rev in H. discriminate.
    + apply IH. by constructor.
Qed.

Lemma split_ws_words (s : pystr) :
  Forall (fun w => w <> [] /\ Forall (fun c => isspace c = false) w)
    (split_ws s).
Proof. by apply split_ws_aux_words. Qed.

Lemma map_first_char (names : list pystr) :
  Forall (fun w => w <> []) names ->
  map_result first_char names = Ok (take 1 <$> names).
Proof.
  induction 1 as [|w names Hw _ IH]; [done|]. simpl.
  destruct w as [|c w]; [done|]. simpl. by rewrite IH.
Qed.

Lemma join_no_space (sep : pystr) (parts : list pystr) :
  Forall (fun c => isspace c = false) sep ->
  Forall (Forall (fun c => isspace c = false)) parts ->
  Forall (fun c => isspace c = false) (join sep parts).
Proof.
  intros Hsep. induction 1 as [|p ps Hp Hps IH]; [constructor|].
  simpl. destruct ps as [|q ps]; [done|].
  apply Forall_app. split; [done|]. apply Forall_app. by split.
Qed.

Lemma removelast_fmap {A B} (f : A -> B) (l : list A) :
  removelast (f <$> l) = f <$> removelast l.
Proof.
  induction l as [|a [|b l] IH]; try done.
  change (removelast (f <$> a :: b :: l))
    with (f a :: removelast (f <$> b :: l)).
  by rewrite IH.
Qed.

Lemma Forall_removelast {A} (P : A -> Prop) (l : list A) :
  Forall P l -> Forall P (removelast l).
Proof.
  induction 1 as [|a l Ha Hl IH]; [constructor|].
  simpl. destruct l; [constructor|]. by constructor.
Qed.

(** X13.  [short_name] of a name without any word fails with
    IndexError; of a name with one word it is the name as it stands,
    surrounding white space included; of a name with more words it is
    the initials of all words but the last, each followed by a dot,
    and the last word, and holds no white space. *)
Theorem short_name_spec (self : Person) :
  match split_ws (name self) with
  | [] => short_name self = Raise IndexError
  | [_] => short_name self = Ok (name self)
  | names =>
      exists s,
        short_name self = Ok s
        /\ s = join (lit ".") (take 1 <$> removelast names) ++ lit "."
               ++ default [] (last names)
        /\ Forall (fun c => isspace c = false) s
  end.
Proof.
  pose proof (split_ws_words (name self)) as Hw. unfold short_name.
  destruct (split_ws (name self)) as [|w1 [|w2 names]] eqn:E; [done|done|].
  assert (Hlen : (length (w1 :: w2 :: names) =? 1)%nat = false) by done.
  rewrite Hlen. clear Hlen.
  remember (w1 :: w2 :: names) as l eqn:El.
  assert (Hnil : l <> []) by (by subst l). clear El.
  assert (Hne : Forall (fun w => w <> []) l)
    by (eapply Forall_impl; [exact Hw|]; by intros ? [? _]).
  assert (Hns : Forall (Forall (fun c => isspace c = false)) l)
    by (eapply Forall_impl; [exact Hw|]; by intros ? [_ ?]).
  destruct (last l) as [n|] eqn:Hl; [|by apply last_None in Hl].
  unfold bind. rewrite (map_first_char _ Hne), removelast_fmap.
  eexists. split; [reflexivity|]. split; [done|].
  apply Forall_app. split.
  - apply join_no_space; [by repeat constructor|].
    apply Forall_fmap. eapply Forall_impl.
    + apply Forall_removelast, Hns.
    + intros x Hx. simpl. by apply Forall_take.
  - apply Forall_app. split; [by repeat constructor|].
    apply last_Some in Hl as [l' Hl]. rewrite Hl in Hns.
    apply Forall_app in Hns as [_ Hn].
    by inversion Hn.
Qed.

(** *** from_string *)

Lemma addr_char_not_at (l : pystr) :
  Forall (fun c => addr_char c = true) l ->
  Forall (fun c => not_at c = true) l.
Proof.
  intros H. eapply Forall_impl; [exact H|].
  intros c. unfold addr_char, not_at. by destruct (c =? 64).
Qed.

(** What the address group matches: a non-empty run of address
    characters, an [@] and a run of address characters with a dot
    inside, at the start of the text. *)
Lemma match_address_Some (s e : pystr) :
  match_address s = Some e ->
  exists l d,
    e = l ++ [64] ++ d /\ l <> []
    /\ Forall (fun c => addr_char c = true) l
    /\ Forall (fun c => addr_char c = true) d
    /\ inner_dot d = true.
Proof.
  unfold match_address.
  destruct (take_while addr_char s) as [|c l] eqn:Hl; [done|].
  destruct (drop_while addr_char s) as [|c' rest] eqn:Hr; [done|].
  destruct (c' =? 64) eqn:Hc; [|done]. simpl.
  destruct (inner_dot (take_while addr_char rest)) eqn:Hd; [|done].
  intros [= <-]. exists (c :: l), (take_while addr_char rest).
  split; [done|]. split; [done|].
  split; [rewrite <- Hl; apply take_while_Forall|].
  split; [apply take_while_Forall|done].
Qed.

Lemma address_valid (l d : pystr) :
  l <> [] ->
  Forall (fun c => addr_char c = true) l ->
  Forall (fun c => addr_char c = true) d ->
  inner_dot d = true ->
  email_re_match (l ++ [64] ++ d) = true.
Proof.
  intros Hl Fl Fd Hd. unfold email_re_match.
  apply addr_char_not_at in Fl, Fd.
  rewrite take_while_app, drop_while_app by done. simpl.
  destruct l as [|c l]; [done|]. simpl.
  by rewrite take_while_all.
Qed.

Lemma match_address_app (l d t : pystr) :
  l <> [] ->
  Forall (fun c => addr_char c = true) l ->
  Forall (fun c => addr_char c = true) d ->
  inner_dot d = true ->
  match t with [] => True | c :: _ => addr_char c = false end ->
  match_address (l ++ [64] ++ d ++ t) = Some (l ++ [64] ++ d).
Proof.
  intros Hl Fl Fd Hd Ht. unfold match_address.
  rewrite take_while_app, drop_while_app by done. simpl.
  destruct l as [|c l]; [done|]. simpl.
  rewrite take_while_app by done.
  replace (take_while addr_char t) with (@nil N)
    by (destruct t as [|x t]; [done|]; simpl; by rewrite Ht).
  by rewrite !app_nil_r, Hd.
Qed.

Lemma mailto_not_none (e : pystr) :
  email_re_match e = true ->
  bool_decide (lit "mailto:" ++ e = lit "mailto:None") = false.
Proof.
  intros He. apply bool_decide_eq_false. intros Hid.
  change (lit "mailto:None") with (lit "mailto:" ++ lit "None") in Hid.
  apply app_inv_head in Hid. by rewrite Hid in He.
Qed.

(** A person built from a name and an email that passes the validator. *)
Lemma person_init_with_email (n e : pystr) :
  email_re_match e = true ->
  Person_init n (Some e) None None None None
  = Ok (mkPerson n (Some e) n None None (lit "mailto:" ++ e)).
Proof.
  intros He. pose proof (mailto_not_none e He) as Hid.
  assert (Hne : str_truthy e = true) by (by destruct e).
  unfold Person_init, check_email, bind, attrs_post_init, default_id.
  cbn [default default_label Agents.email Agents.name _id opt_truthy
       label affiliation alternate_name id].
  rewrite Hne, He. cbn [andb negb]. by rewrite Hid.
Qed.

(** X14.  [from_string] reads [name<local@domain>]: for a name without
    [<] that is not blank, a non-empty local part and a domain of
    characters other than [@], [<] and [>], the domain with a dot inside,
    it builds the person with the name stripped of trailing white space,
    that email, the name as label and [mailto:] and the email as
    identifier. *)
Theorem from_string_name_email (name l d : pystr) :
  Forall (fun c => not_lt c = true) name ->
  rstrip name <> [] ->
  l <> [] ->
  Forall (fun c => addr_char c = true) l ->
  Forall (fun c => addr_char c = true) d ->
  inner_dot d = true ->
  from_string (name ++ lit "<" ++ l ++ lit "@" ++ d ++ lit ">")
  = Ok (mkPerson (rstrip name) (Some (l ++ lit "@" ++ d)) (rstrip name)
          None None (lit "mailto:" ++ l ++ lit "@" ++ d)).
Proof.
  intros Fn Hn Hl Fl Fd Hd. unfold from_string, name_email_groups.
  rewrite take_while_app, drop_while_app by done.
  change (lit "<" ++ l ++ lit "@" ++ d ++ lit ">")
    with (60 :: l ++ [64] ++ d ++ [62]).
  cbn [take_while drop_while not_lt N.eqb Pos.eqb negb fst snd].
  rewrite app_nil_r, match_address_app by done.
  destruct (rstrip name) as [|c n] eqn:Hr; [done|].
  cbn [str_truthy opt_truthy negb].
  assert (Hne : str_truthy (l ++ [64] ++ d) = true) by (by destruct l).
  rewrite Hne. cbn [negb].
  by rewrite person_init_with_email by (by apply address_valid).
Qed.

Lemma from_string_name_email_witness :
  from_string (lit "John Doe <john.doe@mail.ch>")
  = Ok (mkPerson (lit "John Doe") (Some (lit "john.doe@mail.ch"))
          (lit "John Doe") None None (lit "mailto:john.doe@mail.ch")).
Proof.
  refine (from_string_name_email (lit "John Doe ") (lit "john.doe")
            (lit "mail.ch") _ _ _ _ _ _).
  - by repeat constructor.
  - vm_compute. discriminate.
  - discriminate.
  - by repeat constructor.
  - by repeat constructor.
  - reflexivity.
Defined.

(** X15.  [from_string] either builds a person or raises a
    ParameterError.  The person has the text before the first [<],
    stripped of trailing white space and not empty, as name and label;
    its email begins with [x@y.z] and its identifier is [mailto:] and
    the email.  The error is raised when that name is empty or no
    address follows the [<]; the email validator never fails. *)
Theorem from_string_outcome (string : pystr) :
  match from_string string with
  | Ok p =>
      name p = rstrip (take_while not_lt string)
      /\ name p <> [] /\ label p = name p
      /\ exists e,
           email p = Some e /\ (name_email_groups string).2 = Some e
           /\ address_shaped e /\ _id p = lit "mailto:" ++ e
  | Raise e =>
      (exists msg, e = ParameterError msg)
      /\ (rstrip (take_while not_lt string) = []
          \/ (name_email_groups string).2 = None)
  end.
Proof.
  unfold from_string. cbn [name_email_groups fst snd].
  destruct (rstrip (take_while not_lt string)) as [|c n] eqn:Hn.
  { cbn [str_truthy negb]. split; [eauto|by left]. }
  cbn [str_truthy negb].
  destruct (match_address _) as [e|] eqn:He.
  2:{ cbn [opt_truthy negb]. split; [eauto|by right]. }
  pose proof (match_address_Some _ _ He) as (l & d & -> & Hl & Fl & Fd & Hd).
  assert (Hne : opt_truthy (Some (l ++ [64] ++ d)) = true) by (by destruct l).
  rewrite Hne. cbn [negb].
  pose proof (address_valid _ _ Hl Fl Fd Hd) as Hv.
  rewrite person_init_with_email by done. cbn [name label email _id].
  split; [done|]. split; [done|]. split; [done|].
  eexists. split; [done|]. split; [done|].
  split; [by apply email_re_match_spec|done].
Qed.

End AgentsFacts.

(** ** More on the dataset commands *)

Module DatasetFacts.
Import Dataset.

(** *** _filter: the order of the records *)

Section Order.

Context {Path Commit Tree : Type}.
Variable full_path : @Client Path Commit Tree -> @DatasetFile Path -> Path.
Variable relative_to : Path -> Path -> Path.
Variable path_match : Path -> pystr -> bool.

(** The records [_filter] collects, in the order of the loops, before
    it sorts them. *)
Definition collected (client : @Client Path Commit Tree) (names : list pystr)
    (creators : creators_arg) (include exclude : option (list pystr))
  : list (@DatasetFile Path) :=
  flat_map (fun '(path_, dataset) =>
    if negb (seq_truthy names)
       || bool_decide (ds_short_name dataset ∈ names)
    then
      fst <$> List.filter snd
        (filter_file full_path relative_to path_match client
           (creators_set creators) include exclude dataset
           <$> ds_files dataset)
    else []) (datasets client).

(** Added at the time [t]. *)
Definition added_at (t : Z) (f : @DatasetFile Path) : bool :=
  (df_added f =? t)%Z.

Lemma insert_by_added_Forall (P : @DatasetFile Path -> Prop) f l :
  P f -> Forall P l -> Forall P (insert_by_added f l).
Proof.
  intros Hf. induction 1 as [|g l Hg Hl IH]; simpl.
  - by repeat constructor.
  - destruct (df_added f <=? df_added g)%Z; by repeat constructor.
Qed.

Lemma insert_by_added_sorted (f : @DatasetFile Path) l :
  StronglySorted (fun f g => (df_added f <= df_added g)%Z) l ->
  StronglySorted (fun f g => (df_added f <= df_added g)%Z)
    (insert_by_added f l).
Proof.
  induction 1 as [|g l Hl IH Hg]; simpl.
  - by repeat constructor.
  - destruct (df_added f <=? df_added g)%Z eqn:E.
    + apply Z.leb_le in E. constructor; [by constructor|].
      constructor; [done|]. eapply Forall_impl; [exact Hg|].
      intros h Hh. simpl in Hh. lia.
    + apply Z.leb_gt in E. constructor; [done|].
      apply insert_by_added_Forall; [lia|done].
Qed.

Lemma insert_by_added_stable (t : Z) (f : @DatasetFile Path) l :
  List.filter (added_at t) (insert_by_added f l)
  = List.filter (added_at t) (f :: l).
Proof.
  induction l as [|g l IH]; [done|]. simpl.
  destruct (df_added f <=? df_added g)%Z eqn:E; [done|].
  apply Z.leb_gt in E. simpl. rewrite IH. simpl. unfold added_at.
  destruct (df_added f =? t)%Z eqn:Ef, (df_added g =? t)%Z eqn:Eg;
    try done.
  apply Z.eqb_eq in Ef, Eg. lia.
Qed.

(** X16.  The records [_filter] returns are in ascending order of their
    [added] time, and the sort is stable: the records added at one and
    the same time come in the order in which the loops over the
    datasets and their files met them. *)
Theorem filter_sorted_by_added client names creators include exclude :
  StronglySorted (fun f g => (df_added f <= df_added g)%Z)
    (_filter full_path relative_to path_match client names creators
       include exclude)
  /\ forall t,
       List.filter (added_at t)
         (_filter full_path relative_to path_match client names creators
            include exclude)
       = List.filter (added_at t)
           (collected client names creators include exclude).
Proof.
  change (_filter full_path relative_to path_match client names creators
            include exclude)
    with (sorted_by_added (collected client names creators include exclude)).
  generalize (collected client names creators include exclude) as l.
  intros l. split.
  - induction l as [|f l IH]; [constructor|].
    simpl. by apply insert_by_added_sorted.
  - intros t. induction l as [|f l IH]; [done|].
    change (sorted_by_added (f :: l))
      with (insert_by_added f (sorted_by_added l)).
    rewrite insert_by_added_stable. simpl. by rewrite IH.
Qed.

End Order.

(** *** import_dataset: which versions give a valid tag name *)

(** The characters from the dot to the underscore that are neither
    letters, digits, the dot nor the underscore: the slash, [:;<=>?@]
    and the brackets, the backslash and the caret. *)
Definition tag_breaking (c : N) : bool :=
  (c =? 47) || in_range 58 64 c || in_range 91 94 c.

Ltac split_ranges :=
  unfold version_class, tag_char, tag_breaking, in_range;
  repeat (first
    [ match goal with
      | |- context [(?a <=? ?b)%N] => destruct (N.leb_spec a b)
      end
    | match goal with
      | |- context [(?a =? ?b)%N] => destruct (N.eqb_spec a b)
      end ];
    try lia);
  try reflexivity.

Lemma tag_char_version_class (c : N) :
  tag_char (if version_class c then c else 95) = negb (tag_breaking c).
Proof.
  destruct (version_class c) eqn:E.
  - revert E. split_ranges; simpl; intros; try done; lia.
  - revert E. split_ranges; simpl; intros; try done; lia.
Qed.

Lemma forallb_version_tag_name (version : pystr) :
  forallb tag_char (version_tag_name version)
  = forallb (fun c => negb (tag_breaking c)) version.
Proof.
  unfold version_tag_name. induction version as [|c v IH]; [done|].
  rewrite fmap_cons. cbn [forallb].
  by rewrite tag_char_version_class, IH.
Qed.

(** X17.  The tag name [import_dataset] makes from a version is in the
    tag alphabet exactly when the version is not empty and holds none
    of the characters [/ : ; < = > ? @], the brackets, the backslash
    and the caret, which the substitution lets through; it never holds
    a hyphen, and making it again from itself changes nothing. *)
Theorem version_tag_name_valid (version : pystr) :
  (valid_tag_name (version_tag_name version) = true
   <-> version <> [] /\ Forall (fun c => tag_breaking c = false) version)
  /\ (45 ∉ version_tag_name version)
  /\ version_tag_name (version_tag_name version) = version_tag_name version.
Proof.
  split; [|split].
  - unfold valid_tag_name. rewrite andb_true_iff, forallb_version_tag_name.
    rewrite forallb_forall, Forall_forall.
    split; intros [Hne Hall].
    + split; [by destruct version|]. intros c Hc.
      apply negb_true_iff, Hall. by apply list_elem_of_In.
    + split; [by destruct version|]. intros c Hc.
      apply negb_true_iff, Hall. by apply list_elem_of_In.
  - unfold version_tag_name. intros Hin.
    apply list_elem_of_fmap in Hin as (c & Hc & _).
    destruct (version_class c) eqn:E; [|done]. by subst c.
  - unfold version_tag_name. induction version as [|c v IH]; [done|].
    rewrite !fmap_cons, IH. f_equal.
    destruct (version_class c) eqn:E; [by rewrite E|done].
Qed.

(** *** export_dataset: what it touches *)

Section ExportCommand.

Context {Path Commit Tree : Type}.
Variable load_dataset :
  @Client Path Commit Tree -> pystr -> option (@DatasetT Path Commit).
Variable provider_known : string -> bool.
Variable head_commit : Tree -> Commit.
Variable with_commit : Commit -> Tree -> Tree.

(** Two clients that differ at most in the provider's stored token. *)
Definition same_but_token (provider : string)
    (c c' : @Client Path Commit Tree) : Prop :=
  datasets c' = datasets c /\ client_path c' = client_path c
  /\ tree c' = tree c
  /\ forall k, k <> (provider, config_key_secret) ->
       config c' !! k = config c !! k.

Lemma same_but_token_refl provider c : same_but_token provider c c.
Proof. by repeat split. Qed.

Lemma export_block_frame exporter_export id provider publish selected_tag
    (handle_access_token_fn :
       option (@Exporter Path Commit -> option pystr)) client :
  same_but_token provider client
    (export_block load_dataset exporter_export id provider publish
       selected_tag handle_access_token_fn client).2.
Proof.
  unfold export_block.
  destruct (load_dataset client id) as [ds|];
    [|apply same_but_token_refl].
  unfold get_value.
  destruct (config client !! (provider, config_key_secret)) as [tok|] eqn:Hc.
  - destruct (exporter_export _ publish selected_tag) as [d|e];
      [apply same_but_token_refl|].
    destruct e; try apply same_but_token_refl. simpl exn_str.
    destruct (contains (lit "unauthorized") msg);
      [|apply same_but_token_refl].
    repeat split. intros k Hk. simpl. by rewrite lookup_delete_ne.
  - destruct (match handle_access_token_fn with
              | Some fn => fn _ | None => None end) as [[|c tok]|];
      try apply same_but_token_refl.
    destruct (exporter_export _ publish selected_tag) as [d|e].
    { repeat split. intros k Hk. simpl. by rewrite lookup_insert_ne. }
    destruct e;
      try (repeat split; intros k Hk; simpl; by rewrite lookup_insert_ne).
    simpl exn_str. destruct (contains (lit "unauthorized") msg).
    + repeat split. intros k Hk. simpl.
      by rewrite lookup_delete_ne, lookup_insert_ne.
    + repeat split. intros k Hk. simpl. by rewrite lookup_insert_ne.
Qed.

(** X18.  Whatever its outcome, [export_dataset] leaves the datasets,
    the path and the checked-out tree of the client as they were, and
    of the configuration it changes at most the [access_token] of the
    provider it was called with. *)
Theorem export_dataset_frame exporter_export
    (id : pystr) (provider : string) (publish : bool) (tag : option pystr)
    (handle_access_token_fn :
       option (@Exporter Path Commit -> option pystr))
    (handle_tag_selection_fn :
       option (list (@DatasetTag Commit) -> option (@DatasetTag Commit)))
    (client : @Client Path Commit Tree) :
  same_but_token provider client
    (export_dataset load_dataset provider_known head_commit with_commit
       exporter_export id provider publish tag handle_access_token_fn
       handle_tag_selection_fn client).2.
Proof.
  unfold export_dataset.
  destruct (load_dataset client id) as [ds|];
    [|apply same_but_token_refl].
  destruct (provider_known provider); [|apply same_but_token_refl].
  cbn [negb].
  match goal with
  | |- same_but_token _ _ (match ?sel with Ok _ => _ | Raise _ => _ end).2 =>
      destruct sel as [[selected_tag selected_commit]|e];
        [|apply same_but_token_refl]
  end.
  match goal with
  | |- context [export_block ?l ?ee ?i ?p ?pub ?t ?h ?c] =>
      pose proof (export_block_frame ee i p pub t h c) as Hb;
      destruct (export_block l ee i p pub t h c) as [r inner']
  end.
  destruct Hb as (Hd & Hp & _ & Hk).
  by destruct r; repeat split.
Qed.

Lemma set_tree_back (client inner' : @Client Path Commit Tree) :
  config inner' = config client -> datasets inner' = datasets client ->
  client_path inner' = client_path client ->
  set_tree inner' (tree client) = client.
Proof.
  destruct client, inner'. unfold set_tree. simpl. by intros -> -> ->.
Qed.

Lemma export_block_success exporter_export id provider publish selected_tag
    (handle_access_token_fn :
       option (@Exporter Path Commit -> option pystr))
    client client' destination :
  export_block load_dataset exporter_export id provider publish
    selected_tag handle_access_token_fn client = (Ok destination, client') ->
  exists exporter token,
    exporter_export exporter publish selected_tag = Ok destination
    /\ exp_access_token exporter = Some token
    /\ config client' !! (provider, config_key_secret) = Some token
    /\ match config client !! (provider, config_key_secret) with
       | Some stored => token = stored /\ client' = client
       | None =>
           token <> []
           /\ exists fn dataset_,
                handle_access_token_fn = Some fn
                /\ fn (mkExporter dataset_ None) = Some token
       end.
Proof.
  unfold export_block.
  destruct (load_dataset client id) as [ds|]; [|discriminate].
  unfold get_value.
  destruct (config client !! (provider, config_key_secret)) as [tok|] eqn:Hc.
  - match goal with
    | |- context [exporter_export ?ex publish selected_tag] =>
        destruct (exporter_export ex publish selected_tag) as [d|e] eqn:He
    end.
    + intros [= <- <-]. eexists _, _. split; [exact He|]. done.
    + destruct e; try discriminate.
      by destruct (contains (lit "unauthorized") (exn_str (HTTPError msg))).
  - destruct handle_access_token_fn as [fn|]; [|discriminate].
    match goal with
    | |- context [fn ?ex] =>
        destruct (fn ex) as [[|c tok]|] eqn:Hfn; try discriminate
    end.
    match goal with
    | |- context [exporter_export ?ex publish selected_tag] =>
        destruct (exporter_export ex publish selected_tag) as [d|e] eqn:He
    end.
    + intros [= <- <-]. eexists _, _. split; [exact He|].
      split; [done|]. split; [simpl; by rewrite lookup_insert_eq|].
      split; [done|]. eauto.
    + destruct e; try discriminate.
      by destruct (contains (lit "unauthorized") (exn_str (HTTPError msg))).
Qed.

Lemma export_block_no_token id provider publish selected_tag
    (handle_access_token_fn :
       option (@Exporter Path Commit -> option pystr)) client :
  config client !! (provider, config_key_secret) = None ->
  (forall fn exporter,
      handle_access_token_fn = Some fn ->
      fn exporter = None \/ fn exporter = Some []) ->
  exists e,
    (e = InvalidAccessToken \/ e = DatasetNotFound [])
    /\ forall exporter_export,
         export_block load_dataset exporter_export id provider publish
           selected_tag handle_access_token_fn client = (Raise e, client).
Proof.
  intros Hc Hfn. unfold export_block.
  destruct (load_dataset client id) as [ds|]; [|by eauto].
  unfold get_value. rewrite Hc. exists InvalidAccessToken.
  split; [by left|]. intros ee.
  destruct handle_access_token_fn as [fn|]; [|done].
  by destruct (Hfn fn (mkExporter ds None) eq_refl) as [-> | ->].
Qed.

(** X19.  When [export_dataset] returns, it returns [Exported to: ]
    followed by the destination the exporter gave, the exporter ran
    with a token, and that token is the one the configuration holds
    for the provider afterwards: the one stored before, with the client
    unchanged, or a non-empty one obtained from the callback. *)
Theorem export_dataset_success exporter_export
    (id : pystr) (provider : string) (publish : bool) (tag : option pystr)
    (handle_access_token_fn :
       option (@Exporter Path Commit -> option pystr))
    (handle_tag_selection_fn :
       option (list (@DatasetTag Commit) -> option (@DatasetTag Commit)))
    (client client' : @Client Path Commit Tree) (result : pystr) :
  export_dataset load_dataset provider_known head_commit with_commit
    exporter_export id provider publish tag handle_access_token_fn
    handle_tag_selection_fn client = (Ok result, client') ->
  exists exporter selected_tag destination token,
    exporter_export exporter publish selected_tag = Ok destination
    /\ result = lit "Exported to: " ++ destination
    /\ exp_access_token exporter = Some token
    /\ config client' !! (provider, config_key_secret) = Some token
    /\ match config client !! (provider, config_key_secret) with
       | Some stored => token = stored /\ client' = client
       | None =>
           token <> []
           /\ exists fn dataset_,
                handle_access_token_fn = Some fn
                /\ fn (mkExporter dataset_ None) = Some token
       end.
Proof.
  unfold export_dataset.
  destruct (load_dataset client id) as [ds|]; [|discriminate].
  destruct (provider_known provider); [|discriminate]. cbn [negb].
  match goal with
  | |- match ?sel with Ok _ => _ | Raise _ => _ end = _ -> _ =>
      destruct sel as [[selected_tag selected_commit]|e]; [|discriminate]
  end.
  destruct (export_block _ _ _ _ _ _ _ _) as [r inner'] eqn:Hb.
  destruct r as [d|e]; [|discriminate]. intros [= <- <-].
  apply export_block_success in Hb
    as (exporter & token & He & Htok & Hcfg & Hcase).
  exists exporter, selected_tag, d, token.
  split; [done|]. split; [done|]. split; [done|]. split; [done|].
  change (config (set_tree client (with_commit selected_commit (tree client))))
    with (config client) in Hcase.
  destruct (config client !! (provider, config_key_secret)) as [stored|];
    [|done].
  destruct Hcase as [-> ->]. split; [done|]. by destruct client.
Qed.

(** X20.  Without a stored token, and without a callback or with one
    that gives no token or an empty one, [export_dataset] fails and
    leaves the client as it was, and nothing is uploaded: the outcome
    is the same for every behaviour of the exporter, and the error is
    DatasetNotFound, the ValueError of the provider or tag lookup, or
    InvalidAccessToken. *)
Theorem export_dataset_no_token
    (id : pystr) (provider : string) (publish : bool) (tag : option pystr)
    (handle_access_token_fn :
       option (@Exporter Path Commit -> option pystr))
    (handle_tag_selection_fn :
       option (list (@DatasetTag Commit) -> option (@DatasetTag Commit)))
    (client : @Client Path Commit Tree) :
  config client !! (provider, config_key_secret) = None ->
  (forall fn exporter,
      handle_access_token_fn = Some fn ->
      fn exporter = None \/ fn exporter = Some []) ->
  exists e,
    (e = InvalidAccessToken \/ e = DatasetNotFound []
     \/ exists msg, e = ValueError msg)
    /\ forall exporter_export,
         export_dataset load_dataset provider_known head_commit with_commit
           exporter_export id provider publish tag handle_access_token_fn
           handle_tag_selection_fn client = (Raise e, client).
Proof.
  intros Hc Hfn. unfold export_dataset.
  destruct (load_dataset client id) as [ds|]; [|by eauto 10].
  destruct (provider_known provider); [|by eauto 10]. cbn [negb].
  match goal with
  | |- context [match ?sel with Ok _ => _ | Raise _ => _ end] =>
      assert (Hsel : forall e, sel = Raise e -> exists m, e = ValueError m)
        by (intros e; repeat case_match; intros [= <-]; eauto);
      destruct sel as [[selected_tag selected_commit]|e];
        [|destruct (Hsel e eq_refl) as [m ->]; by eauto 10]
  end.
  destruct (export_block_no_token id provider publish selected_tag
              handle_access_token_fn
              (set_tree client (with_commit selected_commit (tree client)))
              Hc Hfn) as (e & He & Hb).
  exists e. split; [destruct He as [-> | ->]; by eauto|].
  intros ee. rewrite Hb. by destruct client.
Qed.

End ExportCommand.

(** *** add_to_dataset and tag_dataset: the errors that come out *)

Section Errors.

Context {Path Commit Tree : Type}.

Lemma starts_with_app (n s : pystr) : starts_with n (n ++ s) = true.
Proof.
  induction n as [|a n IH]; [by destruct s|].
  simpl. by rewrite N.eqb_refl, IH.
Qed.

Lemma contains_app (n a b : pystr) : contains n (a ++ n ++ b) = true.
Proof.
  induction a as [|x a IH].
  - simpl. destruct (n ++ b) eqn:E; simpl; rewrite <- E;
      by rewrite starts_with_app.
  - simpl. by rewrite IH, orb_true_r.
Qed.

(** X21.  [add_to_dataset] never fails with FileNotFoundError or
    NoSuchPathError.  Once the URLs have passed the usage check, the
    client is as adding the data left it; when adding the data failed
    with one of the two errors, a ParameterError that lists the URLs,
    one on a line, is raised; a DatasetNotFound is raised again with a
    message that names the dataset; every other outcome is passed
    on. *)
Theorem add_to_dataset_errors
    (add_data : list pystr -> pystr -> @AddOptions Path Commit ->
                @cmd Path Commit Tree unit)
    (urls : list pystr) (short_name : pystr)
    (opts : @AddOptions Path Commit) (client : @Client Path Commit Tree) :
  let out := add_to_dataset add_data urls short_name opts client in
  let added := add_data urls short_name opts client in
  out.1 <> Raise FileNotFoundError
  /\ out.1 <> Raise NoSuchPathError
  /\ (urls <> [] ->
      (sources opts = [] /\ destination opts = []) \/ length urls = 1%nat ->
      out.2 = added.2
      /\ match added.1 with
         | Raise FileNotFoundError | Raise NoSuchPathError =>
             out.1 = Raise (ParameterError
                       (lit "Could not find paths/URLs: " ++ [10]
                        ++ join [10] urls))
         | Raise (DatasetNotFound _) =>
             exists msg,
               out.1 = Raise (DatasetNotFound msg)
               /\ contains short_name msg = true
         | r => out.1 = r
         end).
Proof.
  cbv zeta. unfold add_to_dataset.
  destruct urls as [|u urls]; [cbn [length Nat.eqb fst snd]; by repeat split|].
  cbn [length Nat.eqb].
  destruct ((seq_truthy (sources opts) || str_truthy (destination opts))
            && (1 <? S (length urls))%nat) eqn:Hcheck.
  { cbn [fst snd]. split; [discriminate|]. split; [discriminate|].
    intros _ Hok. exfalso.
    apply andb_true_iff in Hcheck as [Hsd Hlen].
    apply Nat.ltb_lt in Hlen. destruct Hok as [[Hs Hd] | Hone].
    - by rewrite Hs, Hd in Hsd.
    - simpl in Hone, Hlen. lia. }
  destruct (add_data (u :: urls) short_name opts client) as [r client'].
  destruct r as [[]|e];
    [cbn [fst snd]; split; [discriminate|]; split; [discriminate|]; done|].
  destruct e; cbn [fst snd];
    (split; [discriminate|]; split; [discriminate|]; intros _ _;
     split; [reflexivity|]); try reflexivity.
  eexists. split; [reflexivity|].
  rewrite (app_assoc (lit "Dataset ")). apply contains_app.
Qed.

(** A run of X21: the path that was not found is reported as a
    parameter error. *)
Example add_to_dataset_missing_path :
  add_to_dataset (Path:=string) (Commit:=nat) (Tree:=unit)
    (fun _ _ _ c => (Raise FileNotFoundError, c))
    [lit "a.csv"; lit "b.csv"] (lit "ds")
    (mkAddOptions false false false [] [] None None false false)
    (mkClient ∅ [] "/repo" tt)
  = (Raise (ParameterError
       (lit "Could not find paths/URLs: " ++ [10] ++ lit "a.csv" ++ [10]
        ++ lit "b.csv")), mkClient ∅ [] "/repo" tt).
Proof. reflexivity. Qed.

(** X22.  [tag_dataset] changes the client only when it succeeds, and
    then by writing the dataset the tag was added to.  It never fails
    with a ValueError: the one raised when the tag is added comes out
    as a ParameterError with the same message, and a missing dataset as
    the ParameterError [Dataset not found.]. *)
Theorem tag_dataset_outcome
    (load_dataset :
       @Client Path Commit Tree -> pystr -> option (@DatasetT Path Commit))
    (add_dataset_tag :
       @Client Path Commit Tree -> @DatasetT Path Commit -> pystr -> pystr ->
       bool -> result exn (@DatasetT Path Commit))
    (to_yaml :
       @DatasetT Path Commit -> @Client Path Commit Tree ->
       @Client Path Commit Tree)
    (name tag description : pystr) (force : bool)
    (client : @Client Path Commit Tree) :
  match tag_dataset load_dataset add_dataset_tag to_yaml name tag description
          force client with
  | (Ok _, client') =>
      exists dataset_ dataset,
        load_dataset client name = Some dataset_
        /\ add_dataset_tag client dataset_ tag description force = Ok dataset
        /\ client' = to_yaml dataset client
  | (Raise e, client') =>
      client' = client
      /\ (forall msg, e <> ValueError msg)
      /\ match load_dataset client name with
         | None => e = ParameterError (lit "Dataset not found.")
         | Some dataset_ =>
             exists e',
               add_dataset_tag client dataset_ tag description force
               = Raise e'
               /\ e = match e' with
                      | ValueError msg => ParameterError msg
                      | _ => e'
                      end
         end
  end.
Proof.
  unfold tag_dataset.
  destruct (load_dataset client name) as [ds|]; [|done].
  destruct (add_dataset_tag client ds tag description force) as [ds'|e]
    eqn:He.
  - by exists ds, ds'.
  - destruct e;
      (split; [reflexivity|]; split; [intros ?; discriminate|];
       eexists; split; reflexivity).
Qed.

End Errors.

(** *** Runs *)

(** A project without stored token, and its dataset. *)
Definition fresh_dataset : @DatasetT string nat :=
  mkDataset (lit "ds") (lit "ds") None [] [] [].
Definition fresh_client : @Client string nat unit :=
  mkClient ∅ [] "/repo" tt.

(** The callback supplies a token: it is stored and the export runs. *)
Lemma export_dataset_success_witness :
  export_dataset (fun _ _ => Some fresh_dataset) (fun _ => true)
    (fun _ => 0%nat) (fun _ t => t) (fun _ _ _ => Ok (lit "doi:10.5072/1"))
    (lit "ds") "zenodo" false None (Some (fun _ => Some (lit "secret"))) None
    fresh_client
  = (Ok (lit "Exported to: doi:10.5072/1"),
     mkClient {[ ("zenodo", "access_token") := lit "secret" ]} [] "/repo" tt)
  /\ exists exporter selected_tag destination token,
       (fun (_ : @Exporter string nat) (_ : bool)
            (_ : option (@DatasetTag nat)) =>
          @Ok exn pystr (lit "doi:10.5072/1")) exporter false selected_tag
       = Ok destination
       /\ lit "Exported to: doi:10.5072/1" = lit "Exported to: " ++ destination
       /\ exp_access_token exporter = Some token
       /\ config (mkClient (Path:=string) (Commit:=nat)
                    {[ ("zenodo", "access_token") := lit "secret" ]} []
                    "/repo" tt)
          !! ("zenodo", config_key_secret) = Some token
       /\ match config fresh_client !! ("zenodo", config_key_secret) with
          | Some stored =>
              token = stored
              /\ mkClient {[ ("zenodo", "access_token") := lit "secret" ]} []
                   "/repo" tt = fresh_client
          | None =>
              token <> []
              /\ exists fn dataset_,
                   Some (fun _ : @Exporter string nat => Some (lit "secret"))
                   = Some fn
                   /\ fn (mkExporter dataset_ None) = Some token
          end.
Proof.
  assert (Hrun :
    export_dataset (fun _ _ => Some fresh_dataset) (fun _ => true)
      (fun _ => 0%nat) (fun _ t => t) (fun _ _ _ => Ok (lit "doi:10.5072/1"))
      (lit "ds") "zenodo" false None (Some (fun _ => Some (lit "secret")))
      None fresh_client
    = (Ok (lit "Exported to: doi:10.5072/1"),
       mkClient {[ ("zenodo", "access_token") := lit "secret" ]} []
         "/repo" tt)).
  { unfold export_dataset, export_block, fresh_client, get_value. simpl.
    rewrite lookup_empty. simpl.
    unfold set_tree, set_value, set_config. simpl.
    by rewrite insert_empty. }
  split; [exact Hrun|].
  exact (export_dataset_success _ _ _ _ _ _ _ _ _ _ _ _ _ _ Hrun).
Defined.

(** No token and no callback: nothing is uploaded. *)
Lemma export_dataset_no_token_witness :
  exists e,
    (e = InvalidAccessToken \/ e = DatasetNotFound []
     \/ exists msg, e = ValueError msg)
    /\ forall exporter_export,
         export_dataset (fun _ _ => Some fresh_dataset) (fun _ => true)
           (fun _ => 0%nat) (fun _ t => t) exporter_export
           (lit "ds") "zenodo" false None None None fresh_client
         = (Raise e, fresh_client).
Proof.
  refine (export_dataset_no_token (fun _ _ => Some fresh_dataset)
            (fun _ => true) (fun _ => 0%nat) (fun _ t => t)
            (lit "ds") "zenodo" false None None None fresh_client _ _).
  - apply lookup_empty.
  - intros fn exporter. discriminate.
Defined.

End DatasetFacts.

(** ** file_unlink, validate_name and the Dataverse deposition *)

Module MoreFacts.
Import Dataset DatasetMore.

(** *** file_unlink *)

Section Unlink.

Context {Path Commit Tree : Type}.
Variable load_dataset :
  @Client Path Commit Tree -> pystr -> option (@DatasetT Path Commit).
Variable full_path : @Client Path Commit Tree -> @DatasetFile Path -> Path.
Variable relative_to : Path -> Path -> Path.
Variable path_match : Path -> pystr -> bool.
Variable unlink_file :
  @DatasetT Path Commit -> Path -> result exn (@DatasetT Path Commit).
Variable to_yaml :
  @DatasetT Path Commit -> @Client Path Commit Tree ->
  @Client Path Commit Tree.

(** X23.  [file_unlink] looks for the records under the [name] of the
    dataset it loaded, which [_filter] compares with the [short_name]
    of the datasets of the project: when no dataset has that name as
    its short name, it fails with [No records found.], whatever files
    the loaded dataset has and whatever the patterns are, and the code
    at its [yield] does not run. *)
Theorem file_unlink_by_name
    (name : pystr) (include exclude : option (list pystr))
    (body : list (@DatasetFile Path) -> @cmd Path Commit Tree unit)
    (client : @Client Path Commit Tree) (dataset : @DatasetT Path Commit) :
  load_dataset client name = Some dataset ->
  (forall p d, (p, d) ∈ datasets client ->
               ds_short_name d <> ds_name dataset) ->
  file_unlink load_dataset full_path relative_to path_match unlink_file
    to_yaml name include exclude body client
  = (Raise (ParameterError (lit "No records found.")), client).
Proof.
  intros Hload Hnames. unfold file_unlink. rewrite Hload.
  destruct (_filter full_path relative_to path_match client
              [ds_name dataset] CreatorsNone include exclude)
    as [|f records] eqn:Hf; [done|].
  exfalso.
  assert (Hin : f ∈ _filter full_path relative_to path_match client
                      [ds_name dataset] CreatorsNone include exclude)
    by (rewrite Hf; apply list_elem_of_here).
  apply DatasetSpec.elem_of_filter in Hin
    as (p & d & g & Hd & Hn & _).
  destruct Hn as [Hn | Hn]; [done|].
  apply list_elem_of_singleton in Hn. by apply (Hnames p d).
Qed.

(** The records that reach the [yield] are files of the datasets whose
    short name is the name of the loaded dataset. *)
Lemma file_unlink_yields
    (name : pystr) (include exclude : option (list pystr))
    (client : @Client Path Commit Tree) (dataset : @DatasetT Path Commit) f :
  f ∈ _filter full_path relative_to path_match client [ds_name dataset]
        CreatorsNone include exclude ->
  exists p d g,
    (p, d) ∈ datasets client /\ ds_short_name d = ds_name dataset
    /\ g ∈ ds_files d /\ f = DatasetSpec.tagged d g.
Proof.
  intros Hin. apply DatasetSpec.elem_of_filter in Hin
    as (p & d & g & Hd & Hn & Hg & -> & _).
  exists p, d, g. repeat split; try done.
  destruct Hn as [Hn | Hn]; [done|]. by apply list_elem_of_singleton in Hn.
Qed.

End Unlink.

(** A dataset whose name is not its short name, with one file, found
    by its short name. *)
Definition named_file : @DatasetFile string :=
  mkFile "data/my_data/a.csv" [] 0%Z [] None.
Definition named_dataset : @DatasetT string nat :=
  mkDataset (lit "My data") (lit "my_data") None [] [named_file] [].
Definition named_client : @Client string nat unit :=
  mkClient ∅ [(".renku/datasets/1", named_dataset)] "/repo" tt.
Definition by_short_name (client : @Client string nat unit) (name : pystr)
  : option (@DatasetT string nat) :=
  snd <$> List.find (fun '(_, d) => bool_decide (ds_short_name d = name))
            (datasets client).

Lemma file_unlink_by_name_witness :
  by_short_name named_client (lit "my_data") = Some named_dataset
  /\ file_unlink by_short_name (fun _ f => df_path f) (fun p _ => p)
       (fun _ _ => true) (fun d _ => Ok d) (fun _ c => c)
       (lit "my_data") None None (fun _ c => (Ok tt, c)) named_client
     = (Raise (ParameterError (lit "No records found.")), named_client).
Proof.
  assert (Hload : by_short_name named_client (lit "my_data")
                  = Some named_dataset) by reflexivity.
  split; [exact Hload|].
  refine (file_unlink_by_name by_short_name (fun _ f => df_path f)
            (fun p _ => p) (fun _ _ => true) (fun d _ => Ok d) (fun _ c => c)
            (lit "my_data") None None (fun _ c => (Ok tt, c)) named_client
            named_dataset Hload _).
  intros p d Hin. apply list_elem_of_singleton in Hin.
  injection Hin as -> ->. discriminate.
Defined.

(** *** validate_name *)

Import Init.

(** The last field of a split at the slash: it holds no slash, and what
    precedes it is empty or ends with a slash. *)
Lemma split_on_aux_last (cur s : pystr) :
  (47 ∉ cur) ->
  exists prefix res,
    last (split_on_aux 47 cur s) = Some res
    /\ rev cur ++ s = prefix ++ res
    /\ (47 ∉ res)
    /\ (prefix = [] \/ exists q, prefix = q ++ [47]).
Proof.
  revert cur. induction s as [|c s IH]; intros cur Hcur.
  - exists [], (rev cur). simpl. rewrite app_nil_r.
    split; [done|]. split; [done|]. split; [|by left].
    intros Hin. apply Hcur. apply list_elem_of_In, in_rev.
    by apply list_elem_of_In.
  - simpl. destruct (c =? 47) eqn:E.
    + apply N.eqb_eq in E as ->.
      destruct (IH [] ltac:(apply not_elem_of_nil))
        as (prefix & res & Hl & Hs & Hres & Hp).
      exists (rev cur ++ [47] ++ prefix), res.
      rewrite last_cons, Hl. simpl in Hs. rewrite Hs.
      split; [done|]. split; [by rewrite <- !app_assoc|].
      split; [done|]. right.
      destruct Hp as [-> | [q ->]].
      * exists (rev cur). by rewrite app_nil_r.
      * exists (rev cur ++ [47] ++ q). by rewrite <- !app_assoc.
    + apply N.eqb_neq in E.
      destruct (IH (c :: cur)) as (prefix & res & Hl & Hs & Hres & Hp).
      { intros Hin. apply elem_of_cons in Hin as [Heq | Hin];
          [congruence|done]. }
      exists prefix, res. split; [done|]. split; [|done].
      rewrite <- Hs. simpl. by rewrite <- app_assoc.
Qed.

Lemma basename_spec (s : pystr) :
  exists prefix,
    s = prefix ++ Git.basename s
    /\ (47 ∉ Git.basename s)
    /\ (prefix = [] \/ exists q, prefix = q ++ [47]).
Proof.
  destruct (split_on_aux_last [] s ltac:(apply not_elem_of_nil))
    as (prefix & res & Hl & Hs & Hres & Hp).
  exists prefix. unfold Git.basename, split_on. rewrite Hl. simpl.
  by repeat split.
Qed.

(** Stripping the slashes at the end leaves nothing, or a text that
    ends with another character. *)
Lemma rstrip_sep_spec (s : pystr) :
  exists slashes,
    s = rstrip_sep s ++ slashes
    /\ Forall (fun c => c = 47) slashes
    /\ (rstrip_sep s = []
        \/ exists q c, rstrip_sep s = q ++ [c] /\ c <> 47).
Proof.
  unfold rstrip_sep.
  pose proof (AgentsFacts.take_drop_while (fun c => c =? 47) (rev s)) as Hs.
  pose proof (AgentsFacts.take_while_Forall (fun c => c =? 47) (rev s)) as Ht.
  exists (rev (Agents.take_while (fun c => c =? 47) (rev s))).
  split; [|split].
  - by rewrite <- rev_app_distr, Hs, rev_involutive.
  - apply Forall_rev. eapply Forall_impl; [exact Ht|].
    intros c Hc. by apply N.eqb_eq in Hc.
  - destruct (Agents.drop_while (fun c => c =? 47) (rev s))
      as [|c rest] eqn:Hd; [by left|]. right.
    exists (rev rest), c. split; [done|].
    apply AgentsFacts.drop_while_head in Hd. by apply N.eqb_neq.
Qed.

(** X24.  [validate_name] returns the name it is given when that is not
    empty.  Otherwise it returns the last component of the directory:
    the directory is a prefix that is empty or ends with a slash, the
    name, and trailing slashes; the name holds no slash, and it is
    empty only for a directory made of slashes alone. *)
Theorem validate_name_spec (directory : pystr) (value : option pystr) :
  match value with
  | Some ((_ :: _) as v) => validate_name directory value = v
  | _ =>
      let name := validate_name directory value in
      (47 ∉ name)
      /\ exists prefix slashes,
           directory = prefix ++ name ++ slashes
           /\ Forall (fun c => c = 47) slashes
           /\ (prefix = [] \/ exists q, prefix = q ++ [47])
           /\ (name = [] -> prefix = [])
  end.
Proof.
  assert (Hdefault :
    let name := Git.basename (rstrip_sep directory) in
    (47 ∉ name)
    /\ exists prefix slashes,
         directory = prefix ++ name ++ slashes
         /\ Forall (fun c => c = 47) slashes
         /\ (prefix = [] \/ exists q, prefix = q ++ [47])
         /\ (name = [] -> prefix = [])).
  { cbv zeta.
    destruct (rstrip_sep_spec directory) as (slashes & Hd & Hsl & Hend).
    destruct (basename_spec (rstrip_sep directory))
      as (prefix & Hb & Hres & Hp).
    split; [done|]. exists prefix, slashes.
    split; [by rewrite app_assoc, <- Hb|]. split; [done|]. split; [done|].
    intros Hnil. rewrite Hnil, app_nil_r in Hb.
    destruct Hp as [-> | [q ->]]; [done|]. exfalso.
    destruct Hend as [Hend | (q' & c & Hend & Hc)].
    - rewrite Hend in Hb. by destruct q.
    - rewrite Hend in Hb. apply app_inj_tail in Hb as [_ ->]. done. }
  destruct value as [[|c v]|]; [exact Hdefault|reflexivity|exact Hdefault].
Qed.

(** Runs of [validate_name]. *)
Example validate_name_runs :
  validate_name (lit "/home/user/project/") None = lit "project"
  /\ validate_name (lit "/home/user/project") (Some []) = lit "project"
  /\ validate_name (lit "/home/user/project") (Some (lit "flights"))
     = lit "flights"
  /\ validate_name (lit "/") None = [].
Proof. repeat split; vm_compute; reflexivity. Qed.

(** *** The Dataverse deposition *)

Import Dataverse.

Section Deposition.

Context {Metadata FilePath : Type}.
Variable requests_post :
  list (@Request Metadata FilePath) -> @Request Metadata FilePath -> Response.
Variable readable : FilePath -> bool.

(** The files up to the first one that cannot be opened. *)
Fixpoint readable_prefix (files : list FilePath) : list FilePath :=
  match files with
  | [] => []
  | file_ :: files' =>
      if readable file_ then file_ :: readable_prefix files' else []
  end.

(** The request that creates the dataset, and the server's answer. *)
Definition creation (token : option pystr) (metadata : Metadata)
  : @Request Metadata FilePath :=
  PostDataset (lit "SDSC-Test") metadata token.

Lemma upload_files_spec (files : list FilePath) self sent pid :
  dataset_pid self = Some pid ->
  upload_files requests_post readable files self sent
  = (if forallb readable files then Ok tt else Raise FileNotFoundError,
     self,
     sent ++ ((fun f => PostFile pid f (access_token self))
                <$> readable_prefix files)).
Proof.
  intros Hpid. revert sent. induction files as [|f files IH]; intros sent.
  - simpl. by rewrite app_nil_r.
  - simpl. unfold upload_file. rewrite Hpid.
    destruct (readable f); simpl; [|by rewrite app_nil_r].
    rewrite IH. by rewrite <- app_assoc.
Qed.

(** X25.  When the server does not answer the creation of the dataset
    with status 201, [export] fails; the creation is the only request
    it has sent: no file is uploaded and nothing is published.  The
    error is an OperationError that gives the status and the message of
    the server, or the error of reading that message from the
    answer. *)
Theorem export_creation_refused
    (token : option pystr) (metadata : Metadata) (files : list FilePath)
    (publish : bool) (sent : list (@Request Metadata FilePath)) :
  let response := requests_post sent (creation token metadata) in
  status_code response <> 201%Z ->
  export requests_post readable token (Ok metadata) files publish sent
  = (match json_message response with
     | Ok error_msg =>
         Raise (OperationError
                  (lit "ERROR: HTTP " ++ str_int (status_code response)
                   ++ lit " - Cannot create dataset. Message: " ++ error_msg))
     | Raise e => Raise e
     end,
     sent ++ [creation token metadata]).
Proof.
  cbv zeta. intros Hstatus. unfold export, create_dataset, post.
  cbn [access_token]. fold (creation token metadata).
  apply Z.eqb_neq in Hstatus. rewrite Hstatus. cbn [negb].
  by destruct (json_message _).
Qed.

(** X26.  When the server answers the creation with status 201 and a
    persistent identifier, [export] sends, after the creation, one
    upload for each file in order, up to the first file that cannot be
    opened, each with that identifier and the access token, and then
    the publication if it was asked for and every file was uploaded.
    It returns the identifier when every file could be opened and fails
    with FileNotFoundError otherwise, whatever the server answers to
    the uploads and to the publication. *)
Theorem export_uploads
    (token : option pystr) (metadata : Metadata) (files : list FilePath)
    (publish : bool) (sent : list (@Request Metadata FilePath))
    (pid : pystr) :
  let response := requests_post sent (creation token metadata) in
  status_code response = 201%Z ->
  json_persistentId response = Ok pid ->
  export requests_post readable token (Ok metadata) files publish sent
  = (if forallb readable files then Ok pid else Raise FileNotFoundError,
     sent ++ [creation token metadata]
     ++ ((fun f => PostFile pid f token) <$> readable_prefix files)
     ++ (if forallb readable files && publish
         then [PostPublish pid token] else [])).
Proof.
  cbv zeta. intros Hstatus Hpid. unfold export, create_dataset, post.
  cbn [access_token]. fold (creation token metadata).
  apply Z.eqb_eq in Hstatus. rewrite Hstatus. cbn [negb]. rewrite Hpid.
  rewrite (upload_files_spec files _ _ pid) by done. cbn [access_token].
  destruct (forallb readable files); cbn [andb].
  - destruct publish.
    + unfold publish_dataset, post. cbn [dataset_pid access_token].
      by rewrite ?Hpid, <- !app_assoc.
    + by rewrite ?Hpid, app_nil_r, <- !app_assoc.
  - by rewrite ?Hpid, app_nil_r, <- !app_assoc.
Qed.

End Deposition.

(** A server that refuses every request, and one that creates the
    dataset and refuses everything else. *)
Definition refusing (_ : list (@Request unit string))
    (_ : @Request unit string) : Response :=
  mkResponse 401 (Some (mkJson (Some (lit "Bad api key")) None)).

Definition creating (_ : list (@Request unit string))
    (request : @Request unit string) : Response :=
  match request with
  | PostDataset _ _ _ =>
      mkResponse 201 (Some (mkJson None (Some (lit "doi:10.5072/FK2/1"))))
  | _ => mkResponse 500 None
  end.

Lemma export_creation_refused_witness :
  export refusing (fun _ => true) (Some (lit "key")) (Ok tt)
    ["a.csv"; "b.csv"] true []
  = (Raise (OperationError
       (lit "ERROR: HTTP 401 - Cannot create dataset. Message: Bad api key")),
     [PostDataset (lit "SDSC-Test") tt (Some (lit "key"))]).
Proof.
  refine (export_creation_refused refusing (fun _ => true)
            (Some (lit "key")) tt ["a.csv"; "b.csv"] true [] _).
  discriminate.
Defined.

Lemma export_uploads_witness :
  export creating (fun f => bool_decide (f <> "missing.csv"))
    (Some (lit "key")) (Ok tt) ["a.csv"; "missing.csv"; "c.csv"] true []
  = (Raise FileNotFoundError,
     [PostDataset (lit "SDSC-Test") tt (Some (lit "key"));
      PostFile (lit "doi:10.5072/FK2/1") "a.csv" (Some (lit "key"))]).
Proof.
  refine (export_uploads creating (fun f => bool_decide (f <> "missing.csv"))
            (Some (lit "key")) tt ["a.csv"; "missing.csv"; "c.csv"] true []
            (lit "doi:10.5072/FK2/1") _ _); reflexivity.
Defined.

(** With every file in place the export goes through although the
    server refuses the uploads and the publication. *)
Example export_ignores_upload_errors :
  export creating (fun _ => true) (Some (lit "key")) (Ok tt)
    ["a.csv"; "b.csv"] true []
  = (Ok (lit "doi:10.5072/FK2/1"),
     [PostDataset (lit "SDSC-Test") tt (Some (lit "key"));
      PostFile (lit "doi:10.5072/FK2/1") "a.csv" (Some (lit "key"));
      PostFile (lit "doi:10.5072/FK2/1") "b.csv" (Some (lit "key"));
      PostPublish (lit "doi:10.5072/FK2/1") (Some (lit "key"))]).
Proof. reflexivity. Qed.

(** *** _convert_json_property_name *)

(** A capitalised word: a capital and, behind it, small letters, at
    least one. *)
Definition capital (w : N * pystr) : Prop :=
  is_upper w.1 = true /\ w.2 <> [] /\ Forall (fun c => is_lower c = true) w.2.
Definition word_of (w : N * pystr) : pystr := w.1 :: w.2.

(** The words with an underscore before every second one, and before
    every one. *)
Fixpoint alternate (b : bool) (caps : list (N * pystr)) : pystr :=
  match caps with
  | [] => []
  | w :: rest =>
      (if b then [95] else []) ++ word_of w ++ alternate (negb b) rest
  end.
Definition marked (caps : list (N * pystr)) : pystr :=
  concat ((fun w => 95 :: word_of w) <$> caps).

(** Neither a capital nor the newline. *)
Definition plain (c : N) : bool := negb (is_upper c) && negb (c =? 10).

(** No small letter or digit is followed by a capital. *)
Fixpoint no_hump (s : pystr) : bool :=
  match s with
  | c :: s' =>
      match s' with
      | u :: _ => negb (is_lower_digit c && is_upper u) && no_hump s'
      | [] => true
      end
  | [] => true
  end.

Ltac classes :=
  unfold plain, is_lower_digit, is_upper, is_lower, in_range in *;
  repeat match goal with
  | H : _ && _ = true |- _ => apply andb_true_iff in H as [? ?]
  | H : _ || _ = true |- _ => apply orb_true_iff in H as [? | ?]
  | H : (_ <=? _) = true |- _ => apply N.leb_le in H
  | H : (_ =? _) = true |- _ => apply N.eqb_eq in H
  end;
  repeat match goal with
  | |- context [(?a <=? ?b)] => destruct (N.leb_spec a b); try lia
  | |- context [(?a =? ?b)] => destruct (N.eqb_spec a b); try lia
  end;
  try reflexivity; try lia.

Lemma lower_plain (c : N) : is_lower c = true -> plain c = true.
Proof. intros H. classes. Qed.

Lemma lower_digit_plain (c : N) : is_lower_digit c = true -> plain c = true.
Proof. intros H. classes. Qed.

Lemma upper_not_lower (c : N) : is_upper c = true -> is_lower c = false.
Proof. intros H. classes. Qed.

Lemma upper_not_newline (c : N) : is_upper c = true -> (c =? 10) = false.
Proof. intros H. classes. Qed.

Lemma lower_lower_digit (c : N) :
  is_lower c = true -> is_lower_digit c = true.
Proof. intros H. unfold is_lower_digit. by rewrite H. Qed.

Lemma plain_not_upper (c : N) : plain c = true -> is_upper c = false.
Proof.
  unfold plain. intros H. apply andb_true_iff in H as [H _].
  by apply negb_true_iff.
Qed.

Lemma plain_not_newline (c : N) : plain c = true -> (c =? 10) = false.
Proof.
  unfold plain. intros H. apply andb_true_iff in H as [_ H].
  by apply negb_true_iff.
Qed.

Lemma lower_char_lower_digit (c : N) :
  is_lower_digit c = true -> lower_char c = c.
Proof. intros H. unfold lower_char. classes. Qed.

Lemma sub_word_aux_nil (fuel : nat) : sub_word_aux fuel [] = [].
Proof. by destruct fuel. Qed.

Lemma sub_word_aux_step (fuel : nat) (c u l : N) (rest : pystr) :
  sub_word_aux (S fuel) (c :: u :: l :: rest)
  = if negb (c =? 10) && is_upper u && is_lower l then
      c :: 95 :: u :: l :: Agents.take_while is_lower rest
      ++ sub_word_aux fuel (Agents.drop_while is_lower rest)
    else c :: sub_word_aux fuel (u :: l :: rest).
Proof. reflexivity. Qed.

Lemma words_head (caps : list (N * pystr)) :
  Forall capital caps ->
  Agents.take_while is_lower (concat (word_of <$> caps)) = []
  /\ Agents.drop_while is_lower (concat (word_of <$> caps))
     = concat (word_of <$> caps).
Proof.
  destruct 1 as [|[U l] rest (HU & _ & _) _]; [done|].
  simpl. by rewrite (upper_not_lower U HU).
Qed.

(** The first substitution puts the underscore before the first, the
    third, ... of the capitalised words. *)
Lemma sub_word_aux_words (fuel : nat) (x : N) (r : pystr)
    (caps : list (N * pystr)) :
  (length (x :: r ++ concat (word_of <$> caps)) <= fuel)%nat ->
  (x =? 10) = false ->
  Forall (fun c => plain c = true) r ->
  Forall capital caps ->
  sub_word_aux fuel (x :: r ++ concat (word_of <$> caps))
  = x :: r ++ alternate true caps.
Proof.
  revert x r caps. induction fuel as [|fuel IH]; intros x r caps Hlen Hx Hr Hc.
  { simpl in Hlen. lia. }
  destruct r as [|y r].
  - destruct caps as [|[U l] rest]; [done|].
    apply Forall_cons in Hc as [(HU & Hne & Hl) Hrest].
    simpl in HU, Hne, Hl. destruct l as [|l1 l]; [done|].
    apply Forall_cons in Hl as [Hl1 Hl].
    cbn [app fmap list_fmap concat word_of fst snd alternate negb].
    rewrite sub_word_aux_step, Hx, HU, Hl1. cbn [negb andb].
    rewrite AgentsFacts.take_while_app, AgentsFacts.drop_while_app by done.
    destruct (words_head rest Hrest) as [-> ->].
    rewrite app_nil_r. do 4 f_equal.
    destruct rest as [|[U2 l2] rest]; [by rewrite sub_word_aux_nil|].
    pose proof Hrest as Hrest'.
    apply Forall_cons in Hrest' as [(HU2 & Hne2 & Hl2) Hrest'].
    cbn [fmap list_fmap concat word_of fst snd alternate negb app].
    simpl in HU2, Hl2. f_equal.
    apply IH.
    + cbn [app fmap list_fmap concat word_of fst snd] in Hlen.
      set (T := concat (word_of <$> rest)) in *.
      cbn [length] in *. rewrite !length_app in *.
      cbn [length] in *. rewrite !length_app in *. lia.
    + by apply upper_not_newline.
    + eapply Forall_impl; [exact Hl2|]. apply lower_plain.
    + done.
  - apply Forall_cons in Hr as [Hy Hr].
    destruct (r ++ concat (word_of <$> caps)) as [|z rest] eqn:Hz.
    + apply app_eq_nil in Hz as [-> Hz].
      destruct caps as [|[U l] caps]; [done|discriminate].
    + cbn [app]. rewrite Hz, sub_word_aux_step.
      rewrite (plain_not_upper y Hy), andb_false_r. cbn [andb].
      rewrite <- Hz. f_equal. apply IH; try done.
      * simpl in Hlen. simpl. lia.
      * by apply plain_not_newline.
Qed.

Lemma sub_hump_step (c u : N) (rest : pystr) :
  sub_hump (c :: u :: rest)
  = if is_lower_digit c && is_upper u then c :: 95 :: u :: sub_hump rest
    else c :: sub_hump (u :: rest).
Proof. reflexivity. Qed.

Lemma no_hump_step (c u : N) (rest : pystr) :
  no_hump (c :: u :: rest)
  = negb (is_lower_digit c && is_upper u) && no_hump (u :: rest).
Proof. reflexivity. Qed.

(** Where no small letter or digit is followed by a capital, the second
    substitution copies. *)
Lemma sub_hump_skip (q : pystr) (c : N) (t : pystr) :
  no_hump (q ++ [c]) = true ->
  sub_hump (q ++ c :: t) = q ++ sub_hump (c :: t).
Proof.
  induction q as [|a q IH]; [done|]. intros Hq.
  destruct q as [|b q].
  - cbn [app] in *. rewrite no_hump_step in Hq.
    apply andb_true_iff in Hq as [Hq _]. apply negb_true_iff in Hq.
    by rewrite sub_hump_step, Hq.
  - cbn [app] in *. rewrite no_hump_step in Hq.
    apply andb_true_iff in Hq as [Hab Hq]. apply negb_true_iff in Hab.
    rewrite sub_hump_step, Hab. f_equal. by apply IH.
Qed.

Lemma sub_hump_none (q : pystr) : no_hump q = true -> sub_hump q = q.
Proof.
  induction q as [|a q IH]; [done|]. intros Hq.
  destruct q as [|b q]; [done|]. rewrite no_hump_step in Hq.
  apply andb_true_iff in Hq as [Hab Hq]. apply negb_true_iff in Hab.
  rewrite sub_hump_step, Hab. f_equal. by apply IH.
Qed.

Lemma no_hump_tail (q : pystr) :
  Forall (fun c => is_upper c = false) (tail q) -> no_hump q = true.
Proof.
  induction q as [|a q IH]; [done|]. intros Hq. simpl in Hq.
  destruct q as [|b q]; [done|]. rewrite no_hump_step.
  pose proof Hq as Hq'. apply Forall_cons in Hq' as [Hb Hq'].
  rewrite Hb, andb_false_r. cbn [negb andb]. by apply IH.
Qed.

Lemma lower_Forall_not_upper (l : pystr) :
  Forall (fun c => is_lower c = true) l ->
  Forall (fun c => is_upper c = false) l.
Proof.
  intros H. eapply Forall_impl; [exact H|].
  intros c Hc. apply plain_not_upper. by apply lower_plain.
Qed.

(** The second substitution puts the underscore before the other
    capitalised words. *)
Lemma sub_hump_words (caps : list (N * pystr)) (q : pystr) (b : bool) :
  Forall capital caps ->
  no_hump q = true ->
  (if b then q <> []
   else exists q0 c, q = q0 ++ [c] /\ is_lower_digit c = true) ->
  sub_hump (q ++ alternate b caps) = q ++ marked caps.
Proof.
  revert q b. induction caps as [|[U l] rest IH]; intros q b Hc Hq Hb.
  - simpl. rewrite !app_nil_r. by apply sub_hump_none.
  - apply Forall_cons in Hc as [(HU & Hne & Hl) Hrest].
    simpl in HU, Hne, Hl.
    assert (Hlast : exists q0 c,
               l = q0 ++ [c] /\ is_lower_digit c = true).
    { destruct (exists_last Hne) as (q0 & c & ->). exists q0, c.
      split; [done|]. apply Forall_app in Hl as [_ Hl].
      apply lower_lower_digit. by inversion Hl. }
    unfold marked. cbn [alternate fmap list_fmap concat].
    fold (marked rest). change (word_of (U, l)) with (U :: l).
    destruct b; cbn [negb].
    + destruct (exists_last Hb) as (q0 & c & ->).
      rewrite <- !app_assoc. cbn [app].
      rewrite sub_hump_skip by done.
      rewrite sub_hump_step.
      replace (is_upper 95) with false by reflexivity.
      rewrite andb_false_r. do 2 f_equal.
      change (95 :: U :: l ++ alternate false rest)
        with ((95 :: U :: l) ++ alternate false rest).
      rewrite (IH (95 :: U :: l) false Hrest).
      * done.
      * rewrite no_hump_step.
        replace (is_lower_digit 95) with false by reflexivity.
        cbn [andb negb]. apply no_hump_tail. simpl.
        by apply lower_Forall_not_upper.
      * destruct Hlast as (q1 & c1 & -> & Hc1).
        exists (95 :: U :: q1), c1. by split.
    + destruct Hb as (q0 & c & -> & Hcl).
      rewrite <- !app_assoc. cbn [app].
      rewrite sub_hump_skip by done.
      rewrite sub_hump_step, Hcl, HU. cbn [andb]. do 4 f_equal.
      rewrite (IH l true Hrest); [done| |done].
      apply no_hump_tail. apply lower_Forall_not_upper in Hl.
      destruct l; [done|]. simpl. by apply Forall_cons in Hl as [_ Hl].
Qed.

Lemma lower_marked (caps : list (N * pystr)) :
  Forall capital caps ->
  lower (marked caps)
  = concat ((fun w => 95 :: lower (word_of w)) <$> caps).
Proof.
  induction 1 as [|w rest Hw Hrest IH]; [done|].
  unfold marked, lower in *.
  cbn [fmap list_fmap concat]. rewrite fmap_app.
  fold (@fmap list _ _ _ lower_char).
  by rewrite <- IH.
Qed.

Lemma join_cons_marked (sep w0 : pystr) (ws : list pystr) :
  join sep (w0 :: ws) = w0 ++ concat ((fun w => sep ++ w) <$> ws).
Proof.
  revert w0. induction ws as [|w ws IH]; intros w0.
  - simpl. by rewrite app_nil_r.
  - change (join sep (w0 :: w :: ws)) with (w0 ++ sep ++ join sep (w :: ws)).
    rewrite IH. simpl. by rewrite <- !app_assoc.
Qed.

Lemma strip_at_body (ats1 ats2 body : pystr) :
  Forall (fun c => c = 64) ats1 -> Forall (fun c => c = 64) ats2 ->
  match body with c :: _ => c <> 64 | [] => False end ->
  match last body with Some c => c <> 64 | None => False end ->
  strip_at (ats1 ++ body ++ ats2) = body.
Proof.
  intros H1 H2 Hhead Hlast. unfold strip_at.
  assert (Hp : forall l, Forall (fun c => c = 64) l ->
                 Forall (fun c => (c =? 64) = true) l).
  { intros l Hl. eapply Forall_impl; [exact Hl|].
    intros c ->. reflexivity. }
  rewrite AgentsFacts.drop_while_app by (by apply Hp).
  destruct body as [|h body]; [done|].
  cbn [app Agents.drop_while]. apply N.eqb_neq in Hhead. rewrite Hhead.
  change (h :: body ++ ats2) with ((h :: body) ++ ats2).
  rewrite rev_app_distr.
  rewrite AgentsFacts.drop_while_app by (apply Hp; by apply Forall_rev).
  destruct (last (h :: body)) as [c|] eqn:Hl; [|done].
  apply last_Some in Hl as [body' Hl]. rewrite Hl.
  rewrite rev_app_distr. cbn [rev app Agents.drop_while].
  apply N.eqb_neq in Hlast. rewrite Hlast.
  cbn [rev]. by rewrite rev_involutive.
Qed.

(** X27.  [_convert_json_property_name] turns a camel-case name into
    snake case: for a name made of a first word of small letters and
    digits and of capitalised words, with [@] signs before and after
    it, the result is the words in small letters, joined by
    underscores, without the [@] signs. *)
Theorem convert_camel_case (ats1 ats2 w0 : pystr)
    (caps : list (N * pystr)) :
  Forall (fun c => c = 64) ats1 -> Forall (fun c => c = 64) ats2 ->
  w0 <> [] -> Forall (fun c => is_lower_digit c = true) w0 ->
  Forall capital caps ->
  _convert_json_property_name
    (ats1 ++ (w0 ++ concat (word_of <$> caps)) ++ ats2)
  = join (lit "_") (w0 :: ((fun w => lower (word_of w)) <$> caps)).
Proof.
  intros H1 H2 Hne Hw0 Hcaps. unfold _convert_json_property_name.
  destruct w0 as [|x r]; [done|].
  apply Forall_cons in Hw0 as [Hx Hr].
  rewrite strip_at_body; try done.
  - unfold sub_word. cbn [app].
    rewrite sub_word_aux_words; try done.
    + change (x :: r ++ alternate true caps)
        with ((x :: r) ++ alternate true caps).
      rewrite (sub_hump_words caps (x :: r) true); try done.
      * unfold lower at 1. rewrite fmap_app. fold (lower (x :: r)).
        fold (lower (marked caps)). rewrite lower_marked by done.
        rewrite join_cons_marked, <- list_fmap_compose.
        f_equal. unfold lower.
        rewrite <- (list_fmap_id (x :: r)) at 2.
        apply Forall_fmap_ext_1. constructor.
        -- by apply lower_char_lower_digit.
        -- eapply Forall_impl; [exact Hr|].
           intros c Hc. by apply lower_char_lower_digit.
      * apply no_hump_tail. simpl. eapply Forall_impl; [exact Hr|].
        intros c Hc. apply plain_not_upper. by apply lower_digit_plain.
    + apply plain_not_newline. by apply lower_digit_plain.
    + eapply Forall_impl; [exact Hr|]. apply lower_digit_plain.
  - cbn [app]. intros ->. by vm_compute in Hx.
  - destruct (last ((x :: r) ++ concat (word_of <$> caps))) as [c|] eqn:Hl.
    2:{ by apply last_None in Hl. }
    intros ->. apply last_Some in Hl as [body Hl].
    assert (Hall : Forall (fun c => c <> 64)
                     ((x :: r) ++ concat (word_of <$> caps))).
    { apply Forall_app. split.
      - constructor; [intros ->; by vm_compute in Hx|].
        eapply Forall_impl; [exact Hr|].
        intros c Hc ->. by vm_compute in Hc.
      - clear -Hcaps. induction Hcaps as [|[U l] rest (HU & _ & Hl) _ IH];
          [constructor|].
        cbn [fmap list_fmap concat]. change (word_of (U, l)) with (U :: l).
        simpl in HU, Hl. cbn [app].
        constructor; [intros ->; by vm_compute in HU|].
        apply Forall_app. split; [|done].
        eapply Forall_impl; [exact Hl|].
        intros c Hc ->. by vm_compute in Hc. }
    rewrite Hl in Hall. apply Forall_app in Hall as [_ Hall].
    by inversion Hall.
Qed.

Lemma convert_camel_case_witness :
  _convert_json_property_name (lit "@contentUrl") = lit "content_url".
Proof.
  refine (convert_camel_case (lit "@") [] (lit "content")
            [(85, lit "rl")] _ _ _ _ _).
  - by repeat constructor.
  - constructor.
  - discriminate.
  - by repeat constructor.
  - repeat constructor. discriminate.
Defined.

End MoreFacts.
